(** * A concurrent LRU cache with per-entry TTL (pkg/cache/cache.go)

    Shallow embedding of the Go package [cache] and of the part of the Go
    runtime it talks to: the heap on which [record] values live, the
    [container/list] recency list, the [sync.Mutex] and the one-shot timers
    made by [time.AfterFunc].

    Every exported operation holds the cache-wide mutex for its whole body,
    so an execution of the program is a sequence of critical sections.  The
    embedding runs one critical section at a time on an explicit state. *)

From stdpp Require Import gmap strings list fin_maps pretty.
From Stdlib Require Import ZArith Lia.

Local Open Scope Z_scope.

(** ** Constants *)

(** [const MaxCacheSize = 5] *)
Definition MaxCacheSize : Z := 5.

(** The message of the panic of [mustBeLocked]. *)
Definition lock_panic : string :=
  "the code must be executed within a cache transaction".

(** Wrap-around of Go's [uint64]. *)
Definition uint64 (x : Z) : Z := x mod 2 ^ 64.

(** ** Data model *)

(** A non-nil pointer to a [record]; a Go pointer is an [option loc]. *)
Abbreviation loc := positive.
(** A pointer to a [list.Element] and to a [time.Timer]. *)
Abbreviation elem := positive.
Abbreviation timer_id := nat.

(** [time.Timer] made by [time.AfterFunc(ttl, func() { c.deleteWithLock(i, key) })].
    The closure is kept as the pair it captured.  A timer is [Armed] until
    it is stopped or its duration elapses; when the duration elapses the
    runtime starts the function in its own goroutine ([Running]), which
    then has to take the mutex like any other caller. *)
Inductive timer_status := Armed | Running | Stopped | Finished.

Record Timer := mkTimer {
  deadline : Z;
  cb_idx : Z;
  cb_key : string;
  status : timer_status
}.

(** [list.Element]: its identity and its [Value], a [*record]. *)
Record Element := mkElement { eid : elem; Value : loc }.

Global Instance timer_status_eq_dec : EqDecision timer_status.
Proof. solve_decision. Defined.

Section Cache.

(** The value type parameter [V] with its zero value, and
    [maphash.String], a function of the seed and the string. *)
Context {V : Type} (zero : V) (maphash_String : Z → string → Z).

(** [type record[V any] struct] (cache.go, lines 35-41) *)
Record record := mkRecord {
  key : string;
  val : V;
  below : option loc;
  t : timer_id;
  e : option elem
}.

(** [type lruCache[V any] struct] (lines 27-33: the fields [m], [size],
    [seed], [lru], [data]) together with the runtime state the methods read and write: the
    heap holding the records, the timers and the clock. *)
Record state := mkState {
  m : bool;
  size : Z;
  seed : Z;
  lru : list Element;
  data : list (option loc);
  heap : gmap loc record;
  timers : list Timer;
  now : Z
}.

Definition set_m (b : bool) (c : state) : state :=
  mkState b (size c) (seed c) (lru c) (data c) (heap c) (timers c) (now c).
Definition set_size (n : Z) (c : state) : state :=
  mkState (m c) n (seed c) (lru c) (data c) (heap c) (timers c) (now c).
Definition set_lru (l : list Element) (c : state) : state :=
  mkState (m c) (size c) (seed c) l (data c) (heap c) (timers c) (now c).
Definition set_data (d : list (option loc)) (c : state) : state :=
  mkState (m c) (size c) (seed c) (lru c) d (heap c) (timers c) (now c).
Definition set_heap (h : gmap loc record) (c : state) : state :=
  mkState (m c) (size c) (seed c) (lru c) (data c) h (timers c) (now c).
Definition set_timers (ts : list Timer) (c : state) : state :=
  mkState (m c) (size c) (seed c) (lru c) (data c) (heap c) ts (now c).
Definition set_now (n : Z) (c : state) : state :=
  mkState (m c) (size c) (seed c) (lru c) (data c) (heap c) (timers c) n.

Definition set_val (v : V) (r : record) : record :=
  mkRecord (key r) v (below r) (t r) (e r).
Definition set_below (p : option loc) (r : record) : record :=
  mkRecord (key r) (val r) p (t r) (e r).
Definition set_t (tm : timer_id) (r : record) : record :=
  mkRecord (key r) (val r) (below r) tm (e r).
Definition set_e (el : option elem) (r : record) : record :=
  mkRecord (key r) (val r) (below r) (t r) el.

Definition set_status (s : timer_status) (tm : Timer) : Timer :=
  mkTimer (deadline tm) (cb_idx tm) (cb_key tm) s.

(** ** Outcomes of a critical section *)

(** A method either returns, panics, waits for ever on the mutex, or never
    leaves the chain walk of [lookup]. *)
Inductive result (A : Type) :=
  | Ok (a : A) (c : state)
  | Panic (msg : string)
  | Blocked
  | Diverges.
Arguments Ok {A} a c.
Arguments Panic {A} msg.
Arguments Blocked {A}.
Arguments Diverges {A}.

Definition M (A : Type) : Type := state → result A.

Global Instance M_ret : MRet M := λ A a c, Ok a c.
Global Instance M_bind : MBind M := λ A B f x c,
  match x c with
  | Ok a c' => f a c'
  | Panic msg => Panic msg
  | Blocked => Blocked
  | Diverges => Diverges
  end.

Definition panic {A} (msg : string) : M A := λ _, Panic msg.
Definition gets {A} (f : state → A) : M A := λ c, Ok (f c) c.
Definition modify (f : state → state) : M unit := λ c, Ok () (f c).

(** ** The runtime: mutex, heap, list and timers *)

(** [sync.Mutex] *)
Definition Lock : M unit := λ c, if m c then Blocked else Ok () (set_m true c).
Definition TryLock : M bool :=
  λ c, if m c then Ok false c else Ok true (set_m true c).
Definition Unlock : M unit :=
  λ c, if m c then Ok () (set_m false c)
       else Panic "sync: unlock of unlocked mutex".

(** Reading and writing a record through a pointer.  A nil pointer
    panics; Go has no dangling pointers, so the [None] branch of [load] is
    never taken on a heap the program built. *)
Definition load (a : loc) : M record :=
  λ c, match heap c !! a with
       | Some r => Ok r c
       | None => Panic "invalid memory address"
       end.
Definition deref (p : option loc) : M (loc * record) :=
  match p with
  | Some a => r ← load a; mret (a, r)
  | None => panic "invalid memory address or nil pointer dereference"
  end.
Definition store (a : loc) (r : record) : M unit :=
  modify (λ c, set_heap (<[a:=r]> (heap c)) c).
(** [&record[V]{...}] *)
Definition alloc (r : record) : M loc :=
  λ c, let a := fresh (dom (heap c)) in Ok a (set_heap (<[a:=r]> (heap c)) c).

(** [c.data[i]] as a value and as an assignment target. *)
Definition data_load (i : Z) : M (option loc) :=
  λ c, if bool_decide (0 ≤ i) then
         match data c !! Z.to_nat i with
         | Some p => Ok p c
         | None => Panic "index out of range"
         end
       else Panic "index out of range".
Definition data_store (i : Z) (p : option loc) : M unit :=
  λ c, if bool_decide (0 ≤ i < Z.of_nat (length (data c))) then
         Ok () (set_data (<[Z.to_nat i:=p]> (data c)) c)
       else Panic "index out of range".

(** [container/list]: the list front first.  [MoveToFront] and [Remove]
    leave the list alone when the element is not one of its own. *)
Definition list_MoveToFront (el : elem) (l : list Element) : list Element :=
  match filter (λ x, eid x = el) l with
  | x :: _ => x :: filter (λ y, eid y ≠ el) l
  | [] => l
  end.
Definition list_Remove (el : elem) (l : list Element) : list Element :=
  filter (λ y, eid y ≠ el) l.
Definition list_PushFront (v : loc) (l : list Element) : elem * list Element :=
  let el := fresh (eid <$> l) in (el, mkElement el v :: l).

Definition MoveToFront (p : option elem) : M unit :=
  match p with
  | Some el => modify (λ c, set_lru (list_MoveToFront el (lru c)) c)
  | None => panic "invalid memory address or nil pointer dereference"
  end.
Definition Remove (p : option elem) : M unit :=
  match p with
  | Some el => modify (λ c, set_lru (list_Remove el (lru c)) c)
  | None => panic "invalid memory address or nil pointer dereference"
  end.
Definition PushFront (v : loc) : M elem :=
  λ c, let '(el, l) := list_PushFront v (lru c) in Ok el (set_lru l c).
(** [er := c.lru.Back().Value], asserted to be a record pointer (cache.go,
    line 90).  [Back] is nil on an empty list. *)
Definition Back_Value : M loc :=
  λ c, match last (lru c) with
       | Some x => Ok (Value x) c
       | None => Panic "invalid memory address or nil pointer dereference"
       end.

(** [time.AfterFunc] and [Timer.Stop].  [Stop] prevents the function
    from being started; it does nothing to a timer whose function has
    already been started. *)
Definition AfterFunc (ttl : Z) (i : Z) (k : string) : M timer_id :=
  λ c, Ok (length (timers c))
          (set_timers (timers c ++ [mkTimer (now c + ttl) i k Armed]) c).
Definition stop_timer (tm : Timer) : Timer :=
  if decide (status tm = Armed) then set_status Stopped tm else tm.
Definition Stop (tid : timer_id) : M unit :=
  λ c, match timers c !! tid with
       | Some tm => Ok () (set_timers (<[tid:=stop_timer tm]> (timers c)) c)
       | None => Panic "invalid memory address"
       end.

(** ** The methods of [lruCache] *)

(** [func NewCache[V any]() *lruCache[V]] (cache.go, lines 19-23).  The
    seed, made by [maphash.MakeSeed()], is the only thing that varies from
    one fresh cache to another. *)
Definition NewCache (sd : Z) : state :=
  mkState false 0 sd [] (replicate (Z.to_nat MaxCacheSize) None) ∅ [] 0.

(** [func (c *lruCache[V]) hash(s string) uint64] (lines 154-156):
    [maphash.String(c.seed, s) % MaxCacheSize]. *)
Definition hash_of (sd : Z) (s : string) : Z :=
  uint64 (maphash_String sd s) mod MaxCacheSize.
Definition hash (s : string) : M Z := gets (λ c, hash_of (seed c) s).

(** [func (c *lruCache[V]) mustBeLocked()] (lines 161-166) *)
Definition mustBeLocked : M unit :=
  b ← TryLock;
  if b : bool then
    Unlock;; panic lock_panic
  else mret ().

(** The loop of [lookup] (lines 118-120):
    [for rec = root; rec != nil && rec.key != key; { rec, above = rec.below, rec }].
    A walk that has not ended after more steps than there are records on
    the heap is on a cycle and never ends. *)
Fixpoint lookup_loop (fuel : nat) (k : string) (rec above : option loc)
    : M (option loc * option loc) :=
  match fuel with
  | O => λ _, Diverges
  | S fuel' =>
      match rec with
      | None => mret (rec, above)
      | Some a =>
          r ← load a;
          if decide (key r = k) then mret (rec, above)
          else lookup_loop fuel' k (below r) rec
      end
  end.

(** [func (c *lruCache[V]) lookup(i uint64, key string)
    (rec, above, root *record[V])] (lines 114-123) *)
Definition lookup (i : Z) (k : string)
    : M (option loc * option loc * option loc) :=
  mustBeLocked;;
  root ← data_load i;
  fuel ← gets (λ c, S (base.size (heap c)));
  '(rec, above) ← lookup_loop fuel k root None;
  mret (rec, above, root).

(** "Bring r to the top", the block shared by [Get] (lines 52-57) and the
    reset case of [Set] (lines 82-86):
    [if r != root { above.below = r.below; r.below = root; c.data[i] = r }]. *)
Definition bring_to_top (i : Z) (ra : loc) (above root : option loc) : M unit :=
  if decide (Some ra = root) then mret ()
  else
    r ← load ra;
    '(aa, ab) ← deref above;
    store aa (set_below (below r) ab);;
    r ← load ra;
    store ra (set_below root r);;
    data_store i (Some ra).

(** [func (c *lruCache[V]) delete(idx uint64, key string)]
    (lines 133-151) *)
Definition delete (idx : Z) (k : string) : M unit :=
  mustBeLocked;;
  '(r, above, root) ← lookup idx k;
  match r with
  | None => mret ()
  | Some ra =>
      rr ← load ra;
      Stop (t rr);;
      (if decide (r = root) then
         rr ← load ra;
         data_store idx (below rr)
       else
         rr ← load ra;
         '(aa, ab) ← deref above;
         store aa (set_below (below rr) ab));;
      rr ← load ra;
      Remove (e rr);;
      modify (λ c, set_size (uint64 (size c - 1)) c)
  end.

(** [func (c *lruCache[V]) deleteWithLock(idx uint64, key string)]
    (lines 125-129) *)
Definition deleteWithLock (idx : Z) (k : string) : M unit :=
  Lock;;
  delete idx k;;
  Unlock.

(** [func (c *lruCache[V]) Get(key string) (v V, found bool)]
    (lines 45-62) *)
Definition Get (k : string) : M (V * bool) :=
  i ← hash k;
  Lock;;
  '(r, above, root) ← lookup i k;
  res ← match r with
        | Some ra =>
            bring_to_top i ra above root;;
            rr ← load ra;
            MoveToFront (e rr);;
            rr ← load ra;
            mret (val rr, true)
        | None => mret (zero, false)
        end;
  Unlock;;
  mret res.

(** The [default] case of [Set] (lines 96-107), also reached by
    [fallthrough] from the eviction case. *)
Definition Set_default (i : Z) (k : string) (value : V) (ttl : Z)
    (root : option loc) : M unit :=
  tm ← AfterFunc ttl i k;
  ra ← alloc (mkRecord k value root tm None);
  el ← PushFront ra;
  r ← load ra;
  store ra (set_e (Some el) r);;
  data_store i (Some ra);;
  modify (λ c, set_size (uint64 (size c + 1)) c).

(** [func (c *lruCache[V]) Set(key string, value V, ttl time.Duration)]
    (lines 67-109).  [Set] is a reserved word here, hence the underscore. *)
Definition Set_ (k : string) (value : V) (ttl : Z) : M unit :=
  i ← hash k;
  Lock;;
  '(r, above, root) ← lookup i k;
  match r with
  | Some ra =>
      rr ← load ra;
      Stop (t rr);;
      rr ← load ra;
      store ra (set_val value rr);;
      tm ← AfterFunc ttl i k;
      rr ← load ra;
      store ra (set_t tm rr);;
      bring_to_top i ra above root;;
      rr ← load ra;
      MoveToFront (e rr)
  | None =>
      sz ← gets size;
      if decide (sz = MaxCacheSize) then
        er ← Back_Value;
        root ← (if decide (Some er = root) then
                  '(_, rootr) ← deref root; mret (below rootr)
                else mret root);
        err ← load er;
        j ← hash (key err);
        delete j (key err);;
        Set_default i k value ttl root
      else
        Set_default i k value ttl root
  end;;
  Unlock.

(** ** Interleavings *)

(** What can happen to a cache: a caller runs [Get] or [Set]; code holding
    the package (its tests do) runs [delete] inside a transaction; time
    passes; the runtime finds an armed timer whose duration has elapsed and
    starts its function in a goroutine; such a goroutine gets to run. *)
Inductive event :=
  | EvGet (k : string)
  | EvSet (k : string) (v : V) (ttl : Z)
  | EvDelete (idx : Z) (k : string)
  | EvTick (d : Z)
  | EvExpire (tid : timer_id)
  | EvRun (tid : timer_id).

Definition tick (d : Z) : M unit :=
  λ c, if decide (0 ≤ d) then Ok () (set_now (now c + d) c) else Blocked.

Definition expire (tid : timer_id) : M unit :=
  λ c, match timers c !! tid with
       | Some tm =>
           if decide (status tm = Armed ∧ deadline tm ≤ now c) then
             Ok () (set_timers (<[tid:=set_status Running tm]> (timers c)) c)
           else Blocked
       | None => Blocked
       end.

Definition run_func (tid : timer_id) : M unit :=
  λ c, match timers c !! tid with
       | Some tm =>
           if decide (status tm = Running) then
             (deleteWithLock (cb_idx tm) (cb_key tm);;
              modify (λ c, set_timers
                             (alter (set_status Finished) tid (timers c)) c)) c
           else Blocked
       | None => Blocked
       end.

Definition step (ev : event) : M unit :=
  match ev with
  | EvGet k => Get k;; mret ()
  | EvSet k v ttl => Set_ k v ttl
  | EvDelete idx k => deleteWithLock idx k
  | EvTick d => tick d
  | EvExpire tid => expire tid
  | EvRun tid => run_func tid
  end.

Fixpoint exec (evs : list event) : M unit :=
  match evs with
  | [] => mret ()
  | ev :: evs' => step ev;; exec evs'
  end.

(** A sequence of [Set] calls, each given as (key, value, ttl). *)
Definition Set_all (ops : list (string * V * Z)) : M unit :=
  exec ((λ o, EvSet o.1.1 o.1.2 o.2) <$> ops).

(** A state the program can be in between two critical sections. *)
Definition reachable (c : state) : Prop :=
  ∃ sd evs, exec evs (NewCache sd) = Ok () c.

(** ** Observations *)

(** The records met when following [below] from [p]. *)
Fixpoint walk (fuel : nat) (h : gmap loc record) (p : option loc) : list loc :=
  match fuel with
  | O => []
  | S fuel' =>
      match p with
      | None => []
      | Some a =>
          a :: match h !! a with
               | Some r => walk fuel' h (below r)
               | None => []
               end
      end
  end.

Definition bucket (c : state) (i : nat) : list loc :=
  walk (S (base.size (heap c))) (heap c) (default None (data c !! i)).
Definition buckets (c : state) : list (list loc) :=
  walk (S (base.size (heap c))) (heap c) <$> data c.

(** The records of the recency list, front first, and what they hold. *)
Definition live (c : state) : list loc := Value <$> lru c.
Definition entry_of (h : gmap loc record) (x : Element)
    : option (string * V) :=
  (λ r, (key r, val r)) <$> h !! Value x.
Definition entries (c : state) : list (string * V) :=
  omap (entry_of (heap c)) (lru c).
Definition keys (c : state) : list string := (entries c).*1.

Definition capacity (c : state) : Z := Z.of_nat (length (data c)).

(** The key an event touches: [Set] always touches its key, [Get] does
    when it finds it. *)
Definition touched_key (ev : event) (c : state) : option string :=
  match ev with
  | EvSet k _ _ => Some k
  | EvGet k => if decide (k ∈ keys c) then Some k else None
  | _ => None
  end.

(** The keys touched by a run of events from [c], the oldest touch first. *)
Fixpoint touch_log (evs : list event) (c : state) : list string :=
  match evs with
  | [] => []
  | ev :: evs' =>
      match step ev c with
      | Ok _ c' => option_list (touched_key ev c) ++ touch_log evs' c'
      | _ => []
      end
  end.

(** In the log, [k1] is touched at some point after which [k2] is not
    touched any more. *)
Definition touched_after (log : list string) (k1 k2 : string) : Prop :=
  ∃ l1 l2, log = l1 ++ k1 :: l2 ∧ k2 ∉ l2.

(** The state in the middle of a transaction: the mutex taken. *)
Definition locked (c : state) : state := set_m true c.

(** ** Reasoning about a method body *)

(** [wp x c Q]: from [c], [x] returns, with a value and a state in [Q]. *)
Definition wp {A} (x : M A) (c : state) (Q : A → state → Prop) : Prop :=
  match x c with
  | Ok a c' => Q a c'
  | _ => False
  end.

(** [x] run inside a transaction does not hit the panic of [mustBeLocked]
    and stays inside the transaction. *)
Definition lock_safe {A} (x : M A) : Prop :=
  ∀ c, m c = true →
    x c ≠ Panic lock_panic ∧ ∀ a c', x c = Ok a c' → m c' = true.

(** [seg h p l q]: following [below] from [p] meets exactly the records
    [l], in this order, and then the pointer [q]. *)
Fixpoint seg (h : gmap loc record) (p : option loc) (l : list loc)
    (q : option loc) : Prop :=
  match l with
  | [] => p = q
  | a :: l' => p = Some a ∧ ∃ r, h !! a = Some r ∧ seg h (below r) l' q
  end.
Definition chain (h : gmap loc record) (p : option loc) (l : list loc) : Prop :=
  seg h p l None.

Definition nokey (h : gmap loc record) (k : string) (l : list loc) : Prop :=
  ∀ b rb, b ∈ l → h !! b = Some rb → key rb ≠ k.
Definition last_or (ab : option loc) (l : list loc) : option loc :=
  match last l with
  | Some x => Some x
  | None => ab
  end.

(** Two heaps that differ in [below] fields only. *)
Definition same_payload (h h' : gmap loc record) : Prop :=
  ∀ b, set_below None <$> h' !! b = set_below None <$> h !! b.

(** How "bring r to the top" changes the heap [h] into [h'] when the
    chain is [l1 ++ a :: l2], its head pointer is [p] and [a] holds [r]:
    the chain becomes [a :: l1 ++ l2], no record outside the chain is
    written, and only [below] fields are. *)
Definition relinked (h h' : gmap loc record) (a : loc) (l1 l2 : list loc)
    (p : option loc) (r : record) : Prop :=
  chain h' (Some a) (a :: l1 ++ l2)
  ∧ (∀ b, b ∉ l1 ++ a :: l2 → h' !! b = h !! b)
  ∧ same_payload h h'
  ∧ (l1 ≠ [] →
     h' !! a = Some (set_below p r)
     ∧ ∃ aa rab, last l1 = Some aa ∧ h !! aa = Some rab
                 ∧ h' !! aa = Some (set_below (below r) rab)).

(** How [delete] changes the heap and the head pointer of the chain
    [l1 ++ a :: l2]: the chain becomes [l1 ++ l2]; either the head pointer
    is moved ([a] was the head) or the record before [a] is linked around
    it. *)
Definition unlinked (h h' : gmap loc record) (a : loc) (l1 l2 : list loc)
    (p p' : option loc) (r : record) : Prop :=
  chain h' p' (l1 ++ l2)
  ∧ (∀ b, b ∉ l1 ++ a :: l2 → h' !! b = h !! b)
  ∧ same_payload h h'
  ∧ (l1 = [] → p' = below r ∧ h' = h)
  ∧ (l1 ≠ [] →
     p' = p
     ∧ ∃ aa rab, last l1 = Some aa ∧ h !! aa = Some rab
                 ∧ h' = <[aa:=set_below (below r) rab]> h).

(** The state [delete] leaves when it removes the record [r] of the
    element [x] from bucket [i]. *)
Definition deleted (c : state) (i : nat) (x : Element) (r : record)
    (h' : gmap loc record) (p' : option loc) : state :=
  set_size (uint64 (size c - 1))
    (set_lru (filter (λ y, eid y ≠ eid x) (lru c))
       (set_data (<[i:=p']> (data c))
          (set_heap h'
             (set_timers (alter stop_timer (t r) (timers c)) c)))).

(** The state the [default] case of [Set] leaves: the timer [tm] armed,
    the record [r] allocated at [a] and put at the head of bucket [i], its
    element [el] pushed at the front of the recency list. *)
Definition inserted (c : state) (i : nat) (a : loc) (el : elem)
    (r : record) (tm : Timer) : state :=
  set_size (uint64 (size c + 1))
    (set_data (<[i:=Some a]> (data c))
       (set_heap (<[a:=r]> (heap c))
          (set_lru (mkElement el a :: lru c)
             (set_timers (timers c ++ [tm]) c)))).

(** The state after "bring r to the top" and [MoveToFront]. *)
Definition touched (c : state) (i : nat) (a : loc) (x : Element)
    (h' : gmap loc record) : state :=
  set_lru (x :: filter (λ y, eid y ≠ eid x) (lru c))
    (set_data (<[i:=Some a]> (data c)) (set_heap h' c)).

(** The state after the first half of the reset case of [Set]: the old
    timer stopped, the value replaced, the timer [tm] armed and stored. *)
Definition refreshed (c : state) (a : loc) (r : record) (v : V)
    (tm : Timer) : state :=
  set_heap (<[a:=set_t (length (timers c)) (set_val v r)]> (heap c))
    (set_timers (alter stop_timer (t r) (timers c) ++ [tm]) c).

(** What [Set] does to a state whose bucket [i] for the key has head [p]
    and chain [l]: reset, plain insertion, or eviction and insertion. *)
Definition Set_post (c : state) (k : string) (v : V) (ttl : Z) (i : nat)
    (p : option loc) (l : list loc) (c' : state) : Prop :=
  let tm := mkTimer (now c + ttl) (Z.of_nat i) k Armed in
  (∃ l1 a l2 r x h',
     l = l1 ++ a :: l2 ∧ heap c !! a = Some r ∧ key r = k
     ∧ nokey (heap c) k l1 ∧ x ∈ lru c ∧ Value x = a
     ∧ relinked (heap (refreshed c a r v tm)) h' a l1 l2 p
         (set_t (length (timers c)) (set_val v r))
     ∧ c' = touched (refreshed c a r v tm) i a x h')
  ∨ (nokey (heap c) k l ∧ size c ≠ MaxCacheSize
     ∧ ∃ a el,
         heap c !! a = None ∧ (el ∉ eid <$> lru c)
         ∧ c' = inserted c i a el
                  (mkRecord k v p (length (timers c)) (Some el)) tm)
  ∨ (nokey (heap c) k l ∧ size c = MaxCacheSize
     ∧ ∃ xv rv (j : nat) pj l1 l2 hv pv' p1 a el,
         last (lru c) = Some xv ∧ heap c !! Value xv = Some rv
         ∧ hash_of (seed c) (key rv) = Z.of_nat j ∧ data c !! j = Some pj
         ∧ chain (heap c) pj (l1 ++ Value xv :: l2)
         ∧ unlinked (heap c) hv (Value xv) l1 l2 pj pv' rv
         ∧ let c1 := deleted c j xv rv hv pv' in
           data c1 !! i = Some p1 ∧ heap c1 !! a = None
           ∧ (el ∉ eid <$> lru c1)
           ∧ c' = inserted c1 i a el
                    (mkRecord k v p1 (length (timers c1)) (Some el)) tm).

(** What a hit does to bucket [i] when [lookup] returned the record [a],
    the record [above] before it and the head [root]: [a] becomes the head
    of the chain, the rest of the chain keeps its order, the other chains
    are as before; when [a] was not the head already, the old head is
    now below [a], and what was below [a] is now below [above]. *)
Definition moved (c c' : state) (i : nat) (a : loc)
    (above root : option loc) : Prop :=
  data c' !! i = Some (Some a)
  ∧ bucket c' i = a :: filter (λ b, b ≠ a) (bucket c i)
  ∧ (∀ j, j ≠ i → bucket c' j = bucket c j)
  ∧ (Some a ≠ root →
     ∃ aa, above = Some aa
       ∧ below <$> heap c' !! a = Some root
       ∧ below <$> heap c' !! aa = below <$> heap c !! a).

(** The record [a] is live and belongs to bucket [i]. *)
Definition in_bucket (c : state) (i : nat) (a : loc) : Prop :=
  ∃ r, a ∈ live c ∧ heap c !! a = Some r
       ∧ hash_of (seed c) (key r) = Z.of_nat i.

(** The representation invariant of the cache. *)
Record Inv (c : state) : Prop := mkInv {
  inv_len : length (data c) = Z.to_nat MaxCacheSize;
  inv_live : NoDup (live c);
  inv_eid : NoDup (eid <$> lru c);
  inv_e : ∀ x, x ∈ lru c →
      ∃ r, heap c !! Value x = Some r ∧ e r = Some (eid x)
           ∧ (t r < length (timers c))%nat;
  inv_keys : ∀ a b ra rb, a ∈ live c → b ∈ live c →
      heap c !! a = Some ra → heap c !! b = Some rb →
      key ra = key rb → a = b;
  inv_bucket : ∀ i p, data c !! i = Some p →
      ∃ l, chain (heap c) p l ∧ NoDup l ∧ ∀ a, a ∈ l ↔ in_bucket c i a;
  inv_size : size c = Z.of_nat (length (lru c));
  inv_cap : size c ≤ MaxCacheSize;
  inv_cb : ∀ tm, tm ∈ timers c → 0 ≤ cb_idx tm < MaxCacheSize
}.

(** ** Callers *)

(** What code using the cache does between two timer events: it calls
    [Get] or [Set]; the tests of the package also delete a key in a
    transaction of their own,
    [c.m.Lock(); c.delete(c.hash(key), key); c.m.Unlock()]. *)
Inductive call :=
  | CallGet (k : string)
  | CallSet (k : string) (v : V) (ttl : Z)
  | CallDelete (k : string).

Definition run_call (cl : call) : M (option (V * bool)) :=
  match cl with
  | CallGet k => res ← Get k; mret (Some res)
  | CallSet k v ttl => Set_ k v ttl;; mret None
  | CallDelete k => Lock;; i ← hash k; delete i k;; Unlock;; mret None
  end.

(** The calls one after the other, with what each [Get] returned. *)
Fixpoint run_calls (cls : list call) : M (list (option (V * bool))) :=
  match cls with
  | [] => mret []
  | cl :: cls' =>
      res ← run_call cl;
      rest ← run_calls cls';
      mret (res :: rest)
  end.

(** ** The cache as a bounded association list

    What the calls are meant to do, told without buckets, pointers,
    timers or a hash function: the cache is a list of (key, value) pairs,
    the most recently used first, of at most [MaxCacheSize] pairs. *)
Fixpoint assoc (k : string) (es : list (string * V)) : option V :=
  match es with
  | [] => None
  | (k', v) :: es' => if decide (k' = k) then Some v else assoc k es'
  end.
Definition without (k : string) (es : list (string * V)) : list (string * V) :=
  filter (λ kv, kv.1 ≠ k) es.

Definition model_get (k : string) (es : list (string * V))
    : (V * bool) * list (string * V) :=
  match assoc k es with
  | Some v => ((v, true), (k, v) :: without k es)
  | None => ((zero, false), es)
  end.
Definition model_set (k : string) (v : V) (es : list (string * V))
    : list (string * V) :=
  (k, v) :: match assoc k es with
            | Some _ => without k es
            | None =>
                if decide (Z.of_nat (length es) = MaxCacheSize)
                then removelast es else es
            end.
Definition model_call (cl : call) (es : list (string * V))
    : option (V * bool) * list (string * V) :=
  match cl with
  | CallGet k => (Some (model_get k es).1, (model_get k es).2)
  | CallSet k v _ => (None, model_set k v es)
  | CallDelete k => (None, without k es)
  end.
Fixpoint model_calls (cls : list call) (es : list (string * V))
    : list (option (V * bool)) * list (string * V) :=
  match cls with
  | [] => ([], es)
  | cl :: cls' =>
      let res := model_call cl es in
      let rest := model_calls cls' res.2 in
      (res.1 :: rest.1, rest.2)
  end.

(** ** Timers and the records that own them *)

(** The record [r] holds the timer [tm]: the timer has not been stopped,
    its function has not finished, and its function deletes the key of
    [r]. *)
Definition owns_timer (c : state) (r : record) (tm : Timer) : Prop :=
  timers c !! t r = Some tm ∧ cb_key tm = key r
  ∧ (status tm = Armed ∨ status tm = Running).

(** Every record of the recency list owns a timer, and the function of
    every timer deletes its key from the bucket the key hashes to. *)
Record TInv (c : state) : Prop := mkTInv {
  tinv_own : ∀ x r, x ∈ lru c → heap c !! Value x = Some r →
      ∃ tm, owns_timer c r tm;
  tinv_cb : ∀ tm, tm ∈ timers c → cb_idx tm = hash_of (seed c) (cb_key tm)
}.

End Cache.

Arguments Ok {V A} a c.
Arguments Panic {V A} msg.
Arguments Blocked {V A}.
Arguments Diverges {V A}.

(** A stand-in for [maphash.String] on which examples can be run: the
    length of the string plus the seed. *)
Definition example_hash (sd : Z) (s : string) : Z :=
  Z.of_nat (String.length s) + sd.

(** The value a computation returns, if it returns. *)
Definition value_of {V A} (x : result (V:=V) A) : option A :=
  match x with
  | Ok a _ => Some a
  | _ => None
  end.

(** The state a computation returns, [c] if it does not return. *)
Definition state_of {V A} (x : result (V:=V) A) (c : state) : state :=
  match x with
  | Ok _ c' => c'
  | _ => c
  end.

(** The state after the given events on a fresh cache with seed 0, with
    values of type [nat] and [example_hash] for the hash function. *)
Definition after (evs : list (event (V:=nat))) : state :=
  state_of (exec 0%nat example_hash evs (NewCache 0)) (NewCache 0).

(** Five keys in five buckets, then a hit on the oldest. *)
Definition full_trace : list (event (V:=nat)) :=
  [EvSet "a" 1%nat 5; EvSet "bb" 2%nat 5; EvSet "ccc" 3%nat 5;
   EvSet "dddd" 4%nat 5; EvSet "eeeee" 5%nat 5; EvGet "a"].

(** Two keys in one bucket. *)
Definition pair_trace : list (event (V:=nat)) :=
  [EvSet "a" 1%nat 5; EvSet "b" 2%nat 5].

(** A full cache in which the record at the back of the recency list is
    the head of the chain the next key hashes to. *)
Definition same_bucket_trace : list (event (V:=nat)) :=
  [EvSet "a" 1%nat 5; EvSet "b" 2%nat 5; EvSet "ab" 3%nat 5;
   EvSet "abcde" 4%nat 5; EvSet "abcd" 5%nat 5; EvSet "abc" 6%nat 5;
   EvSet "abcdef" 7%nat 5].

(** A timer expires, and before its function gets the mutex the key is
    set again. *)
Definition stale_timer_trace : list (event (V:=nat)) :=
  [EvSet "k" 1%nat 2; EvTick 2; EvExpire 0; EvSet "k" 2%nat 5].

(** The calls of [TestCache_LRU] up to its first check: one more key
    than the cache holds. *)
Definition lru_test_trace : list (event (V:=nat)) :=
  [EvSet "key1" 1%nat 5; EvSet "key2" 2%nat 5; EvSet "key3" 3%nat 5;
   EvSet "key4" 4%nat 5; EvSet "key5" 5%nat 5; EvSet "key6" 6%nat 5].

(** ** The tests of the package

    Each test is the sequence of its calls on a fresh cache with the seed
    [sd], run without a timer going off in between; it returns [true]
    when no check of the test fails ([t.Errorf] is not called). *)

(** [time.Second], in nanoseconds. *)
Definition second : Z := 1000000000.
(** [strconv.Itoa] *)
Definition Itoa (i : Z) : string := pretty i.

(** [for _, a := range l { body(a) }] *)
Fixpoint for_each {V A} (l : list A) (body : A → M (V:=V) unit)
    : M (V:=V) unit :=
  match l with
  | [] => mret ()
  | a :: l' => body a;; for_each l' body
  end.

(** cache_blackbox_test.go, lines 13-30 *)
Definition TestCache_SetAndGet (mh : Z → string → Z) (sd : Z)
    : result (V:=string) bool :=
  (Set_ mh "key1" "value1" (5 * second);;
   Set_ mh "key2" "value2" (5 * second);;
   '(val1, ok1) ← Get EmptyString mh "key1";
   '(val2, ok2) ← Get EmptyString mh "key2";
   '(_, ok3) ← Get EmptyString mh "key3";
   mret ((ok1 && bool_decide (val1 = "value1"))
         && (ok2 && bool_decide (val2 = "value2"))
         && negb ok3)) (NewCache sd).

(** cache_blackbox_test.go, lines 44-67 *)
Definition TestCache_LRU (mh : Z → string → Z) (sd : Z)
    : result (V:=string) bool :=
  (for_each (seqZ 1 (MaxCacheSize + 1))
     (λ i, let n := Itoa i in
           Set_ mh ("key" +:+ n) ("value" +:+ n) (5 * second));;
   '(_, ok1) ← Get EmptyString mh "key1";
   '(val2, ok2) ← Get EmptyString mh "key2";
   (let n := Itoa (MaxCacheSize + 2) in
    Set_ mh ("key" +:+ n) ("value" +:+ n) (5 * second));;
   '(_, ok3) ← Get EmptyString mh "key3";
   mret (negb ok1 && (ok2 && bool_decide (val2 = "value2")) && negb ok3))
    (NewCache sd).

(** The white-box test [TestLookup], lines 8-32 of its file *)
Definition TestLookup (mh : Z → string → Z) (sd : Z)
    : result (V:=string) bool :=
  (Set_ mh "key1" "value1" (5 * second);;
   Set_ mh "key2" "value2" (5 * second);;
   Lock;;
   sz ← gets size;
   i ← hash mh "key1";
   '(r, _, _) ← lookup i "key1";
   ok1 ← match r with
         | Some a => rr ← load a; mret (bool_decide (val rr = "value1"))
         | None => mret false
         end;
   j ← hash mh "weird";
   '(r', _, _) ← lookup j "weird";
   Unlock;;
   mret (bool_decide (sz = 2) && ok1 && bool_decide (r' = None)))
    (NewCache sd).

(** The white-box test [TestDelete], lines 34-60 of its file *)
Definition TestDelete (mh : Z → string → Z) (sd : Z)
    : result (V:=string) bool :=
  (Set_ mh "key1" "value1" (5 * second);;
   Set_ mh "key2" "value2" (5 * second);;
   Set_ mh "key3" "value3" (5 * second);;
   Lock;;
   i ← hash mh "key2";
   delete i "key2";;
   sz ← gets size;
   Unlock;;
   '(_, ok) ← Get EmptyString mh "key2";
   Lock;;
   j ← hash mh "key2";
   '(r, _, _) ← lookup j "key2";
   Unlock;;
   mret (bool_decide (sz = 2) && negb ok && bool_decide (r = None)))
    (NewCache sd).

(** * Proofs *)

Section Proofs.

Context {V : Type} (zero : V) (mh : Z → string → Z).

Implicit Types (c : @state V) (h : gmap loc (@record V)) (r : @record V).
Implicit Types (p q : option loc) (l : list loc) (a b : loc) (k : string).

(** ** Rules for [wp] *)

Lemma wp_ok {A} (x : M A) c (Q : A → state → Prop) :
  wp x c Q ↔ ∃ (a : A) c', x c = Ok a c' ∧ Q a c'.
Proof.
  unfold wp. destruct (x c) as [a c'| | |]; split; try done.
  - eauto.
  - by intros (? & ? & [= <- <-] & ?).
  - by intros (? & ? & [=] & ?).
  - by intros (? & ? & [=] & ?).
  - by intros (? & ? & [=] & ?).
Qed.

Lemma wp_mono {A} (x : M A) c (Q Q' : A → state → Prop) :
  wp x c Q → (∀ (a : A) c', Q a c' → Q' a c') → wp x c Q'.
Proof. unfold wp. destruct (x c); naive_solver. Qed.

Lemma wp_bind {A B} (x : M A) (f : A → M B) c (Q : B → state → Prop) :
  wp x c (λ (a : A) c', wp (f a) c' Q) → wp (x ≫= f) c Q.
Proof. unfold wp, mbind, M_bind. by destruct (x c). Qed.

Lemma wp_ret {A} (a : A) c (Q : A → state → Prop) : Q a c → wp (mret a) c Q.
Proof. done. Qed.

Lemma wp_gets {A} (f : state → A) c (Q : A → state → Prop) :
  Q (f c) c → wp (gets f) c Q.
Proof. done. Qed.

Lemma wp_modify (f : state → state) c (Q : unit → state → Prop) :
  Q () (f c) → wp (modify f) c Q.
Proof. done. Qed.

Lemma wp_Lock c (Q : unit → state → Prop) :
  m c = false → Q () (set_m true c) → wp Lock c Q.
Proof. unfold wp, Lock. by intros ->. Qed.

Lemma wp_Unlock c (Q : unit → state → Prop) :
  m c = true → Q () (set_m false c) → wp Unlock c Q.
Proof. unfold wp, Unlock. by intros ->. Qed.

Lemma wp_mustBeLocked c (Q : unit → state → Prop) :
  m c = true → Q () c → wp mustBeLocked c Q.
Proof.
  intros Hm HQ. unfold wp, mustBeLocked, mbind, M_bind, TryLock.
  by rewrite Hm.
Qed.

Lemma wp_load a r c (Q : record → state → Prop) :
  heap c !! a = Some r → Q r c → wp (load a) c Q.
Proof. unfold wp, load. by intros ->. Qed.

Lemma wp_deref a r c (Q : loc * record → state → Prop) :
  heap c !! a = Some r → Q (a, r) c → wp (deref (Some a)) c Q.
Proof.
  intros Ha HQ. simpl. apply wp_bind. eapply wp_load; [done|]. by apply wp_ret.
Qed.

Lemma wp_store a r c (Q : unit → state → Prop) :
  Q () (set_heap (<[a:=r]> (heap c)) c) → wp (store a r) c Q.
Proof. done. Qed.

Lemma wp_alloc r c (Q : loc → state → Prop) :
  (∀ a, heap c !! a = None → Q a (set_heap (<[a:=r]> (heap c)) c)) →
  wp (alloc r) c Q.
Proof.
  intros HQ. unfold wp, alloc. apply HQ.
  apply not_elem_of_dom, is_fresh.
Qed.

Lemma wp_data_load (i : nat) p c (Q : option loc → state → Prop) :
  data c !! i = Some p → Q p c → wp (data_load (Z.of_nat i)) c Q.
Proof.
  intros Hi HQ. unfold wp, data_load.
  rewrite bool_decide_true by lia. by rewrite Nat2Z.id, Hi.
Qed.

Lemma wp_data_store (i : nat) p c (Q : unit → state → Prop) :
  (i < length (data c))%nat →
  Q () (set_data (<[i:=p]> (data c)) c) →
  wp (data_store (Z.of_nat i) p) c Q.
Proof.
  intros Hi HQ. unfold wp, data_store.
  rewrite bool_decide_true by lia. by rewrite Nat2Z.id.
Qed.

Lemma wp_MoveToFront el c (Q : unit → state → Prop) :
  Q () (set_lru (list_MoveToFront el (lru c)) c) →
  wp (MoveToFront (Some el)) c Q.
Proof. done. Qed.

Lemma wp_Remove el c (Q : unit → state → Prop) :
  Q () (set_lru (list_Remove el (lru c)) c) → wp (Remove (Some el)) c Q.
Proof. done. Qed.

Lemma wp_PushFront a c (Q : elem → state → Prop) :
  (∀ el, el ∉ eid <$> lru c → Q el (set_lru (mkElement el a :: lru c) c)) →
  wp (PushFront a) c Q.
Proof.
  intros HQ. unfold wp, PushFront, list_PushFront. apply HQ.
  apply infinite_is_fresh.
Qed.

Lemma wp_Back_Value x c (Q : loc → state → Prop) :
  last (lru c) = Some x → Q (Value x) c → wp Back_Value c Q.
Proof. unfold wp, Back_Value. by intros ->. Qed.

Lemma wp_AfterFunc ttl (i : Z) k c (Q : timer_id → state → Prop) :
  Q (length (timers c))
    (set_timers (timers c ++ [mkTimer (now c + ttl) i k Armed]) c) →
  wp (AfterFunc ttl i k) c Q.
Proof. done. Qed.

Lemma wp_Stop tid c (Q : unit → state → Prop) :
  (tid < length (timers c))%nat →
  Q () (set_timers (alter stop_timer tid (timers c)) c) →
  wp (Stop tid) c Q.
Proof.
  intros Hlt HQ. unfold wp, Stop.
  destruct (lookup_lt_is_Some_2 _ _ Hlt) as [tm Htm]. rewrite Htm.
  assert (alter stop_timer tid (timers c) = <[tid:=stop_timer tm]> (timers c))
    as <-; [|done].
  apply list_eq. intros j. destruct (decide (j = tid)) as [->|].
  - rewrite list_lookup_alter_eq, list_lookup_insert_eq, Htm by done. done.
  - by rewrite list_lookup_alter_ne, list_lookup_insert_ne.
Qed.

(** ** Chains on the heap *)

Lemma seg_app h p l1 l2 q :
  seg h p (l1 ++ l2) q ↔ ∃ mid, seg h p l1 mid ∧ seg h mid l2 q.
Proof.
  revert p. induction l1 as [|a l1 IH]; intros p; simpl.
  - split; [intros H; by exists p|by intros (? & -> & ?)].
  - split.
    + intros (-> & r & Hr & Hs). apply IH in Hs as (mid & ? & ?). eauto 10.
    + intros (mid & (-> & r & Hr & Hs) & ?). split; [done|].
      exists r. split; [done|]. apply IH. eauto.
Qed.

(** A segment only depends on the [below] fields of its own records. *)
Lemma seg_ext h h' p l q :
  (∀ a, a ∈ l → below <$> h' !! a = below <$> h !! a) →
  seg h p l q → seg h' p l q.
Proof.
  revert p. induction l as [|a l IH]; intros p Hag; simpl; [done|].
  intros (-> & r & Hr & Hs). split; [done|].
  pose proof (Hag a ltac:(left)) as Ha. rewrite Hr in Ha. simpl in Ha.
  destruct (h' !! a) as [r'|] eqn:Hr'; [|done]. injection Ha as Ha.
  exists r'. split; [done|]. rewrite Ha. apply IH; [|done].
  intros b Hb. apply Hag. by right.
Qed.

Lemma seg_frame h p l q a r :
  a ∉ l → seg h p l q → seg (<[a:=r]> h) p l q.
Proof.
  intros Ha. apply seg_ext. intros b Hb.
  rewrite lookup_insert_ne; [done|]. by intros ->.
Qed.

Lemma seg_is_Some h p l q a : seg h p l q → a ∈ l → is_Some (h !! a).
Proof.
  revert p. induction l as [|b l IH]; intros p; simpl.
  - by intros _ ?%elem_of_nil.
  - intros (-> & r & Hr & Hs) [->|Hin]%elem_of_cons; eauto.
Qed.

Lemma chain_det h p l1 l2 : chain h p l1 → chain h p l2 → l1 = l2.
Proof.
  unfold chain. revert p l2. induction l1 as [|a l1 IH]; intros p [|b l2]; simpl.
  - done.
  - by intros -> (? & _).
  - by intros (-> & _) ?.
  - intros (-> & r & Hr & Hs) ([= <-] & r' & Hr' & Hs').
    rewrite Hr in Hr'. injection Hr' as <-. f_equal. eauto.
Qed.

Lemma chain_length h p l :
  chain h p l → NoDup l → (length l ≤ base.size h)%nat.
Proof.
  intros Hc Hnd. rewrite <-length_map_to_list, <-(length_fmap fst).
  apply submseteq_length, NoDup_submseteq; [done|].
  intros a Ha. destruct (seg_is_Some _ _ _ _ _ Hc Ha) as [r Hr].
  apply list_elem_of_fmap. exists (a, r). split; [done|].
  by apply elem_of_map_to_list.
Qed.

Lemma chain_walk fuel h p l :
  chain h p l → (length l < fuel)%nat → walk fuel h p = l.
Proof.
  unfold chain. revert p l.
  induction fuel as [|fuel IH]; intros p l Hc Hlen; [lia|].
  destruct l as [|a l]; simpl in *.
  - by rewrite Hc.
  - destruct Hc as (-> & r & Hr & Hs). rewrite Hr. f_equal.
    apply IH; [done|lia].
Qed.

(** The loop of [lookup] on a chain: it stops at the first record with the
    key, with the record before it, or at the end of the chain. *)
Lemma lookup_loop_spec fuel k p ab l c :
  chain (heap c) p l → (length l < fuel)%nat →
  (∃ l1 a l2 r, l = l1 ++ a :: l2 ∧ heap c !! a = Some r ∧ key r = k
      ∧ nokey (heap c) k l1
      ∧ lookup_loop fuel k p ab c = Ok (Some a, last_or ab l1) c)
  ∨ (nokey (heap c) k l
      ∧ lookup_loop fuel k p ab c = Ok (None, last_or ab l) c).
Proof.
  unfold chain. revert p ab l.
  induction fuel as [|fuel IH]; intros p ab l Hc Hlen; [lia|].
  destruct l as [|a l]; simpl in Hc.
  - right. subst p. split; [|done]. by intros b rb ?%elem_of_nil.
  - destruct Hc as (-> & r & Hr & Hs). simpl.
    unfold mbind, M_bind, load. rewrite Hr.
    destruct (decide (key r = k)) as [Hk|Hk].
    + left. exists [], a, l, r. repeat split; try done.
      by intros b rb ?%elem_of_nil.
    + destruct (IH (below r) (Some a) l Hs ltac:(simpl in Hlen; lia))
        as [(l1 & a' & l2 & r' & -> & Hr' & Hk' & Hno & Heq)|[Hno Heq]].
      * left. exists (a :: l1), a', l2, r'. repeat split; try done.
        -- intros b rb [->|Hb]%elem_of_cons Hrb; [congruence|eauto].
        -- rewrite Heq. do 2 f_equal. unfold last_or. rewrite last_cons.
           by destruct (last l1).
      * right. split.
        -- intros b rb [->|Hb]%elem_of_cons Hrb; [congruence|eauto].
        -- rewrite Heq. do 2 f_equal. unfold last_or. rewrite last_cons.
           by destruct (last l).
Qed.

Lemma last_or_None l : last_or None l = last l.
Proof. unfold last_or. by destruct (last l). Qed.

Lemma wp_lookup (i : nat) k p l c
    (Q : option loc * option loc * option loc → state → Prop) :
  m c = true → data c !! i = Some p → chain (heap c) p l → NoDup l →
  (∀ l1 a l2 r, l = l1 ++ a :: l2 → heap c !! a = Some r → key r = k →
     nokey (heap c) k l1 → Q (Some a, last l1, p) c) →
  (nokey (heap c) k l → Q (None, last l, p) c) →
  wp (lookup (Z.of_nat i) k) c Q.
Proof.
  intros Hm Hi Hc Hnd Hhit Hmiss. unfold lookup.
  apply wp_bind, wp_mustBeLocked; [done|].
  apply wp_bind. eapply wp_data_load; [done|].
  apply wp_bind, wp_gets. apply wp_bind.
  pose proof (chain_length _ _ _ Hc Hnd) as Hlen.
  destruct (lookup_loop_spec (S (base.size (heap c))) k p None l c Hc
              ltac:(lia))
    as [(l1 & a & l2 & r & -> & Hr & Hk & Hno & Heq)|[Hno Heq]];
    unfold wp at 1; rewrite Heq, last_or_None; apply wp_ret; eauto.
Qed.

(** The heap after "bring r to the top" on the chain [l1 ++ a :: l2]. *)
Lemma wp_bring_to_top (i : nat) a l1 l2 p r c (Q : unit → state → Prop) :
  data c !! i = Some p →
  chain (heap c) p (l1 ++ a :: l2) → NoDup (l1 ++ a :: l2) →
  heap c !! a = Some r →
  (∀ h', relinked (heap c) h' a l1 l2 p r →
     Q () (set_data (<[i:=Some a]> (data c)) (set_heap h' c))) →
  wp (bring_to_top (Z.of_nat i) a (last l1) p) c Q.
Proof.
  intros Hi Hc Hnd Hr HQ. unfold bring_to_top.
  destruct l1 as [|b l1 _] using rev_ind.
  - (* r is the root *)
    destruct Hc as (-> & r' & Hr' & Hs). rewrite decide_True by done.
    apply wp_ret.
    replace c with (set_data (<[i:=Some a]> (data c)) (set_heap (heap c) c))
      at 1.
    2:{ destruct c; unfold set_data, set_heap; simpl in *; f_equal.
        by apply list_insert_id. }
    apply HQ. repeat split; try done.
    exists r'. done.
  - (* r is below [b], the last record of [l1] *)
    rewrite last_snoc. rewrite <-app_assoc in Hc, Hnd. simpl in Hc, Hnd.
    apply seg_app in Hc as (mid & Hs1 & Hs2).
    destruct Hs2 as (-> & rb & Hrb & _ & r' & Hr' & Hs2).
    rewrite Hr in Hr'. injection Hr' as <-.
    apply NoDup_app in Hnd as (Hnd1 & Hnd12 & Hnd2).
    apply NoDup_cons in Hnd2 as (Hb2 & Hnd2).
    apply NoDup_cons in Hnd2 as (Ha2 & Hnd2).
    assert (a ≠ b) as Hab by (intros ->; apply Hb2; left).
    assert (Some a ≠ p) as Hne.
    { intros <-. destruct l1 as [|b' l1]; simpl in Hs1.
      - congruence.
      - destruct Hs1 as ([= <-] & _). apply (Hnd12 a); [left|by right;left]. }
    rewrite decide_False by done.
    apply wp_bind. eapply wp_load; [done|].
    apply wp_bind. eapply wp_deref; [done|].
    apply wp_bind, wp_store. apply wp_bind.
    eapply wp_load; [by simpl; rewrite lookup_insert_ne|].
    apply wp_bind, wp_store.
    apply wp_data_store; [by eapply lookup_lt_Some|]. simpl.
    set (h' := <[a:=set_below p r]> (<[b:=set_below (below r) rb]> (heap c))).
    assert (∀ l q, a ∉ l → b ∉ l → ∀ p0, seg (heap c) p0 l q → seg h' p0 l q)
      as Hfr.
    { intros l q Hal Hbl p0 Hs. by do 2 (apply seg_frame; [done|]). }
    apply (HQ h'). repeat split.
    + exists (set_below p r). split; [by unfold h'; rewrite lookup_insert_eq|].
      simpl. rewrite <-app_assoc. apply seg_app. exists (Some b). split.
      * apply Hfr; [| |done].
        -- intros Hin. apply (Hnd12 a Hin). right; left.
        -- intros Hin. apply (Hnd12 b Hin). left.
      * simpl. split; [done|]. exists (set_below (below r) rb). split.
        -- unfold h'. by rewrite lookup_insert_ne, lookup_insert_eq.
        -- simpl. apply Hfr; [done| |done]. intros Hin. apply Hb2. by right.
    + intros b' Hb'. unfold h'.
      rewrite !lookup_insert_ne; [done| |].
      * intros ->. apply Hb'. rewrite <-app_assoc. apply elem_of_app.
        right. left.
      * intros ->. apply Hb'. rewrite <-app_assoc. apply elem_of_app.
        right. right. left.
    + intros b'. unfold h'.
      destruct (decide (b' = a)) as [->|];
        [by rewrite lookup_insert_eq, Hr|rewrite lookup_insert_ne by done].
      destruct (decide (b' = b)) as [->|];
        [by rewrite lookup_insert_eq, Hrb|by rewrite lookup_insert_ne].
    + unfold h'. by rewrite lookup_insert_eq.
    + exists b, rb. rewrite last_snoc. repeat split; try done.
      unfold h'. by rewrite lookup_insert_ne, lookup_insert_eq.
Qed.

(** ** The recency list *)

Lemma filter_eid_unique (l : list Element) x :
  NoDup (eid <$> l) → x ∈ l → filter (λ y, eid y = eid x) l = [x].
Proof.
  induction l as [|y l IH]; simpl; [by intros _ ?%elem_of_nil|].
  intros [Hy Hnd]%NoDup_cons [->|Hx]%elem_of_cons.
  - rewrite filter_cons_True by done. f_equal.
    apply elem_of_nil_inv. intros z [Hz Hzl]%list_elem_of_filter.
    apply Hy. rewrite <-Hz. by apply list_elem_of_fmap_2.
  - rewrite filter_cons_False; [by apply IH|].
    intros Heq. apply Hy. rewrite Heq. by apply list_elem_of_fmap_2.
Qed.

Lemma list_MoveToFront_elem (l : list Element) x :
  NoDup (eid <$> l) → x ∈ l →
  list_MoveToFront (eid x) l = x :: filter (λ y, eid y ≠ eid x) l.
Proof.
  intros Hnd Hx. unfold list_MoveToFront. by rewrite filter_eid_unique.
Qed.

Lemma filter_eid_perm (l : list Element) x :
  NoDup (eid <$> l) → x ∈ l → x :: filter (λ y, eid y ≠ eid x) l ≡ₚ l.
Proof.
  intros Hnd Hx.
  rewrite <-(filter_app_complement (λ y, eid y = eid x) l) at 2.
  by rewrite filter_eid_unique.
Qed.

Lemma eid_inj (l : list Element) x y :
  NoDup (eid <$> l) → x ∈ l → y ∈ l → eid x = eid y → x = y.
Proof.
  intros Hnd Hx Hy Heq.
  assert (y ∈ filter (λ z, eid z = eid x) l) as Hin
    by (by apply list_elem_of_filter).
  rewrite filter_eid_unique in Hin by done.
  by apply list_elem_of_singleton in Hin.
Qed.

Lemma Value_inj (l : list Element) x y :
  NoDup (Value <$> l) → x ∈ l → y ∈ l → Value x = Value y → x = y.
Proof.
  induction l as [|z l IH]; simpl; [by intros _ ?%elem_of_nil|].
  intros [Hz Hnd]%NoDup_cons [->|Hx]%elem_of_cons [->|Hy]%elem_of_cons Heq.
  - done.
  - exfalso. apply Hz. rewrite Heq. by apply list_elem_of_fmap_2.
  - exfalso. apply Hz. rewrite <-Heq. by apply list_elem_of_fmap_2.
  - by apply IH.
Qed.

Lemma omap_filter {A B} (f : A → option B) (P : A → Prop) (P' : B → Prop)
    `{∀ x, Decision (P x)} `{∀ z, Decision (P' z)} (l : list A) :
  (∀ y z, y ∈ l → f y = Some z → (P y ↔ P' z)) →
  omap f (filter P l) = filter P' (omap f l).
Proof.
  induction l as [|y l IH]; intros Hiff; [done|].
  assert (omap f (filter P l) = filter P' (omap f l)) as IH'.
  { apply IH. intros ????. apply Hiff; [by right|done]. }
  rewrite filter_cons. simpl. destruct (f y) as [z|] eqn:Hfy.
  - pose proof (Hiff y z ltac:(left) Hfy) as Hyz.
    rewrite filter_cons.
    destruct (decide (P y)), (decide (P' z)); try tauto; simpl;
      rewrite ?Hfy; unfold omap in IH'; by rewrite IH'.
  - destruct (decide (P y)); simpl; by rewrite ?Hfy.
Qed.

(** ** The invariant *)

Lemma hash_of_range sd k : 0 ≤ hash_of mh sd k < MaxCacheSize.
Proof. unfold hash_of, MaxCacheSize. apply Z.mod_pos_bound. lia. Qed.

Lemma same_payload_lookup h h' b r :
  same_payload h h' → h !! b = Some r →
  ∃ r', h' !! b = Some r' ∧ set_below None r' = set_below None r.
Proof.
  intros Hsp Hr. specialize (Hsp b). rewrite Hr in Hsp.
  destruct (h' !! b) as [r'|]; [|done]. simpl in Hsp.
  exists r'. split; [done|]. congruence.
Qed.

Lemma same_payload_sym h h' : same_payload h h' → same_payload h' h.
Proof. intros Hsp b. by rewrite Hsp. Qed.

Lemma same_payload_keys h h' :
  same_payload h h' → ∀ b, key <$> h' !! b = key <$> h !! b.
Proof.
  intros Hsp b. specialize (Hsp b).
  destruct (h' !! b) as [r'|], (h !! b) as [r|]; try done.
  simpl in *. f_equal.
  assert (set_below None r' = set_below None r) as Heq by congruence.
  by apply (f_equal key) in Heq.
Qed.

Lemma in_bucket_ext c c' (j : nat) b :
  seed c' = seed c → (∀ x, x ∈ live c' ↔ x ∈ live c) →
  (∀ b, key <$> heap c' !! b = key <$> heap c !! b) →
  in_bucket mh c' j b ↔ in_bucket mh c j b.
Proof.
  intros Hseed Hlive Hkeys.
  assert (∀ c1 c2, seed c2 = seed c1 → (∀ x, x ∈ live c2 ↔ x ∈ live c1) →
    (∀ b, key <$> heap c2 !! b = key <$> heap c1 !! b) →
    in_bucket mh c1 j b → in_bucket mh c2 j b) as Himp.
  { intros c1 c2 Hs Hl Hk (r & Hin & Hr & Hh).
    specialize (Hk b). rewrite Hr in Hk.
    destruct (heap c2 !! b) as [r'|] eqn:Hr'; [|done].
    injection Hk as Hk. exists r'. rewrite Hl, Hs, Hk. done. }
  split; apply Himp; try done. all: by symmetry.
Qed.

Lemma in_bucket_inj c (i j : nat) b :
  in_bucket mh c i b → in_bucket mh c j b → i = j.
Proof.
  intros (r & _ & Hr & Hh) (r' & _ & Hr' & Hh').
  rewrite Hr in Hr'. injection Hr' as <-. lia.
Qed.

Lemma Inv_set_m (mx : bool) c : Inv mh c → Inv mh (set_m mx c).
Proof. by intros []. Qed.

(** After "bring r to the top" and [MoveToFront]. *)
Lemma Inv_touch c (i : nat) p a l1 l2 r h' x :
  Inv mh c → data c !! i = Some p →
  chain (heap c) p (l1 ++ a :: l2) → NoDup (l1 ++ a :: l2) →
  (∀ b, b ∈ l1 ++ a :: l2 ↔ in_bucket mh c i b) →
  heap c !! a = Some r → relinked (heap c) h' a l1 l2 p r →
  x ∈ lru c →
  Inv mh (set_lru (x :: filter (λ y, eid y ≠ eid x) (lru c))
            (set_data (<[i:=Some a]> (data c)) (set_heap h' c))).
Proof.
  intros HI Hi Hc Hnd Hmem Hr (Hc' & Hout & Hsp & _) Hx.
  set (c' := set_lru _ _).
  pose proof (filter_eid_perm _ _ (inv_eid _ _ HI) Hx) as Hperm.
  assert (lru c' ≡ₚ lru c) as Hlru by done. clear Hperm.
  assert (∀ y, y ∈ lru c' ↔ y ∈ lru c) as Hin.
  { intros y. by rewrite Hlru. }
  assert (∀ b, b ∈ live c' ↔ b ∈ live c) as Hlive.
  { intros b. unfold live. by rewrite Hlru. }
  assert (∀ j b, in_bucket mh c' j b ↔ in_bucket mh c j b) as Hib.
  { intros j b. apply in_bucket_ext; [done|done|].
    by apply same_payload_keys. }
  split.
  - simpl. rewrite length_insert. apply HI.
  - unfold live. rewrite Hlru. apply HI.
  - rewrite Hlru. apply HI.
  - intros y Hy%Hin. destruct (inv_e _ _ HI y Hy) as (ry & Hry & He & Ht).
    destruct (same_payload_lookup _ _ _ _ Hsp Hry) as (ry' & Hry' & Heq).
    exists ry'. simpl. split; [done|].
    apply (f_equal e) in Heq as He'. apply (f_equal t) in Heq as Ht'.
    simpl in He', Ht'. by rewrite He', Ht'.
  - intros a0 b0 ra rb Ha0%Hlive Hb0%Hlive Hra Hrb Hk. simpl in Hra, Hrb.
    destruct (same_payload_lookup _ _ _ _ (same_payload_sym _ _ Hsp) Hra)
      as (ra' & Hra' & Heqa).
    destruct (same_payload_lookup _ _ _ _ (same_payload_sym _ _ Hsp) Hrb)
      as (rb' & Hrb' & Heqb).
    apply (inv_keys _ _ HI a0 b0 ra' rb'); try done.
    apply (f_equal key) in Heqa, Heqb. simpl in Heqa, Heqb. congruence.
  - intros j pj Hj. simpl in Hj. destruct (decide (j = i)) as [->|Hne].
    + rewrite list_lookup_insert_eq in Hj by (by eapply lookup_lt_Some).
      injection Hj as <-. exists (a :: l1 ++ l2). split; [done|]. split.
      * by rewrite Permutation_middle.
      * intros b. rewrite Hib, <-Hmem. by rewrite Permutation_middle.
    + rewrite list_lookup_insert_ne in Hj by done.
      destruct (inv_bucket _ _ HI j pj Hj) as (lj & Hcj & Hndj & Hmemj).
      exists lj. split; [|split; [done|]].
      * eapply seg_ext; [|exact Hcj]. intros b Hb. simpl. f_equal.
        apply Hout. intros Hbi%Hmem. apply Hmemj in Hb.
        apply Hne. by eapply in_bucket_inj.
      * intros b. by rewrite Hib.
  - rewrite Hlru. apply HI.
  - apply HI.
  - apply HI.
Qed.

Lemma Inv_bucket_hash c k :
  Inv mh c →
  ∃ (i : nat) p l,
    hash_of mh (seed c) k = Z.of_nat i ∧ data c !! i = Some p
    ∧ chain (heap c) p l ∧ NoDup l ∧ (∀ a, a ∈ l ↔ in_bucket mh c i a).
Proof.
  intros HI. pose proof (hash_of_range (seed c) k) as Hrange.
  set (i := Z.to_nat (hash_of mh (seed c) k)).
  assert (i < length (data c))%nat as Hlt.
  { rewrite (inv_len _ _ HI). unfold i. lia. }
  destruct (lookup_lt_is_Some_2 _ _ Hlt) as [p Hp].
  destruct (inv_bucket _ _ HI i p Hp) as (l & ? & ? & ?).
  exists i, p, l. repeat split; try done; try apply H1. unfold i. lia.
Qed.

(** [Get]: a miss changes nothing; a hit brings the record to the top of
    its chain and to the front of the recency list. *)
Lemma Get_spec c k :
  Inv mh c → m c = false →
  ∃ (i : nat) p l,
    hash_of mh (seed c) k = Z.of_nat i ∧ data c !! i = Some p
    ∧ chain (heap c) p l
    ∧ ((nokey (heap c) k l ∧ Get zero mh k c = Ok (zero, false) c)
       ∨ (∃ l1 a l2 r x h',
            l = l1 ++ a :: l2 ∧ heap c !! a = Some r ∧ key r = k
            ∧ nokey (heap c) k l1
            ∧ x ∈ lru c ∧ Value x = a ∧ relinked (heap c) h' a l1 l2 p r
            ∧ Get zero mh k c =
                Ok (val r, true)
                   (set_lru (x :: filter (λ y, eid y ≠ eid x) (lru c))
                      (set_data (<[i:=Some a]> (data c)) (set_heap h' c))))).
Proof.
  intros HI Hm.
  destruct (Inv_bucket_hash c k HI) as (i & p & l & Hh & Hi & Hc & Hnd & Hmem).
  exists i, p, l. split; [done|]. split; [done|]. split; [done|].
  cut (wp (Get zero mh k) c (λ res c',
    (nokey (heap c) k l ∧ res = (zero, false) ∧ c' = c)
    ∨ (∃ l1 a l2 r x h',
         l = l1 ++ a :: l2 ∧ heap c !! a = Some r ∧ key r = k
         ∧ nokey (heap c) k l1
         ∧ x ∈ lru c ∧ Value x = a ∧ relinked (heap c) h' a l1 l2 p r
         ∧ res = (val r, true)
         ∧ c' = set_lru (x :: filter (λ y, eid y ≠ eid x) (lru c))
                  (set_data (<[i:=Some a]> (data c)) (set_heap h' c))))).
  { intros (res & c' & Heq & [(? & -> & ->)|Hhit])%wp_ok; [by left|right].
    destruct Hhit as (l1 & a & l2 & r & x & h' & ? & ? & ? & ? & ? & ? & ?
                      & -> & ->).
    exists l1, a, l2, r, x, h'. done. }
  unfold Get. apply wp_bind, wp_gets. rewrite Hh.
  apply wp_bind, wp_Lock; [done|].
  apply wp_bind. eapply wp_lookup; [done|done|done|done|..].
  - (* hit *)
    intros l1 a l2 r -> Hr Hk Hno. simpl in Hr, Hno.
    assert (∃ x, x ∈ lru c ∧ Value x = a) as (x & Hx & HVx).
    { destruct (proj1 (Hmem a)) as (? & Hin & _).
      - apply elem_of_app. right. left.
      - apply list_elem_of_fmap in Hin as (x0 & -> & ?). eauto. }
    destruct (inv_e _ _ HI x Hx) as (r' & Hr' & He & _).
    rewrite HVx, Hr in Hr'. injection Hr' as <-.
    cbn beta iota. apply wp_bind. apply wp_bind.
    eapply wp_bring_to_top; [done|done|done|done|].
    intros h' Hrel. simpl.
    pose proof Hrel as (Hc' & Hout & Hsp & Hbelow).
    destruct (same_payload_lookup _ _ _ _ Hsp Hr) as (r2 & Hr2 & Heq).
    apply wp_bind. eapply wp_load; [done|].
    apply (f_equal e) in Heq as He2. apply (f_equal val) in Heq as Hv2.
    simpl in He2, Hv2. rewrite He2, He.
    apply wp_bind, wp_MoveToFront.
    apply wp_bind. eapply wp_load; [done|].
    apply wp_ret. apply wp_bind, wp_Unlock; [done|]. apply wp_ret.
    right. exists l1, a, l2, r, x, h'. rewrite Hv2.
    split_and!; try done.
    simpl. rewrite list_MoveToFront_elem by (done || apply HI).
    destruct c; simpl in *; by subst.
  - (* miss *)
    intros Hno. cbn beta iota. apply wp_bind, wp_ret.
    apply wp_bind, wp_Unlock; [done|]. apply wp_ret. left.
    split_and!; try done. destruct c; simpl in *; by subst.
Qed.

Lemma Inv_set_timers ts c :
  Inv mh c → (length (timers c) ≤ length ts)%nat →
  (∀ tm, tm ∈ ts → 0 ≤ cb_idx tm < MaxCacheSize) →
  Inv mh (set_timers ts c).
Proof.
  intros HI Hlen Hcb. split; try apply HI; [|done].
  intros x Hx. destruct (inv_e _ _ HI x Hx) as (r & ? & ? & ?).
  exists r. simpl. split_and!; try done. lia.
Qed.

Lemma Inv_set_now n c : Inv mh c → Inv mh (set_now n c).
Proof. by intros []. Qed.

Lemma elem_of_alter_timer (f : Timer → Timer) tid (ts : list Timer) tm :
  tm ∈ alter f tid ts → ∃ tm0, tm0 ∈ ts ∧ (tm = tm0 ∨ tm = f tm0).
Proof.
  intros (j & Hj)%list_elem_of_lookup.
  destruct (decide (j = tid)) as [->|Hne].
  - rewrite list_lookup_alter_eq in Hj.
    destruct (ts !! tid) as [tm0|] eqn:Htm0; [|done]. injection Hj as <-.
    exists tm0. split; [by eapply list_elem_of_lookup_2|by right].
  - rewrite list_lookup_alter_ne in Hj by done.
    exists tm. split; [by eapply list_elem_of_lookup_2|by left].
Qed.

Lemma Inv_Stop tid c :
  Inv mh c → Inv mh (set_timers (alter stop_timer tid (timers c)) c).
Proof.
  intros HI. apply Inv_set_timers; [done|by rewrite length_alter|].
  intros tm (tm0 & Htm0 & [->| ->])%elem_of_alter_timer.
  - by apply HI.
  - unfold stop_timer. destruct (decide _); simpl; by apply HI.
Qed.

Lemma Inv_AfterFunc tm c :
  Inv mh c → 0 ≤ cb_idx tm < MaxCacheSize →
  Inv mh (set_timers (timers c ++ [tm]) c).
Proof.
  intros HI Htm. apply Inv_set_timers; [done|rewrite length_app; lia|].
  intros tm' [?| ->%list_elem_of_singleton]%elem_of_app; [by apply HI|done].
Qed.

(** Writing fields other than [key], [below] and [e]. *)
Lemma Inv_set_heap h' c :
  Inv mh c →
  (∀ b, (λ r, (key r, below r, e r)) <$> h' !! b
        = (λ r, (key r, below r, e r)) <$> heap c !! b) →
  (∀ b r', b ∈ live c → h' !! b = Some r' → (t r' < length (timers c))%nat) →
  Inv mh (set_heap h' c).
Proof.
  intros HI Hsame Ht.
  assert (∀ b r, heap c !! b = Some r →
    ∃ r', h' !! b = Some r' ∧ key r' = key r ∧ below r' = below r
          ∧ e r' = e r) as Hfw.
  { intros b r Hr. specialize (Hsame b). rewrite Hr in Hsame.
    destruct (h' !! b) as [r'|]; [|done]. simpl in Hsame.
    exists r'. split; [done|]. by simplify_eq. }
  assert (∀ b r', h' !! b = Some r' →
    ∃ r, heap c !! b = Some r ∧ key r' = key r ∧ below r' = below r
         ∧ e r' = e r) as Hbw.
  { intros b r' Hr'. specialize (Hsame b). rewrite Hr' in Hsame.
    destruct (heap c !! b) as [r|]; [|done]. simpl in Hsame.
    exists r. split; [done|]. by simplify_eq. }
  assert (∀ b, key <$> h' !! b = key <$> heap c !! b) as Hkeys.
  { intros b. specialize (Hsame b).
    destruct (h' !! b), (heap c !! b); simpl in *; try done.
    simplify_eq. congruence. }
  assert (∀ j b, in_bucket mh (set_heap h' c) j b ↔ in_bucket mh c j b) as Hib.
  { intros j b. by apply in_bucket_ext. }
  split; try apply HI.
  - intros x Hx. destruct (inv_e _ _ HI x Hx) as (r & Hr & He & _).
    destruct (Hfw _ _ Hr) as (r' & Hr' & _ & _ & He').
    exists r'. simpl. split_and!; [done|congruence|].
    eapply Ht; [|done]. by apply list_elem_of_fmap_2.
  - intros a0 b0 ra rb Ha0 Hb0 Hra Hrb Hk.
    destruct (Hbw _ _ Hra) as (ra' & Hra' & Hka & _).
    destruct (Hbw _ _ Hrb) as (rb' & Hrb' & Hkb & _).
    apply (inv_keys _ _ HI a0 b0 ra' rb'); try done. congruence.
  - intros j pj Hj.
    destruct (inv_bucket _ _ HI j pj Hj) as (lj & Hcj & Hndj & Hmemj).
    exists lj. split_and!; [|done|].
    + eapply seg_ext; [|exact Hcj]. intros b _. specialize (Hsame b).
      simpl. destruct (h' !! b), (heap c !! b); simpl in *; try done.
      simplify_eq. congruence.
    + intros b. by rewrite Hib.
Qed.

(** After the unlinking done by [delete]. *)
Lemma Inv_unlink c (i : nat) p p' a l1 l2 r h' x :
  Inv mh c → data c !! i = Some p →
  NoDup (l1 ++ a :: l2) →
  (∀ b, b ∈ l1 ++ a :: l2 ↔ in_bucket mh c i b) →
  unlinked (heap c) h' a l1 l2 p p' r →
  x ∈ lru c → Value x = a →
  Inv mh (set_size (uint64 (size c - 1))
            (set_lru (filter (λ y, eid y ≠ eid x) (lru c))
               (set_data (<[i:=p']> (data c)) (set_heap h' c)))).
Proof.
  intros HI Hi Hnd Hmem (Hc' & Hout & Hsp & _) Hx HVx.
  set (c' := set_size _ _).
  pose proof (filter_eid_perm _ _ (inv_eid _ _ HI) Hx) as Hperm.
  assert (x :: lru c' ≡ₚ lru c) as Hlru by done. clear Hperm.
  assert (a :: live c' ≡ₚ live c) as Hlv.
  { unfold live. rewrite <-Hlru, fmap_cons. by rewrite HVx. }
  pose proof (inv_live _ _ HI) as Hndl. rewrite <-Hlv in Hndl.
  apply NoDup_cons in Hndl as [Ha Hndl].
  assert (∀ b, b ∈ live c' ↔ b ∈ live c ∧ b ≠ a) as Hlive.
  { intros b. rewrite <-Hlv, elem_of_cons. split; [|by intros [[?|?] ?]].
    intros Hb. split; [by right|]. by intros ->. }
  assert (∀ j b, in_bucket mh c' j b ↔ in_bucket mh c j b ∧ b ≠ a) as Hib.
  { intros j b. pose proof (same_payload_keys _ _ Hsp b) as Hk. split.
    - intros (rb & [Hin Hne]%Hlive & Hrb & Hh). split; [|done].
      simpl in Hrb. rewrite Hrb in Hk.
      destruct (heap c !! b) as [rb'|] eqn:Hrb'; [|done].
      injection Hk as Hk. exists rb'. by rewrite <-Hk.
    - intros [(rb & Hin & Hrb & Hh) Hne]. rewrite Hrb in Hk.
      destruct (h' !! b) as [rb'|] eqn:Hrb'; [|done].
      injection Hk as Hk. exists rb'. rewrite Hlive, Hk. done. }
  assert (length (lru c) = S (length (lru c'))) as Hlen
    by (by rewrite <-Hlru).
  pose proof (inv_size _ _ HI) as Hsz. pose proof (inv_cap _ _ HI) as Hcap.
  assert (size c' = Z.of_nat (length (lru c'))) as Hsz'.
  { change (size c') with (uint64 (size c - 1)). unfold uint64.
    unfold MaxCacheSize in Hcap. rewrite Z.mod_small; lia. }
  split.
  - simpl. rewrite length_insert. apply HI.
  - done.
  - pose proof (inv_eid _ _ HI) as Hnde. rewrite <-Hlru, fmap_cons in Hnde.
    by apply NoDup_cons in Hnde as [_ ?].
  - intros y Hy.
    assert (y ∈ lru c) as Hy' by (rewrite <-Hlru; by right).
    destruct (inv_e _ _ HI y Hy') as (ry & Hry & He & Ht).
    destruct (same_payload_lookup _ _ _ _ Hsp Hry) as (ry' & Hry' & Heq).
    exists ry'. split; [done|].
    apply (f_equal e) in Heq as He'. apply (f_equal t) in Heq as Ht'.
    simpl in He', Ht'. by rewrite He', Ht'.
  - intros a0 b0 ra rb [Ha0 _]%Hlive [Hb0 _]%Hlive Hra Hrb Hk.
    simpl in Hra, Hrb.
    destruct (same_payload_lookup _ _ _ _ (same_payload_sym _ _ Hsp) Hra)
      as (ra' & Hra' & Heqa).
    destruct (same_payload_lookup _ _ _ _ (same_payload_sym _ _ Hsp) Hrb)
      as (rb' & Hrb' & Heqb).
    apply (inv_keys _ _ HI a0 b0 ra' rb'); try done.
    apply (f_equal key) in Heqa, Heqb. simpl in Heqa, Heqb. congruence.
  - intros j pj Hj. simpl in Hj. destruct (decide (j = i)) as [->|Hne].
    + rewrite list_lookup_insert_eq in Hj by (by eapply lookup_lt_Some).
      injection Hj as <-. exists (l1 ++ l2). split; [done|].
      apply NoDup_app in Hnd as (Hnd1 & Hnd12 & [Ha2 Hnd2]%NoDup_cons).
      split.
      * apply NoDup_app. split_and!; [done| |done].
        intros b Hb1 Hb2. apply (Hnd12 b Hb1). by right.
      * intros b. rewrite Hib, <-Hmem, !elem_of_app, elem_of_cons.
        split; [|intros [[?|[?|?]] ?]; by eauto].
        intros [Hb|Hb]; (split; [eauto|]).
        -- intros ->. apply (Hnd12 a Hb). left.
        -- by intros ->.
    + rewrite list_lookup_insert_ne in Hj by done.
      destruct (inv_bucket _ _ HI j pj Hj) as (lj & Hcj & Hndj & Hmemj).
      assert (∀ b, b ∈ lj → b ∉ l1 ++ a :: l2) as Hdisj.
      { intros b Hb Hbi%Hmem. apply Hmemj in Hb.
        apply Hne. by eapply in_bucket_inj. }
      exists lj. split; [|split; [done|]].
      * eapply seg_ext; [|exact Hcj]. intros b Hb. simpl. f_equal.
        by apply Hout, Hdisj.
      * intros b. rewrite Hib, <-Hmemj. split; [|by intros [? _]].
        intros Hb. split; [done|]. intros ->.
        apply (Hdisj a Hb). apply elem_of_app. right. left.
  - done.
  - rewrite Hsz'. rewrite Hsz, Hlen in Hcap. lia.
  - apply HI.
Qed.

(** [delete]: nothing happens when the key is not in the chain; otherwise
    the record is unlinked and removed from the recency list. *)
Lemma delete_spec c (i : nat) k p l :
  Inv mh c → m c = true → data c !! i = Some p →
  chain (heap c) p l → NoDup l → (∀ b, b ∈ l ↔ in_bucket mh c i b) →
  (nokey (heap c) k l ∧ delete (Z.of_nat i) k c = Ok () c)
  ∨ (∃ l1 a l2 r x h' p',
       l = l1 ++ a :: l2 ∧ heap c !! a = Some r ∧ key r = k
       ∧ nokey (heap c) k l1 ∧ x ∈ lru c ∧ Value x = a
       ∧ unlinked (heap c) h' a l1 l2 p p' r
       ∧ delete (Z.of_nat i) k c = Ok () (deleted c i x r h' p')).
Proof.
  intros HI Hm Hi Hc Hnd Hmem.
  cut (wp (delete (Z.of_nat i) k) c (λ _ c',
    (nokey (heap c) k l ∧ c' = c)
    ∨ (∃ l1 a l2 r x h' p',
         l = l1 ++ a :: l2 ∧ heap c !! a = Some r ∧ key r = k
         ∧ nokey (heap c) k l1 ∧ x ∈ lru c ∧ Value x = a
         ∧ unlinked (heap c) h' a l1 l2 p p' r
         ∧ c' = deleted c i x r h' p'))).
  { intros ([] & c' & Heq & [(? & ->)|Hhit])%wp_ok; [by left|right].
    destruct Hhit as (l1 & a & l2 & r & x & h' & p' & ? & ? & ? & ? & ? & ?
                      & ? & ->).
    exists l1, a, l2, r, x, h', p'. done. }
  unfold delete. apply wp_bind, wp_mustBeLocked; [done|].
  apply wp_bind. eapply wp_lookup; [done|done|done|done|..].
  2:{ intros Hno. cbn beta iota. apply wp_ret. by left. }
  intros l1 a l2 r -> Hr Hk Hno.
  assert (∃ x, x ∈ lru c ∧ Value x = a) as (x & Hx & HVx).
  { destruct (proj1 (Hmem a)) as (? & Hin & _).
    - apply elem_of_app. right. left.
    - apply list_elem_of_fmap in Hin as (x0 & -> & ?). eauto. }
  destruct (inv_e _ _ HI x Hx) as (r' & Hr' & He & Ht).
  rewrite HVx, Hr in Hr'. injection Hr' as <-.
  cbn beta iota. apply wp_bind. eapply wp_load; [done|].
  apply wp_bind, wp_Stop; [done|]. apply wp_bind.
  destruct l1 as [|b l1 _] using rev_ind.
  - (* the record is the head of the chain *)
    destruct Hc as (-> & r' & Hr' & Hs). rewrite Hr in Hr'.
    injection Hr' as <-. rewrite decide_True by done.
    apply wp_bind. eapply wp_load; [done|].
    apply wp_data_store; [by eapply lookup_lt_Some|].
    apply wp_bind. eapply wp_load; [done|]. rewrite He.
    apply wp_bind, wp_Remove. apply wp_modify.
    right. exists [], a, l2, r, x, (heap c), (below r).
    split_and!; done.
  - (* the record is below [b], the last record of [l1] *)
    rewrite <-app_assoc in Hc, Hnd. simpl in Hc, Hnd.
    apply seg_app in Hc as (mid & Hs1 & Hs2).
    destruct Hs2 as (-> & rb & Hrb & _ & r' & Hr' & Hs2).
    rewrite Hr in Hr'. injection Hr' as <-.
    apply NoDup_app in Hnd as (Hnd1 & Hnd12 & Hnd2).
    apply NoDup_cons in Hnd2 as (Hb2 & Hnd2).
    apply NoDup_cons in Hnd2 as (Ha2 & Hnd2).
    assert (a ≠ b) as Hab by (intros ->; apply Hb2; left).
    assert (Some a ≠ p) as Hne.
    { intros <-. destruct l1 as [|b' l1]; simpl in Hs1.
      - congruence.
      - destruct Hs1 as ([= <-] & _). apply (Hnd12 a); [left|by right;left]. }
    rewrite decide_False by done. rewrite last_snoc.
    apply wp_bind. eapply wp_load; [done|].
    apply wp_bind. eapply wp_deref; [done|].
    apply wp_store.
    apply wp_bind. eapply wp_load; [by simpl; rewrite lookup_insert_ne|].
    rewrite He. apply wp_bind, wp_Remove. apply wp_modify.
    set (h' := <[b:=set_below (below r) rb]> (heap c)).
    right. exists (l1 ++ [b]), a, l2, r, x, h', p.
    split_and!; try done.
    + unfold unlinked. split_and!.
      * rewrite <-app_assoc. apply seg_app. exists (Some b). split.
        -- apply seg_frame; [|done]. intros Hin. apply (Hnd12 b Hin). left.
        -- simpl. split; [done|]. exists (set_below (below r) rb).
           split; [by unfold h'; rewrite lookup_insert_eq|].
           simpl. apply seg_frame; [|done]. intros Hin. apply Hb2. by right.
      * intros b' Hb'. unfold h'. rewrite lookup_insert_ne; [done|].
        intros ->. apply Hb'. rewrite <-app_assoc. apply elem_of_app.
        right. left.
      * intros b'. unfold h'. destruct (decide (b' = b)) as [->|].
        -- by rewrite lookup_insert_eq, Hrb.
        -- by rewrite lookup_insert_ne.
      * by intros [_ [=]]%app_eq_nil.
      * intros _. split; [done|]. exists b, rb. by rewrite last_snoc.
    + unfold deleted. rewrite (list_insert_id (data c)) by done.
      by destruct c.
Qed.

Lemma Inv_deleted c (i : nat) p p' a l1 l2 r h' x :
  Inv mh c → data c !! i = Some p →
  NoDup (l1 ++ a :: l2) →
  (∀ b, b ∈ l1 ++ a :: l2 ↔ in_bucket mh c i b) →
  unlinked (heap c) h' a l1 l2 p p' r →
  x ∈ lru c → Value x = a →
  Inv mh (deleted c i x r h' p').
Proof.
  intros HI Hi Hnd Hmem Hun Hx HVx.
  apply (Inv_unlink (set_timers (alter stop_timer (t r) (timers c)) c)
           i p p' a l1 l2 r h' x); try done.
  by apply Inv_Stop.
Qed.

(** After the [default] case of [Set]. *)
Lemma Inv_inserted c (i : nat) p k v a el tm :
  Inv mh c → (length (lru c) < Z.to_nat MaxCacheSize)%nat →
  hash_of mh (seed c) k = Z.of_nat i → data c !! i = Some p →
  (∀ b rb, b ∈ live c → heap c !! b = Some rb → key rb ≠ k) →
  heap c !! a = None → el ∉ eid <$> lru c →
  0 ≤ cb_idx tm < MaxCacheSize →
  Inv mh (inserted c i a el
            (mkRecord k v p (length (timers c)) (Some el)) tm).
Proof.
  intros HI Hlt Hh Hi Hfresh Ha Hel Htm.
  set (r := mkRecord _ _ _ _ _). set (c' := inserted _ _ _ _ _ _).
  assert (live c' = a :: live c) as Hlv by done.
  assert (∀ b, b ∈ live c → is_Some (heap c !! b)) as Hdom.
  { intros b (y & -> & Hy)%list_elem_of_fmap.
    destruct (inv_e _ _ HI y Hy) as (ry & Hry & _). eauto. }
  assert (a ∉ live c) as Hal.
  { intros [? Hs]%Hdom. by rewrite Ha in Hs. }
  assert (∀ b, b ≠ a → heap c' !! b = heap c !! b) as Hne.
  { intros b Hb. simpl. by rewrite lookup_insert_ne. }
  assert (heap c' !! a = Some r) as Hr by (simpl; by rewrite lookup_insert_eq).
  assert (∀ j b, b ≠ a → in_bucket mh c' j b ↔ in_bucket mh c j b) as Hib.
  { intros j b Hb. split; intros (rb & Hin & Hrb & Hj); exists rb.
    - rewrite Hlv in Hin. apply elem_of_cons in Hin as [?|?]; [done|].
      rewrite Hne in Hrb by done. done.
    - rewrite Hlv, Hne by done. split_and!; [by right|done|done]. }
  assert (∀ j, in_bucket mh c' j a ↔ j = i) as Hia.
  { intros j. unfold in_bucket. rewrite Hr. split.
    - intros (r' & _ & [= <-] & Hj). simpl in Hj. lia.
    - intros ->. exists r. rewrite Hlv. split_and!; [left|done|done]. }
  pose proof (inv_size _ _ HI) as Hsz. pose proof (inv_cap _ _ HI) as Hcap.
  assert (size c' = Z.of_nat (length (lru c'))) as Hsz'.
  { change (size c') with (uint64 (size c + 1)).
    change (lru c') with (mkElement el a :: lru c). unfold uint64.
    unfold MaxCacheSize in Hcap. rewrite Z.mod_small; simpl length; lia. }
  split.
  - simpl. rewrite length_insert. apply HI.
  - rewrite Hlv. apply NoDup_cons. split; [done|apply HI].
  - change (lru c') with (mkElement el a :: lru c). rewrite fmap_cons.
    apply NoDup_cons. split; [done|apply HI].
  - change (lru c') with (mkElement el a :: lru c).
    change (timers c') with (timers c ++ [tm]). rewrite length_app.
    intros y [->|Hy]%elem_of_cons.
    + exists r. simpl. split_and!; [by rewrite lookup_insert_eq|done|lia].
    + destruct (inv_e _ _ HI y Hy) as (ry & Hry & He & Ht).
      exists ry. rewrite Hne; [split_and!; [done|done|lia]|].
      intros Heq. apply Hal. rewrite <-Heq. by apply list_elem_of_fmap_2.
  - rewrite Hlv. intros a0 b0 ra rb Ha0 Hb0 Hra Hrb Hk.
    destruct (decide (a0 = a)) as [->|Hna], (decide (b0 = a)) as [->|Hnb];
      [done|..].
    + rewrite Hr in Hra. injection Hra as <-. rewrite Hne in Hrb by done.
      apply elem_of_cons in Hb0 as [?|Hb0]; [done|].
      by destruct (Hfresh b0 rb Hb0 Hrb).
    + rewrite Hr in Hrb. injection Hrb as <-. rewrite Hne in Hra by done.
      apply elem_of_cons in Ha0 as [?|Ha0]; [done|].
      by destruct (Hfresh a0 ra Ha0 Hra).
    + rewrite Hne in Hra, Hrb by done.
      apply elem_of_cons in Ha0 as [?|Ha0]; [done|].
      apply elem_of_cons in Hb0 as [?|Hb0]; [done|].
      by apply (inv_keys _ _ HI a0 b0 ra rb).
  - intros j pj Hj. change (data c') with (<[i:=Some a]> (data c)) in Hj.
    destruct (decide (j = i)) as [->|Hji].
    + rewrite list_lookup_insert_eq in Hj by (by eapply lookup_lt_Some).
      injection Hj as <-.
      destruct (inv_bucket _ _ HI i p Hi) as (l & Hc & Hnd & Hmem).
      assert (a ∉ l) as Hanl.
      { intros (? & ? & _)%Hmem. done. }
      exists (a :: l). split_and!.
      * split; [done|]. exists r. split; [done|]. simpl.
        by apply seg_frame.
      * by apply NoDup_cons.
      * intros b. rewrite elem_of_cons. destruct (decide (b = a)) as [->|Hb].
        -- rewrite Hia. split; [done|by left].
        -- rewrite Hib, Hmem by done. split; [by intros [?|?]|by right].
    + rewrite list_lookup_insert_ne in Hj by done.
      destruct (inv_bucket _ _ HI j pj Hj) as (l & Hc & Hnd & Hmem).
      assert (a ∉ l) as Hanl.
      { intros (? & ? & _)%Hmem. done. }
      exists l. split_and!; [by apply seg_frame|done|].
      intros b. destruct (decide (b = a)) as [->|Hb].
      * rewrite Hia. split; [done|]. by intros ->.
      * by rewrite Hib, Hmem.
  - done.
  - rewrite Hsz'. change (lru c') with (mkElement el a :: lru c).
    unfold MaxCacheSize in *. simpl length. lia.
  - change (timers c') with (timers c ++ [tm]).
    intros tm' [?| ->%list_elem_of_singleton]%elem_of_app; [by apply HI|done].
Qed.

Lemma wp_Set_default (i : nat) k v ttl p c (Q : unit → state → Prop) :
  (i < length (data c))%nat →
  (∀ a el, heap c !! a = None → el ∉ eid <$> lru c →
     Q () (inserted c i a el
             (mkRecord k v p (length (timers c)) (Some el))
             (mkTimer (now c + ttl) (Z.of_nat i) k Armed))) →
  wp (Set_default (Z.of_nat i) k v ttl p) c Q.
Proof.
  intros Hi HQ. unfold Set_default.
  apply wp_bind, wp_AfterFunc. apply wp_bind, wp_alloc. intros a Ha.
  apply wp_bind, wp_PushFront. intros el Hel.
  apply wp_bind. eapply wp_load; [by simpl; rewrite lookup_insert_eq|].
  apply wp_bind, wp_store. apply wp_bind, wp_data_store; [done|].
  apply wp_modify. simpl. rewrite insert_insert_eq.
  specialize (HQ a el Ha Hel). by destruct c.
Qed.

Lemma nokey_live c k (i : nat) l :
  Inv mh c → hash_of mh (seed c) k = Z.of_nat i →
  (∀ b, b ∈ l ↔ in_bucket mh c i b) → nokey (heap c) k l →
  ∀ b rb, b ∈ live c → heap c !! b = Some rb → key rb ≠ k.
Proof.
  intros HI Hh Hmem Hno b rb Hb Hrb Hk. apply (Hno b rb); [|done..].
  apply Hmem. exists rb. by rewrite Hk.
Qed.

Lemma chain_head_nil h p a l2 : chain h p ([] ++ a :: l2) → Some a = p.
Proof. by intros (-> & _). Qed.

Lemma chain_head_cons h p a l1 l2 :
  chain h p (l1 ++ a :: l2) → NoDup (l1 ++ a :: l2) → l1 ≠ [] → Some a ≠ p.
Proof.
  intros Hc Hnd Hl1 <-. destruct l1 as [|b l1]; [done|].
  destruct Hc as ([= <-] & _). simpl in Hnd.
  apply NoDup_cons in Hnd as [Hnd _]. apply Hnd, elem_of_app. right. left.
Qed.

Lemma Inv_refreshed c a r v tm :
  Inv mh c → a ∈ live c → heap c !! a = Some r →
  0 ≤ cb_idx tm < MaxCacheSize →
  Inv mh (refreshed c a r v tm).
Proof.
  intros HI Ha Hr Htm. unfold refreshed.
  apply (Inv_set_heap _ (set_timers _ c)).
  - apply (Inv_AfterFunc tm (set_timers _ c)); [|done]. by apply Inv_Stop.
  - intros b. simpl. destruct (decide (b = a)) as [->|].
    + by rewrite lookup_insert_eq, Hr.
    + by rewrite lookup_insert_ne.
  - intros b r' Hb. simpl. rewrite length_app, length_alter. simpl.
    destruct (decide (b = a)) as [->|].
    + rewrite lookup_insert_eq. intros [= <-]. simpl. lia.
    + rewrite lookup_insert_ne by done. intros Hr'.
      apply list_elem_of_fmap in Hb as (y & -> & Hy).
      destruct (inv_e _ _ HI y Hy) as (ry & Hry & _ & Ht).
      rewrite Hr' in Hry. injection Hry as <-. lia.
Qed.

Lemma in_bucket_refreshed c a r v tm (j : nat) b :
  heap c !! a = Some r →
  in_bucket mh (refreshed c a r v tm) j b ↔ in_bucket mh c j b.
Proof.
  intros Hr. apply in_bucket_ext; [done|done|].
  intros b'. simpl. destruct (decide (b' = a)) as [->|].
  - by rewrite lookup_insert_eq, Hr.
  - by rewrite lookup_insert_ne.
Qed.

(** [Set] always returns, in one of three ways. *)
Lemma Set_spec c k v ttl :
  Inv mh c → m c = false →
  ∃ (i : nat) p l,
    hash_of mh (seed c) k = Z.of_nat i ∧ data c !! i = Some p
    ∧ chain (heap c) p l
    ∧ ∃ c', Set_ mh k v ttl c = Ok () c' ∧ Set_post mh c k v ttl i p l c'.
Proof.
  intros HI Hm.
  destruct (Inv_bucket_hash c k HI) as (i & p & l & Hh & Hi & Hc & Hnd & Hmem).
  exists i, p, l. split; [done|]. split; [done|]. split; [done|].
  cut (wp (Set_ mh k v ttl) c (λ _ c', Set_post mh c k v ttl i p l c')).
  { intros ([] & c' & Heq & Hpost)%wp_ok. eauto. }
  assert (i < length (data c))%nat as Hilt by (by eapply lookup_lt_Some).
  unfold Set_. apply wp_bind, wp_gets. rewrite Hh.
  apply wp_bind, wp_Lock; [done|].
  apply wp_bind.
  eapply wp_lookup; [done|done|done|done|..].
  - (* reset *)
    intros l1 a l2 r -> Hr Hk Hno. simpl in Hr, Hno.
    assert (a ∈ live c) as Hal.
    { destruct (proj1 (Hmem a)) as (? & Hin & _); [|done].
      apply elem_of_app. right. left. }
    assert (∃ x, x ∈ lru c ∧ Value x = a) as (x & Hx & HVx).
    { apply list_elem_of_fmap in Hal as (x0 & -> & ?). eauto. }
    destruct (inv_e _ _ HI x Hx) as (r' & Hr' & He & Ht).
    rewrite HVx, Hr in Hr'. injection Hr' as <-.
    cbn beta iota. apply wp_bind.
    apply wp_bind. eapply wp_load; [done|].
    apply wp_bind, wp_Stop; [done|].
    apply wp_bind. eapply wp_load; [done|].
    apply wp_bind, wp_store.
    apply wp_bind, wp_AfterFunc.
    apply wp_bind. eapply wp_load; [by simpl; rewrite lookup_insert_eq|].
    apply wp_bind, wp_store. simpl. rewrite insert_insert_eq, length_alter.
    set (tm := mkTimer (now c + ttl) (Z.of_nat i) k Armed).
    set (r1 := set_t (length (timers c)) (set_val v r)).
    change (set_heap _ _) with (refreshed (set_m true c) a r v tm).
    assert (heap (refreshed (set_m true c) a r v tm) !! a = Some r1) as Hr1
      by (simpl; by rewrite lookup_insert_eq).
    apply wp_bind. eapply wp_bring_to_top; [done| |done|done|].
    { eapply seg_ext; [|exact Hc]. intros b _. simpl.
      destruct (decide (b = a)) as [->|].
      - by rewrite lookup_insert_eq, Hr.
      - by rewrite lookup_insert_ne. }
    intros h' Hrel. pose proof Hrel as (Hc' & Hout & Hsp & Hbelow).
    destruct (same_payload_lookup _ _ _ _ Hsp Hr1) as (r2 & Hr2 & Heq).
    apply wp_bind. eapply wp_load; [done|].
    apply (f_equal e) in Heq as He2. simpl in He2. rewrite He2, He.
    apply wp_MoveToFront. apply wp_Unlock; [done|].
    left. exists l1, a, l2, r, x, h'. split_and!; try done.
    simpl. rewrite list_MoveToFront_elem by (done || apply HI).
    destruct c; simpl in *; by subst.
  - (* the key is new *)
    intros Hno. simpl in Hno. cbn beta iota. apply wp_bind.
    apply wp_bind, wp_gets. simpl.
    destruct (decide (size c = MaxCacheSize)) as [Hfull|Hnot].
    2:{ (* set *)
      apply wp_Set_default; [done|]. intros a el Ha Hel.
      apply wp_Unlock; [done|]. right. left. split_and!; try done.
      exists a, el. split_and!; try done.
      destruct c; simpl in *; by subst. }
    (* evict and set *)
    pose proof (inv_size _ _ HI) as Hsz.
    destruct (last (lru c)) as [xv|] eqn:Hlast.
    2:{ apply last_None in Hlast. rewrite Hlast in Hsz. simpl in Hsz.
        unfold MaxCacheSize in Hfull. lia. }
    assert (xv ∈ lru c) as Hxv by (by apply last_Some_elem_of).
    destruct (inv_e _ _ HI xv Hxv) as (rv & Hrv & Hev & Htv).
    assert (Value xv ∈ live c) as Hlv by (by apply list_elem_of_fmap_2).
    destruct (Inv_bucket_hash c (key rv) HI)
      as (j & pj & lj & Hhj & Hj & Hcj & Hndj & Hmemj).
    assert (Value xv ∈ lj) as Hvj by (apply Hmemj; by exists rv).
    destruct (delete_spec (set_m true c) j (key rv) pj lj)
      as [[Hnov _]|(l1 & a' & l2 & r' & x' & hv & pv' & -> & Hr' & Hk' & _
                    & Hx' & HVx' & Hun & Hdel)];
      [by apply Inv_set_m|done..| |].
    { by destruct (Hnov _ _ Hvj Hrv). }
    simpl in Hr', Hx'.
    assert (a' = Value xv) as ->.
    { apply (inv_keys _ _ HI a' (Value xv) r' rv); try done.
      destruct (proj1 (Hmemj a')) as (? & ? & _); [|done].
      apply elem_of_app. right. left. }
    rewrite Hrv in Hr'. injection Hr' as <-.
    assert (x' = xv) as ->
      by (by apply (Value_inj _ _ _ (inv_live _ _ HI))).
    set (c1 := deleted (set_m true c) j xv rv hv pv') in *.
    assert (∃ p1, data c1 !! i = Some p1
              ∧ p1 = (if decide (Some (Value xv) = p) then below rv else p))
      as (p1 & Hp1 & Hp1eq).
    { destruct (decide (j = i)) as [->|Hji].
      - rewrite Hi in Hj. injection Hj as <-.
        exists pv'. split; [by apply list_lookup_insert_eq|].
        destruct Hun as (_ & _ & _ & Hnil & Hcons).
        destruct l1 as [|b l1].
        + rewrite decide_True by (by eapply chain_head_nil).
          by destruct Hnil.
        + rewrite decide_False by (by eapply chain_head_cons).
          by destruct Hcons.
      - exists p. split; [by simpl; rewrite list_lookup_insert_ne|].
        rewrite decide_False; [done|]. intros <-.
        destruct l as [|b l]; [done|]. destruct Hc as ([= <-] & _).
        apply Hji. apply (in_bucket_inj c j i (Value xv)).
        + by apply Hmemj.
        + apply Hmem. left. }
    apply wp_bind. eapply wp_Back_Value; [done|].
    apply wp_bind.
    apply (wp_mono _ _ (λ root c', root = p1 ∧ c' = set_m true c)).
    { destruct (decide (Some (Value xv) = p)) as [<-|].
      - apply wp_bind. eapply wp_deref; [done|]. by apply wp_ret.
      - by apply wp_ret. }
    intros ? ? [-> ->].
    apply wp_bind. eapply wp_load; [done|].
    apply wp_bind, wp_gets. simpl seed. rewrite Hhj.
    apply wp_bind. unfold wp at 1. rewrite Hdel.
    apply wp_Set_default; [by simpl; rewrite length_insert|].
    intros a el Ha Hel. apply wp_Unlock; [done|].
    right. right. split_and!; try done.
    exists xv, rv, j, pj, l1, l2, hv, pv', p1, a, el.
    split_and!; try done.
    destruct c; simpl in *; by subst.
Qed.

Lemma Inv_bucket_chain c (i : nat) p l :
  Inv mh c → data c !! i = Some p → chain (heap c) p l →
  NoDup l ∧ ∀ b, b ∈ l ↔ in_bucket mh c i b.
Proof.
  intros HI Hi Hc. destruct (inv_bucket _ _ HI i p Hi) as (l0 & Hc0 & ? & ?).
  by rewrite (chain_det _ _ _ _ Hc Hc0).
Qed.

Lemma hash_idx_range c k (i : nat) :
  hash_of mh (seed c) k = Z.of_nat i → 0 ≤ Z.of_nat i < MaxCacheSize.
Proof. intros <-. apply hash_of_range. Qed.

Lemma Inv_touched c (i : nat) p a l1 l2 r h' x :
  Inv mh c → data c !! i = Some p → chain (heap c) p (l1 ++ a :: l2) →
  heap c !! a = Some r → relinked (heap c) h' a l1 l2 p r → x ∈ lru c →
  Inv mh (touched c i a x h').
Proof.
  intros HI Hi Hc Hr Hrel Hx.
  destruct (Inv_bucket_chain c i p _ HI Hi Hc) as [Hnd Hmem].
  by eapply Inv_touch.
Qed.

Lemma Set_post_Inv c k v ttl (i : nat) p l c' :
  Inv mh c → hash_of mh (seed c) k = Z.of_nat i → data c !! i = Some p →
  chain (heap c) p l → Set_post mh c k v ttl i p l c' →
  Inv mh c' ∧ m c' = m c ∧ seed c' = seed c ∧ now c' = now c.
Proof.
  intros HI Hh Hi Hc Hpost.
  destruct (Inv_bucket_chain c i p l HI Hi Hc) as [Hnd Hmem].
  pose proof (hash_idx_range c k i Hh) as Hrange.
  destruct Hpost as [(l1 & a & l2 & r & x & h' & -> & Hr & Hk & Hno & Hx & HVx
                      & Hrel & ->)
                    |[(Hno & Hsz & a & el & Ha & Hel & ->)
                     |(Hno & Hsz & xv & rv & j & pj & l1 & l2 & hv & pv' & p1
                       & a & el & Hlast & Hrv & Hhj & Hj & Hcj & Hun & Hp1
                       & Ha & Hel & ->)]].
  - split; [|done].
    assert (a ∈ live c) as Hal.
    { destruct (proj1 (Hmem a)) as (? & ? & _); [|done].
      apply elem_of_app. right. left. }
    eapply Inv_touch; try done.
    + by apply Inv_refreshed.
    + eapply seg_ext; [|exact Hc]. intros b _. simpl.
      destruct (decide (b = a)) as [->|].
      * by rewrite lookup_insert_eq, Hr.
      * by rewrite lookup_insert_ne.
    + intros b. by rewrite in_bucket_refreshed, Hmem.
    + simpl. by rewrite lookup_insert_eq.
  - split; [|done]. apply Inv_inserted; try done.
    + pose proof (inv_size _ _ HI). pose proof (inv_cap _ _ HI).
      unfold MaxCacheSize in *. lia.
    + by eapply nokey_live.
  - split; [|done].
    assert (xv ∈ lru c) as Hxv by (by apply last_Some_elem_of).
    destruct (Inv_bucket_chain c j pj _ HI Hj Hcj) as [Hndj Hmemj].
    assert (Inv mh (deleted c j xv rv hv pv')) as HI1
      by (by eapply Inv_deleted).
    pose proof (filter_eid_perm _ _ (inv_eid _ _ HI) Hxv) as Hperm.
    apply Inv_inserted; try done.
    + pose proof (inv_size _ _ HI) as Hs. rewrite <-Hperm in Hs.
      simpl in *. unfold MaxCacheSize in *. lia.
    + intros b rb Hb Hrb.
      destruct Hun as (_ & _ & Hsp & _).
      destruct (same_payload_lookup _ _ _ _ (same_payload_sym _ _ Hsp) Hrb)
        as (rb' & Hrb' & Heq).
      apply (f_equal key) in Heq. simpl in Heq. rewrite <-Heq.
      eapply (nokey_live c k i l); try done.
      unfold live in *. rewrite <-Hperm, fmap_cons. by right.
Qed.

Lemma deleteWithLock_spec c (i : nat) k :
  Inv mh c → m c = false → (i < length (data c))%nat →
  ∃ p l, data c !! i = Some p ∧ chain (heap c) p l
    ∧ ((nokey (heap c) k l ∧ deleteWithLock (Z.of_nat i) k c = Ok () c)
       ∨ (∃ l1 a l2 r x h' p',
            l = l1 ++ a :: l2 ∧ heap c !! a = Some r ∧ key r = k
            ∧ nokey (heap c) k l1 ∧ x ∈ lru c ∧ Value x = a
            ∧ unlinked (heap c) h' a l1 l2 p p' r
            ∧ deleteWithLock (Z.of_nat i) k c
              = Ok () (deleted c i x r h' p'))).
Proof.
  intros HI Hm Hi. destruct (lookup_lt_is_Some_2 _ _ Hi) as [p Hp].
  destruct (inv_bucket _ _ HI i p Hp) as (l & Hc & Hnd & Hmem).
  exists p, l. split; [done|]. split; [done|].
  unfold deleteWithLock, mbind, M_bind, Lock. rewrite Hm.
  destruct (delete_spec (set_m true c) i k p l)
    as [[Hno ->]|(l1 & a & l2 & r & x & h' & p' & -> & Hr & Hk & Hno
                  & Hx & HVx & Hun & ->)];
    [by apply Inv_set_m|done..| |].
  - left. split; [done|]. destruct c; simpl in *; by subst.
  - right. exists l1, a, l2, r, x, h', p'. split_and!; try done.
    destruct c; simpl in *; by subst.
Qed.

Lemma deleteWithLock_Inv c idx k c' :
  Inv mh c → m c = false → deleteWithLock idx k c = Ok () c' →
  Inv mh c' ∧ m c' = false ∧ seed c' = seed c ∧ now c' = now c
  ∧ length (timers c') = length (timers c)
  ∧ ∀ tm, tm ∈ timers c' → 0 ≤ cb_idx tm < MaxCacheSize.
Proof.
  intros HI Hm Hdel.
  destruct (decide (0 ≤ idx < Z.of_nat (length (data c)))) as [Hidx|Hidx].
  - assert (∃ i : nat, idx = Z.of_nat i ∧ (i < length (data c))%nat)
      as (i & -> & Hi) by (exists (Z.to_nat idx); lia).
    destruct (deleteWithLock_spec c i k HI Hm Hi)
      as (p & l & Hp & Hc & [[Hno Heq]|(l1 & a & l2 & r & x & h' & p' & ->
          & Hr & Hk & Hno & Hx & HVx & Hun & Heq)]);
      rewrite Heq in Hdel; injection Hdel as <-.
    + split_and!; try done. apply HI.
    + destruct (Inv_bucket_chain c i p _ HI Hp Hc) as [Hnd Hmem].
      assert (Inv mh (deleted c i x r h' p')) as HI'
        by (by eapply Inv_deleted).
      split_and!; try done.
      * simpl. by rewrite length_alter.
      * apply HI'.
  - exfalso. revert Hdel.
    unfold deleteWithLock, delete, lookup, mustBeLocked, TryLock, Lock,
      data_load, mbind, M_bind, mret, M_ret.
    rewrite Hm. simpl. case_bool_decide; [|done].
    destruct (data c !! Z.to_nat idx) eqn:Hl; [|done].
    apply lookup_lt_Some in Hl. lia.
Qed.

Lemma Inv_NewCache sd : Inv mh (NewCache (V:=V) sd).
Proof.
  split; try done.
  - constructor.
  - constructor.
  - by intros x ?%elem_of_nil.
  - intros i p [-> _]%lookup_replicate. exists []. split_and!.
    + done.
    + constructor.
    + intros a. split; [by intros ?%elem_of_nil|].
      by intros (r & ?%elem_of_nil & _).
  - by intros tm ?%elem_of_nil.
Qed.

Lemma Get_Inv c k :
  Inv mh c → m c = false →
  ∃ res c', Get zero mh k c = Ok res c' ∧ Inv mh c' ∧ m c' = false
            ∧ seed c' = seed c ∧ now c' = now c ∧ timers c' = timers c
            ∧ size c' = size c.
Proof.
  intros HI Hm.
  destruct (Get_spec c k HI Hm)
    as (i & p & l & Hh & Hi & Hc & [[Hno Heq]|(l1 & a & l2 & r & x & h' & ->
        & Hr & Hk & Hno & Hx & HVx & Hrel & Heq)]); rewrite Heq.
  - by exists (zero, false), c.
  - eexists _, _. split; [done|]. split_and!; try done.
    by eapply Inv_touched.
Qed.

Lemma Set_Inv c k v ttl :
  Inv mh c → m c = false →
  ∃ c', Set_ mh k v ttl c = Ok () c' ∧ Inv mh c' ∧ m c' = false
        ∧ seed c' = seed c ∧ now c' = now c.
Proof.
  intros HI Hm.
  destruct (Set_spec c k v ttl HI Hm)
    as (i & p & l & Hh & Hi & Hc & c' & Heq & Hpost).
  destruct (Set_post_Inv _ _ _ _ _ _ _ _ HI Hh Hi Hc Hpost)
    as (? & ? & ? & ?).
  exists c'. split_and!; try done. congruence.
Qed.

Lemma step_Inv ev c c' :
  Inv mh c → m c = false → step zero mh ev c = Ok () c' →
  Inv mh c' ∧ m c' = false ∧ seed c' = seed c.
Proof.
  intros HI Hm Hstep. destruct ev as [k|k v ttl|idx k|d|tid|tid]; simpl in Hstep.
  - destruct (Get_Inv c k HI Hm) as (res & c1 & Heq & ? & ? & ? & _).
    unfold mbind, M_bind in Hstep. rewrite Heq in Hstep.
    injection Hstep as <-. done.
  - destruct (Set_Inv c k v ttl HI Hm) as (c1 & Heq & ? & ? & ? & _).
    rewrite Heq in Hstep. injection Hstep as <-. done.
  - destruct (deleteWithLock_Inv c idx k c' HI Hm Hstep) as (? & ? & ? & _).
    done.
  - unfold tick in Hstep. case_decide; [|done]. injection Hstep as <-.
    split_and!; try done. by apply Inv_set_now.
  - unfold expire in Hstep.
    destruct (timers c !! tid) as [tm|] eqn:Htm; [|done].
    case_decide; [|done]. injection Hstep as <-.
    split_and!; try done. apply Inv_set_timers; [done|by rewrite length_insert|].
    intros tm' (j & Hj)%list_elem_of_lookup.
    destruct (decide (j = tid)) as [->|Hne].
    + rewrite list_lookup_insert_eq in Hj by (by eapply lookup_lt_Some).
      injection Hj as <-. simpl. apply HI. by eapply list_elem_of_lookup_2.
    + rewrite list_lookup_insert_ne in Hj by done.
      apply HI. by eapply list_elem_of_lookup_2.
  - unfold run_func in Hstep.
    destruct (timers c !! tid) as [tm|] eqn:Htm; [|done].
    case_decide; [|done]. unfold mbind, M_bind in Hstep.
    destruct (deleteWithLock (cb_idx tm) (cb_key tm) c) as [[] c1| | |] eqn:Hd;
      try done.
    injection Hstep as <-.
    destruct (deleteWithLock_Inv c _ _ c1 HI Hm Hd)
      as (HI1 & ? & ? & ? & Hlen & Hcb).
    split_and!; try done.
    apply Inv_set_timers; [done|by rewrite length_alter|].
    intros tm' (tm0 & Htm0 & [->| ->])%elem_of_alter_timer; simpl;
      by apply Hcb.
Qed.

Lemma exec_Inv evs c c' :
  Inv mh c → m c = false → exec zero mh evs c = Ok () c' →
  Inv mh c' ∧ m c' = false ∧ seed c' = seed c.
Proof.
  revert c. induction evs as [|ev evs IH]; intros c HI Hm Hex; simpl in Hex.
  - injection Hex as <-. done.
  - unfold mbind, M_bind in Hex.
    destruct (step zero mh ev c) as [[] c1| | |] eqn:Hstep; try done.
    destruct (step_Inv ev c c1 HI Hm Hstep) as (HI1 & Hm1 & Hs1).
    destruct (IH c1 HI1 Hm1 Hex) as (? & ? & ?).
    split_and!; try done. congruence.
Qed.

Lemma reachable_Inv c : reachable zero mh c → Inv mh c ∧ m c = false.
Proof.
  intros (sd & evs & Hex).
  destruct (exec_Inv evs _ c (Inv_NewCache sd) eq_refl Hex) as (? & ? & _).
  done.
Qed.

(** ** What the recency list holds *)

Lemma elem_of_entries c k v :
  (k, v) ∈ entries c ↔
  ∃ x r, x ∈ lru c ∧ heap c !! Value x = Some r ∧ key r = k ∧ val r = v.
Proof.
  unfold entries. rewrite list_elem_of_omap. unfold entry_of. split.
  - intros (x & Hx & Hf).
    destruct (heap c !! Value x) as [r|] eqn:Hr; [|done].
    injection Hf as <- <-. by exists x, r.
  - intros (x & r & Hx & Hr & <- & <-). exists x. by rewrite Hr.
Qed.

Lemma elem_of_keys c k :
  k ∈ keys c ↔ ∃ x r, x ∈ lru c ∧ heap c !! Value x = Some r ∧ key r = k.
Proof.
  unfold keys. rewrite list_elem_of_fmap. split.
  - intros ([k' v] & -> & (x & r & ? & ? & ? & ?)%elem_of_entries). eauto.
  - intros (x & r & ? & ? & ?). exists (k, val r). split; [done|].
    apply elem_of_entries. eauto 10.
Qed.

Lemma entries_unique c k v v' :
  Inv mh c → (k, v) ∈ entries c → (k, v') ∈ entries c → v = v'.
Proof.
  intros HI (x & r & Hx & Hr & Hk & <-)%elem_of_entries
    (x' & r' & Hx' & Hr' & Hk' & <-)%elem_of_entries.
  assert (Value x = Value x') as Heq.
  { apply (inv_keys _ _ HI _ _ r r'); try done;
      try (by apply list_elem_of_fmap_2). congruence. }
  rewrite Heq in Hr. congruence.
Qed.

Lemma length_entries c : Inv mh c → length (entries c) = length (lru c).
Proof.
  intros HI. unfold entries.
  assert (∀ x, x ∈ lru c → is_Some (entry_of (heap c) x)) as Hs.
  { intros x Hx. destruct (inv_e _ _ HI x Hx) as (r & Hr & _).
    unfold entry_of. rewrite Hr. eauto. }
  induction (lru c) as [|x l IH]; [done|]. simpl.
  destruct (Hs x ltac:(left)) as [kv ->]. simpl. f_equal.
  apply IH. intros y Hy. apply Hs. by right.
Qed.

Lemma size_entries c : Inv mh c → size c = Z.of_nat (length (entries c)).
Proof. intros HI. rewrite length_entries by done. apply HI. Qed.

Lemma omap_entry_ext h h' (l : list Element) :
  (∀ y, y ∈ l → entry_of h' y = entry_of h y) →
  omap (entry_of h') l = omap (entry_of h) l.
Proof.
  induction l as [|y l IH]; intros Hext; [done|]. simpl.
  rewrite (Hext y) by left.
  assert (omap (entry_of h') l = omap (entry_of h) l) as IH'.
  { apply IH. intros z Hz. apply Hext. by right. }
  destruct (entry_of h y); [f_equal|]; exact IH'.
Qed.

Lemma same_payload_entry h h' y :
  same_payload h h' → entry_of h' y = entry_of h y.
Proof.
  intros Hsp. unfold entry_of. specialize (Hsp (Value y)).
  destruct (h' !! Value y) as [r'|], (h !! Value y) as [r|]; try done.
  simpl in *.
  assert (set_below None r' = set_below None r) as Heq by congruence.
  apply (f_equal key) in Heq as Hk. apply (f_equal val) in Heq as Hv.
  simpl in Hk, Hv. by rewrite Hk, Hv.
Qed.

(** The entries of the recency list without the element [x]. *)
Lemma entries_without c x r :
  Inv mh c → x ∈ lru c → heap c !! Value x = Some r →
  omap (entry_of (heap c)) (filter (λ y, eid y ≠ eid x) (lru c))
  = filter (λ kv, kv.1 ≠ key r) (entries c).
Proof.
  intros HI Hx Hr. apply omap_filter. intros y [ky vy] Hy Hf.
  unfold entry_of in Hf.
  destruct (heap c !! Value y) as [ry|] eqn:Hry; [|done].
  injection Hf as <- <-. simpl.
  assert (eid y = eid x ↔ key ry = key r) as Hiff; [|by rewrite Hiff].
  split.
  - intros Heq. apply (eid_inj _ _ _ (inv_eid _ _ HI) Hy Hx) in Heq as ->.
    congruence.
  - intros Heq. f_equal. apply (Value_inj _ _ _ (inv_live _ _ HI) Hy Hx).
    apply (inv_keys _ _ HI _ _ ry r); try done;
      by apply list_elem_of_fmap_2.
Qed.

Lemma omap_cons_Some {A B} (f : A → option B) (x : A) (l : list A) z :
  f x = Some z → omap f (x :: l) = z :: omap f l.
Proof. intros Hf. simpl. by rewrite Hf. Qed.

Lemma entries_touched c (i : nat) x r h' :
  Inv mh c → x ∈ lru c → heap c !! Value x = Some r → same_payload (heap c) h' →
  entries (touched c i (Value x) x h')
  = (key r, val r) :: filter (λ kv, kv.1 ≠ key r) (entries c).
Proof.
  intros HI Hx Hr Hsp.
  change (entries (touched c i (Value x) x h'))
    with (omap (entry_of h') (x :: filter (λ y, eid y ≠ eid x) (lru c))).
  rewrite (omap_cons_Some _ _ _ (key r, val r)).
  - f_equal. rewrite <-(entries_without c x r) by done.
    apply omap_entry_ext. intros y _. by apply same_payload_entry.
  - rewrite (same_payload_entry (heap c)) by done.
    unfold entry_of. by rewrite Hr.
Qed.

Lemma entries_deleted c (i : nat) x r h' p' :
  Inv mh c → x ∈ lru c → heap c !! Value x = Some r → same_payload (heap c) h' →
  entries (deleted c i x r h' p')
  = filter (λ kv, kv.1 ≠ key r) (entries c).
Proof.
  intros HI Hx Hr Hsp.
  change (entries (deleted c i x r h' p'))
    with (omap (entry_of h') (filter (λ y, eid y ≠ eid x) (lru c))).
  rewrite <-(entries_without c x r) by done.
  apply omap_entry_ext. intros y _. by apply same_payload_entry.
Qed.

Lemma entries_inserted c (i : nat) a el r tm :
  Inv mh c → heap c !! a = None →
  entries (inserted c i a el r tm) = (key r, val r) :: entries c.
Proof.
  intros HI Ha.
  change (entries (inserted c i a el r tm))
    with (omap (entry_of (<[a:=r]> (heap c))) (mkElement el a :: lru c)).
  rewrite (omap_cons_Some _ _ _ (key r, val r)).
  - f_equal. apply omap_entry_ext. intros y Hy. unfold entry_of.
    rewrite lookup_insert_ne; [done|]. intros ->.
    destruct (inv_e _ _ HI y Hy) as (ry & Hry & _). congruence.
  - unfold entry_of. simpl. by rewrite lookup_insert_eq.
Qed.

Lemma entries_touched_refreshed c (i : nat) x r v tm h' :
  Inv mh c → x ∈ lru c → heap c !! Value x = Some r →
  same_payload (heap (refreshed c (Value x) r v tm)) h' →
  entries (touched (refreshed c (Value x) r v tm) i (Value x) x h')
  = (key r, v) :: filter (λ kv, kv.1 ≠ key r) (entries c).
Proof.
  intros HI Hx Hr Hsp.
  change (entries (touched (refreshed c (Value x) r v tm) i (Value x) x h'))
    with (omap (entry_of h') (x :: filter (λ y, eid y ≠ eid x) (lru c))).
  rewrite (omap_cons_Some _ _ _ (key r, v)).
  - f_equal. rewrite <-(entries_without c x r) by done.
    apply omap_entry_ext. intros y [Hne Hy]%list_elem_of_filter.
    rewrite (same_payload_entry _ _ _ Hsp). unfold entry_of. simpl.
    rewrite lookup_insert_ne; [done|]. intros Heq. apply Hne. f_equal.
    by apply (Value_inj _ _ _ (inv_live _ _ HI)).
  - rewrite (same_payload_entry _ _ _ Hsp). unfold entry_of. simpl.
    by rewrite lookup_insert_eq.
Qed.

Lemma filter_last_eid (l : list Element) x :
  NoDup (eid <$> l) → last l = Some x →
  ∃ l0 : list Element, l = l0 ++ [x] ∧ filter (λ y, eid y ≠ eid x) l = l0.
Proof.
  intros Hnd (l0 & ->)%last_Some. exists l0. split; [done|].
  rewrite filter_app, filter_cons_False, filter_nil, app_nil_r by naive_solver.
  rewrite fmap_app in Hnd. apply NoDup_app in Hnd as (_ & Hdisj & _).
  clear -Hdisj. induction l0 as [|y l0 IH]; [done|].
  rewrite filter_cons_True.
  - f_equal. apply IH. intros z Hz. apply Hdisj. rewrite fmap_cons. by right.
  - intros Heq. apply (Hdisj (eid y)); [rewrite fmap_cons; left|].
    rewrite Heq. simpl. left.
Qed.

Lemma nokey_keys c k (i : nat) p l :
  Inv mh c → hash_of mh (seed c) k = Z.of_nat i → data c !! i = Some p →
  chain (heap c) p l → nokey (heap c) k l ↔ k ∉ keys c.
Proof.
  intros HI Hh Hi Hc.
  destruct (Inv_bucket_chain c i p l HI Hi Hc) as [Hnd Hmem]. split.
  - intros Hno (x & r & Hx & Hr & Hk)%elem_of_keys.
    eapply (nokey_live c k i l); try done. by apply list_elem_of_fmap_2.
  - intros Hk b rb Hb Hrb Hkb. apply Hk, elem_of_keys.
    destruct (proj1 (Hmem b) Hb) as (? & (x & -> & Hx)%list_elem_of_fmap & _).
    eauto.
Qed.

Lemma bucket_elem_lru c (i : nat) p l a :
  Inv mh c → data c !! i = Some p → chain (heap c) p l → a ∈ l →
  ∃ x, x ∈ lru c ∧ Value x = a.
Proof.
  intros HI Hi Hc Ha.
  destruct (Inv_bucket_chain c i p l HI Hi Hc) as [Hnd Hmem].
  destruct (proj1 (Hmem a) Ha) as (? & (x & -> & Hx)%list_elem_of_fmap & _).
  eauto.
Qed.

(** [Get] in terms of the entries of the recency list. *)
Lemma Get_abs c k :
  Inv mh c → m c = false →
  (∃ v c', (k, v) ∈ entries c ∧ Get zero mh k c = Ok (v, true) c'
      ∧ Inv mh c' ∧ m c' = false
      ∧ entries c' = (k, v) :: filter (λ kv, kv.1 ≠ k) (entries c)
      ∧ size c' = size c ∧ timers c' = timers c ∧ now c' = now c)
  ∨ ((k ∉ keys c) ∧ Get zero mh k c = Ok (zero, false) c).
Proof.
  intros HI Hm.
  destruct (Get_spec c k HI Hm)
    as (i & p & l & Hh & Hi & Hc & [[Hno Heq]|(l1 & a & l2 & r & x & h' & ->
        & Hr & Hk & Hno & Hx & HVx & Hrel & Heq)]).
  - right. split; [|done]. by eapply nokey_keys.
  - left. exists (val r), (touched c i a x h'). subst a k.
    pose proof Hrel as (_ & _ & Hsp & _).
    split_and!; try done.
    + apply elem_of_entries. by exists x, r.
    + by eapply Inv_touched.
    + by apply entries_touched.
Qed.

(** [Set] in terms of the entries of the recency list. *)
Lemma Set_abs c k v ttl :
  Inv mh c → m c = false →
  ∃ c', Set_ mh k v ttl c = Ok () c' ∧ Inv mh c' ∧ m c' = false
    ∧ ((k ∈ keys c
        ∧ entries c' = (k, v) :: filter (λ kv, kv.1 ≠ k) (entries c)
        ∧ size c' = size c)
       ∨ ((k ∉ keys c) ∧ size c ≠ MaxCacheSize
          ∧ entries c' = (k, v) :: entries c ∧ size c' = size c + 1)
       ∨ ((k ∉ keys c) ∧ size c = MaxCacheSize
          ∧ ∃ es kv, entries c = es ++ [kv]
                     ∧ entries c' = (k, v) :: es ∧ size c' = size c)).
Proof.
  intros HI Hm.
  destruct (Set_spec c k v ttl HI Hm)
    as (i & p & l & Hh & Hi & Hc & c' & Heq & Hpost).
  destruct (Set_post_Inv _ _ _ _ _ _ _ _ HI Hh Hi Hc Hpost)
    as (HI' & Hm' & _ & _).
  exists c'. split_and!; [done|done|congruence|].
  pose proof (nokey_keys c k i p l HI Hh Hi Hc) as Hnk.
  destruct Hpost as [(l1 & a & l2 & r & x & h' & -> & Hr & Hk & Hno & Hx & HVx
                      & Hrel & ->)
                    |[(Hno & Hsz & a & el & Ha & Hel & ->)
                     |(Hno & Hsz & xv & rv & j & pj & l1 & l2 & hv & pv' & p1
                       & a & el & Hlast & Hrv & Hhj & Hj & Hcj & Hun & Hp1
                       & Ha & Hel & ->)]].
  - left. subst a k. pose proof Hrel as (_ & _ & Hsp & _).
    split_and!; [|by apply entries_touched_refreshed|done].
    apply elem_of_keys. by exists x, r.
  - right. left. split_and!; [by apply Hnk|done|by apply entries_inserted|].
    pose proof (inv_size _ _ HI) as Hs. pose proof (inv_size _ _ HI') as Hs'.
    rewrite Hs, Hs'. simpl length. lia.
  - right. right. split_and!; [by apply Hnk|done|].
    assert (xv ∈ lru c) as Hxv by (by apply last_Some_elem_of).
    destruct (Inv_bucket_chain c j pj _ HI Hj Hcj) as [Hndj Hmemj].
    assert (Inv mh (deleted c j xv rv hv pv')) as HI1
      by (by eapply Inv_deleted).
    pose proof Hun as (_ & _ & Hsp & _).
    destruct (filter_last_eid _ _ (inv_eid _ _ HI) Hlast) as (l0 & Hl0 & Hfl).
    exists (omap (entry_of (heap c)) l0), (key rv, val rv). split_and!.
    + unfold entries. rewrite Hl0, omap_app. f_equal.
      rewrite (omap_cons_Some _ _ _ (key rv, val rv)); [done|].
      unfold entry_of. by rewrite Hrv.
    + rewrite entries_inserted by done. simpl. f_equal.
      change (entries (deleted c j xv rv hv pv'))
        with (omap (entry_of hv) (filter (λ y, eid y ≠ eid xv) (lru c))).
      rewrite Hfl. apply omap_entry_ext. intros y _.
      by apply same_payload_entry.
    + pose proof (inv_size _ _ HI) as Hs. pose proof (inv_size _ _ HI') as Hs'.
      rewrite Hs, Hs'.
      change (lru (inserted _ _ _ _ _ _))
        with (mkElement el a :: filter (λ y, eid y ≠ eid xv) (lru c)).
      rewrite Hfl, Hl0. rewrite length_app. simpl. lia.
Qed.

(** ** The claims *)

(** C4.  For every reachable cache state, every key [k], value [v] and
    [ttl > 0], [Set(k, v, ttl)] immediately followed by [Get(k)] returns
    [(v, true)]. *)
Theorem C4_set_then_get c k v ttl :
  reachable zero mh c → 0 < ttl →
  ∃ c' c'', Set_ mh k v ttl c = Ok () c'
            ∧ Get zero mh k c' = Ok (v, true) c''.
Proof.
  intros [HI Hm]%reachable_Inv _.
  destruct (Set_abs c k v ttl HI Hm) as (c' & Hset & HI' & Hm' & Hcases).
  assert ((k, v) ∈ entries c') as Hin.
  { destruct Hcases as [(_ & -> & _)|[(_ & _ & -> & _)
      |(_ & _ & es & kv & _ & -> & _)]]; left. }
  destruct (Get_abs c' k HI' Hm')
    as [(v' & c'' & Hin' & Hget & _)|[Hno _]].
  - exists c', c''. split; [done|].
    by rewrite (entries_unique c' k v v' HI' Hin Hin').
  - destruct Hno. apply list_elem_of_fmap. by exists (k, v).
Qed.

(** C5.  For every reachable cache state and every key not present in the
    cache, [Get] returns the zero value with [false] and the state after
    the call is the state before it. *)
Theorem C5_get_miss_no_effect c k :
  reachable zero mh c → k ∉ keys c →
  Get zero mh k c = Ok (zero, false) c.
Proof.
  intros [HI Hm]%reachable_Inv Hk.
  destruct (Get_abs c k HI Hm) as [(v & c' & Hin & _)|[_ Hget]]; [|done].
  destruct Hk. apply list_elem_of_fmap. by exists (k, v).
Qed.

Lemma Set_all_Inv ops c :
  Inv mh c → m c = false →
  ∃ c', Set_all zero mh ops c = Ok () c' ∧ Inv mh c' ∧ m c' = false.
Proof.
  revert c. induction ops as [|[[k v] ttl] ops IH]; intros c HI Hm.
  - by exists c.
  - destruct (Set_Inv c k v ttl HI Hm) as (c1 & Heq & HI1 & Hm1 & _).
    destruct (IH c1 HI1 Hm1) as (c' & Heq' & ? & ?).
    exists c'. split; [|done].
    unfold Set_all in *. simpl. unfold mbind, M_bind. by rewrite Heq.
Qed.

(** C2.  Starting from a fresh cache, after every sequence of [Set] calls
    the size is between 0 and [MaxCacheSize], and one more [Set] leaves the
    size unchanged when it refreshes an existing key, leaves it at
    [MaxCacheSize] when it evicts and inserts, and adds one otherwise, when
    it creates a record without evicting. *)
Theorem C2_capacity_invariant sd ops k v ttl :
  ∃ c c', Set_all zero mh ops (NewCache sd) = Ok () c
    ∧ Set_ mh k v ttl c = Ok () c'
    ∧ 0 ≤ size c ≤ MaxCacheSize ∧ 0 ≤ size c' ≤ MaxCacheSize
    ∧ size c' = (if decide (k ∈ keys c) then size c
                 else if decide (size c = MaxCacheSize) then MaxCacheSize
                 else size c + 1).
Proof.
  destruct (Set_all_Inv ops _ (Inv_NewCache sd) eq_refl)
    as (c & Hops & HI & Hm).
  destruct (Set_abs c k v ttl HI Hm) as (c' & Hset & HI' & Hm' & Hcases).
  exists c, c'. split_and!; try done.
  - rewrite (inv_size _ _ HI). lia.
  - apply HI.
  - rewrite (inv_size _ _ HI'). lia.
  - apply HI'.
  - destruct Hcases as [(Hk & _ & Hsz)|[(Hk & Hne & _ & Hsz)
      |(Hk & Heq & _ & _ & _ & _ & Hsz)]].
    + by rewrite decide_True.
    + by rewrite decide_False, decide_False.
    + rewrite decide_False, decide_True by done. congruence.
Qed.

(** ** The lock assertion *)

Lemma lock_safe_bind {A B} (x : M (V:=V) A) (f : A → M (V:=V) B) :
  lock_safe x → (∀ y, lock_safe (f y)) → lock_safe (x ≫= f).
Proof.
  intros Hx Hf c Hm. destruct (Hx c Hm) as [Hne Hok].
  unfold mbind, M_bind. destruct (x c) as [y c1|msg| |]; try done.
  - apply Hf. by eapply Hok.
  - split; [|done]. congruence.
Qed.

Lemma lock_safe_pure {A} (x : M (V:=V) A) :
  (∀ c, (∃ y, x c = Ok y c) ∨ (∃ msg, x c = Panic msg ∧ msg ≠ lock_panic)
        ∨ x c = Diverges) →
  lock_safe x.
Proof.
  intros Hx c Hm.
  destruct (Hx c) as [[a ->]|[(msg & -> & Hmsg)| ->]]; split; try done.
  - by intros ? ? [= _ <-].
  - congruence.
Qed.

Lemma lock_safe_ret {A} (y : A) : lock_safe (V:=V) (mret y).
Proof. apply lock_safe_pure. intros c. left. by exists y. Qed.

Lemma lock_safe_modify (f : state → state) :
  (∀ c, m (f c) = m c) → lock_safe (modify f).
Proof.
  intros Hf c Hm. split; [done|]. intros [] c' [= <-]. by rewrite Hf.
Qed.

Lemma lock_safe_load a : lock_safe (V:=V) (load a).
Proof.
  apply lock_safe_pure. intros c. unfold load.
  destruct (heap c !! a); [left; eauto|right; left]. by eexists.
Qed.

Lemma lock_safe_deref p : lock_safe (V:=V) (deref p).
Proof.
  destruct p as [a|]; simpl.
  - apply lock_safe_bind; [apply lock_safe_load|]. intros r.
    apply lock_safe_ret.
  - apply lock_safe_pure. intros c. right. left. by eexists.
Qed.

Lemma lock_safe_store a r : lock_safe (store a r).
Proof. by apply lock_safe_modify. Qed.

Lemma lock_safe_data_load (i : Z) : lock_safe (V:=V) (data_load i).
Proof.
  apply lock_safe_pure. intros c. unfold data_load.
  case_bool_decide; [|right; left; by eexists].
  destruct (data c !! Z.to_nat i); [left; eauto|right; left]. by eexists.
Qed.

Lemma lock_safe_data_store (i : Z) p : lock_safe (V:=V) (data_store i p).
Proof.
  intros c Hm. unfold data_store. case_bool_decide; [|done].
  split; [done|]. by intros [] c' [= <-].
Qed.

Lemma lock_safe_Stop tid : lock_safe (V:=V) (Stop tid).
Proof.
  intros c Hm. unfold Stop. destruct (timers c !! tid); [|done].
  split; [done|]. by intros [] c' [= <-].
Qed.

Lemma lock_safe_Remove pe : lock_safe (V:=V) (Remove pe).
Proof.
  destruct pe as [el|]; simpl; [by apply lock_safe_modify|].
  apply lock_safe_pure. intros c. right. left. by eexists.
Qed.

Lemma lock_safe_mustBeLocked : lock_safe (V:=V) mustBeLocked.
Proof.
  intros c Hm. unfold mustBeLocked, mbind, M_bind, TryLock. rewrite Hm.
  split; [done|]. by intros [] c' [= <-].
Qed.

Lemma lock_safe_lookup_loop fuel k p q :
  lock_safe (V:=V) (lookup_loop fuel k p q).
Proof.
  revert p q. induction fuel as [|fuel IH]; intros p q; simpl.
  - apply lock_safe_pure. intros c. by right; right.
  - destruct p as [a|]; [|apply lock_safe_ret].
    apply lock_safe_bind; [apply lock_safe_load|]. intros r.
    destruct (decide _); [apply lock_safe_ret|apply IH].
Qed.

Lemma lock_safe_lookup (i : Z) k : lock_safe (V:=V) (lookup i k).
Proof.
  unfold lookup.
  apply lock_safe_bind; [apply lock_safe_mustBeLocked|]. intros _.
  apply lock_safe_bind; [apply lock_safe_data_load|]. intros root.
  apply lock_safe_bind.
  { apply lock_safe_pure. intros c. left. by eexists. }
  intros fuel.
  apply lock_safe_bind; [apply lock_safe_lookup_loop|]. intros [r above].
  apply lock_safe_ret.
Qed.

Lemma lock_safe_delete (idx : Z) k : lock_safe (V:=V) (delete idx k).
Proof.
  unfold delete.
  apply lock_safe_bind; [apply lock_safe_mustBeLocked|]. intros _.
  apply lock_safe_bind; [apply lock_safe_lookup|]. intros [[r above] root].
  destruct r as [ra|]; [|apply lock_safe_ret].
  apply lock_safe_bind; [apply lock_safe_load|]. intros rr.
  apply lock_safe_bind; [apply lock_safe_Stop|]. intros _.
  apply lock_safe_bind.
  { destruct (decide _).
    - apply lock_safe_bind; [apply lock_safe_load|]. intros rr'.
      apply lock_safe_data_store.
    - apply lock_safe_bind; [apply lock_safe_load|]. intros rr'.
      apply lock_safe_bind; [apply lock_safe_deref|]. intros [aa ab].
      apply lock_safe_store. }
  intros _.
  apply lock_safe_bind; [apply lock_safe_load|]. intros rr'.
  apply lock_safe_bind; [apply lock_safe_Remove|]. intros _.
  by apply lock_safe_modify.
Qed.

(** C8.  In every state where the mutex is free, [lookup] and [delete]
    panic in [mustBeLocked] before reading or writing anything; in every
    state where it is held, [mustBeLocked] returns without changing the
    state and neither helper reaches that panic. *)
Theorem C8_helpers_require_lock c (idx : Z) k :
  (m c = false →
     mustBeLocked c = Panic lock_panic
     ∧ lookup idx k c = Panic lock_panic
     ∧ delete idx k c = Panic lock_panic)
  ∧ (m c = true →
     mustBeLocked c = Ok () c
     ∧ lookup idx k c ≠ Panic lock_panic
     ∧ delete idx k c ≠ Panic lock_panic).
Proof.
  split; intros Hm.
  - assert (mustBeLocked c = Panic lock_panic) as Hp.
    { unfold mustBeLocked, mbind, M_bind, TryLock, Unlock. by rewrite Hm. }
    split_and!; [done|..].
    + unfold lookup, mbind, M_bind. by rewrite Hp.
    + unfold delete, mbind, M_bind. by rewrite Hp.
  - split_and!.
    + unfold mustBeLocked, mbind, M_bind, TryLock. by rewrite Hm.
    + by apply lock_safe_lookup.
    + by apply lock_safe_delete.
Qed.

(** ** Bucket chains as lists *)

Lemma bucket_eq c (i : nat) p l :
  Inv mh c → data c !! i = Some p → chain (heap c) p l → bucket c i = l.
Proof.
  intros HI Hi Hc. destruct (Inv_bucket_chain c i p l HI Hi Hc) as [Hnd _].
  unfold bucket. rewrite Hi. unfold default. apply chain_walk; [done|].
  pose proof (chain_length _ _ _ Hc Hnd). lia.
Qed.

Lemma bucket_oob c (i : nat) : data c !! i = None → bucket c i = [].
Proof. intros Hi. unfold bucket. by rewrite Hi. Qed.

Lemma filter_ne_middle (l1 l2 : list loc) a :
  NoDup (l1 ++ a :: l2) → filter (λ b, b ≠ a) (l1 ++ a :: l2) = l1 ++ l2.
Proof.
  intros (Hnd1 & Hdisj & [Ha Hnd2]%NoDup_cons)%NoDup_app.
  assert (∀ l : list loc, a ∉ l → filter (λ b, b ≠ a) l = l) as Hid.
  { intros l Hl. induction l as [|b l IH]; [done|].
    apply not_elem_of_cons in Hl as [? ?].
    rewrite filter_cons_True by done. f_equal. by apply IH. }
  rewrite filter_app, filter_cons_False by naive_solver.
  rewrite !Hid; try done. intros Hin. apply (Hdisj a Hin). left.
Qed.

Lemma chain_below_last h p l1 a l2 aa rab :
  chain h p (l1 ++ a :: l2) → last l1 = Some aa → h !! aa = Some rab →
  below rab = Some a.
Proof.
  intros Hc (l0 & ->)%last_Some Hrab. rewrite <-app_assoc in Hc.
  apply seg_app in Hc as (mid & _ & (-> & r0 & Hr0 & (Hb & _))).
  congruence.
Qed.

(** Deleting twice: the second [delete] finds nothing. *)
Lemma delete_again c (i : nat) p p' a l1 l2 r h' x :
  Inv mh c → m c = true → data c !! i = Some p →
  chain (heap c) p (l1 ++ a :: l2) → heap c !! a = Some r →
  unlinked (heap c) h' a l1 l2 p p' r → x ∈ lru c → Value x = a →
  delete (Z.of_nat i) (key r) (deleted c i x r h' p')
  = Ok () (deleted c i x r h' p').
Proof.
  intros HI Hm Hi Hc Hr Hun Hx HVx.
  destruct (Inv_bucket_chain c i p _ HI Hi Hc) as [Hnd Hmem].
  assert (Inv mh (deleted c i x r h' p')) as HI' by (by eapply Inv_deleted).
  pose proof Hun as (Hc' & _ & Hsp & _).
  assert (data (deleted c i x r h' p') !! i = Some p') as Hi'.
  { simpl. apply list_lookup_insert_eq. by eapply lookup_lt_Some. }
  destruct (Inv_bucket_chain _ i p' _ HI' Hi' Hc') as [Hnd' Hmem'].
  destruct (delete_spec (deleted c i x r h' p') i (key r) p' (l1 ++ l2))
    as [[_ Heq]|(l1' & a' & l2' & r' & _ & _ & _ & Hl & Hr' & Hk' & _)];
    try done.
  exfalso. simpl in Hr'.
  destruct (same_payload_lookup _ _ _ _ (same_payload_sym _ _ Hsp) Hr')
    as (r0 & Hr0 & Heq).
  apply (f_equal key) in Heq. simpl in Heq.
  assert (a' ∈ l1 ++ l2) as Hin'
    by (rewrite Hl; apply elem_of_app; right; left).
  assert (a' ∈ l1 ++ a :: l2) as Hin.
  { apply elem_of_app in Hin' as [?|?]; apply elem_of_app; [by left|].
    right. by right. }
  assert (a' = a) as ->.
  { destruct (proj1 (Hmem a') Hin) as (? & ? & _).
    destruct (proj1 (Hmem a)) as (? & ? & _);
      [apply elem_of_app; right; left|].
    apply (inv_keys _ _ HI a' a r0 r); try done. congruence. }
  apply NoDup_app in Hnd as (_ & Hdisj & [Ha _]%NoDup_cons).
  apply elem_of_app in Hin' as [Hin'|Hin']; [|done].
  apply (Hdisj a Hin'). left.
Qed.

Lemma bucket_frame c c' (i j : nat) p l :
  Inv mh c → Inv mh c' → data c !! i = Some p → chain (heap c) p l →
  j ≠ i → data c' !! j = data c !! j →
  (∀ b, b ∉ l → heap c' !! b = heap c !! b) →
  bucket c' j = bucket c j.
Proof.
  intros HI HI' Hi Hc Hji Hd Hout.
  destruct (data c !! j) as [pj|] eqn:Hj.
  2:{ by rewrite !bucket_oob. }
  destruct (Inv_bucket_chain c i p l HI Hi Hc) as [_ Hmem].
  destruct (inv_bucket _ _ HI j pj Hj) as (lj & Hcj & _ & Hmemj).
  rewrite (bucket_eq c j pj lj) by done.
  apply (bucket_eq c' j pj lj); [done|done|].
  eapply seg_ext; [|exact Hcj]. intros b Hb. f_equal. apply Hout.
  intros Hbl. apply Hji. apply (in_bucket_inj c j i b).
  - by apply Hmemj.
  - by apply Hmem.
Qed.

(** C6.  For every reachable cache state and every bucket index, inside a
    transaction: when the key is absent from the bucket's chain, [delete]
    returns with the state unchanged (and so does the timer path
    [deleteWithLock]); when the key is present, [delete] stops the record's
    timer, unlinks the record from its chain, through the bucket head or
    through the record before it, removes its element from the recency
    list and takes one off [size]; a second [delete] of the same pair then
    changes nothing. *)
Theorem C6_delete c (i : nat) k :
  reachable zero mh c → Z.of_nat i < MaxCacheSize →
  (nokey (heap c) k (bucket c i) →
     delete (Z.of_nat i) k (locked c) = Ok () (locked c)
     ∧ deleteWithLock (Z.of_nat i) k c = Ok () c)
  ∧ (∀ a r, a ∈ bucket c i → heap c !! a = Some r → key r = k →
     ∃ c' x, delete (Z.of_nat i) k (locked c) = Ok () c'
       ∧ x ∈ lru c ∧ Value x = a ∧ e r = Some (eid x)
       ∧ timers c' = alter stop_timer (t r) (timers c)
       ∧ bucket c' i = filter (λ b, b ≠ a) (bucket c i)
       ∧ (∀ j, j ≠ i → bucket c' j = bucket c j)
       ∧ (if decide (data c !! i = Some (Some a)) then
            data c' = <[i:=below r]> (data c) ∧ heap c' = heap c
          else
            data c' = data c
            ∧ ∃ aa rab, heap c !! aa = Some rab ∧ below rab = Some a
                ∧ heap c' = <[aa:=set_below (below r) rab]> (heap c))
       ∧ lru c' = list_Remove (eid x) (lru c)
       ∧ entries c' = filter (λ kv, kv.1 ≠ k) (entries c)
       ∧ size c' = size c - 1
       ∧ delete (Z.of_nat i) k c' = Ok () c').
Proof.
  intros [HI Hm]%reachable_Inv Hi.
  assert (i < length (data c))%nat as Hlt.
  { rewrite (inv_len _ _ HI). lia. }
  destruct (lookup_lt_is_Some_2 _ _ Hlt) as [p Hp].
  destruct (inv_bucket _ _ HI i p Hp) as (l & Hc & Hnd & Hmem).
  rewrite (bucket_eq c i p l HI Hp Hc).
  assert (Inv mh (locked c)) as HIl by (by apply Inv_set_m).
  destruct (delete_spec (locked c) i k p l HIl eq_refl Hp Hc Hnd Hmem)
    as [[Hno Heq]|(l1 & a' & l2 & r' & x & h' & p' & -> & Hr' & Hk' & Hno1
                   & Hx & HVx & Hun & Heq)].
  - split.
    + intros _. split; [done|].
      unfold deleteWithLock, mbind, M_bind, Lock. rewrite Hm.
      fold (locked c). rewrite Heq. unfold locked, Unlock. simpl.
      destruct c; simpl in *; by subst.
    + intros a r Ha Hr Hk. by destruct (Hno a r Ha Hr).
  - simpl in Hr', Hx, Hno1. split.
    + intros Hno. destruct (Hno a' r'); try done.
      apply elem_of_app. right. left.
    + intros a r Ha Hr Hk.
      assert (a = a') as <-.
      { destruct (proj1 (Hmem a) Ha) as (? & ? & _).
        destruct (proj1 (Hmem a')) as (? & ? & _);
          [apply elem_of_app; right; left|].
        apply (inv_keys _ _ HI a a' r r'); try done. congruence. }
      rewrite Hr in Hr'. injection Hr' as <-.
      destruct (inv_e _ _ HI x Hx) as (rx & Hrx & He & _).
      rewrite HVx, Hr in Hrx. injection Hrx as <-.
      set (c' := deleted (locked c) i x r h' p') in *.
      assert (Inv mh c') as HI' by (by eapply Inv_deleted).
      pose proof Hun as (Hc' & Hout & Hsp & Hnil & Hcons).
      exists c', x. split_and!; try done.
      * rewrite filter_ne_middle by done.
        apply (bucket_eq c' i p'); [done| |done].
        simpl. by apply list_lookup_insert_eq.
      * intros j Hji. apply (bucket_frame c c' i j p (l1 ++ a :: l2));
          try done.
        simpl. by apply list_lookup_insert_ne.
      * destruct l1 as [|b l1].
        -- rewrite decide_True
             by (rewrite Hp; f_equal; symmetry; by eapply chain_head_nil).
           destruct (Hnil eq_refl) as [Hp' Hh']. unfold c', deleted.
           by rewrite Hp', Hh'.
        -- rewrite decide_False.
           2:{ rewrite Hp. intros [= ->].
               by eapply (chain_head_cons (heap c) (Some a) a (b :: l1)). }
           destruct Hcons as (Hp' & aa & rab & Hlast & Hrab & Hh'); [done|].
           unfold c', deleted. rewrite Hp', Hh'.
           split; [by apply list_insert_id|].
           exists aa, rab. split_and!; try done.
           by eapply (chain_below_last (heap c) p (b :: l1)).
      * subst k. rewrite <-HVx in Hr.
        exact (entries_deleted (locked c) i x r h' p' HIl Hx Hr Hsp).
      * change (size c') with (uint64 (size c - 1)).
        pose proof (inv_size _ _ HI) as Hsz.
        pose proof (inv_cap _ _ HI) as Hcap.
        assert (0 < length (lru c))%nat.
        { destruct (lru c); [by apply elem_of_nil in Hx|simpl; lia]. }
        unfold uint64, MaxCacheSize in *. rewrite Z.mod_small; lia.
      * subst k.
        exact (delete_again (locked c) i p p' a l1 l2 r h' x HIl eq_refl Hp Hc
                 Hr Hun Hx HVx).
Qed.

Lemma elem_of_concat {A} (ls : list (list A)) (y : A) :
  y ∈ concat ls ↔ ∃ (i : nat) (l : list A), ls !! i = Some l ∧ y ∈ l.
Proof.
  induction ls as [|l0 ls IH]; simpl.
  - split; [by intros ?%elem_of_nil|by intros (? & ? & ? & _)].
  - rewrite elem_of_app, IH. split.
    + intros [Hy|(i & l & Hi & Hy)]; [by exists 0%nat, l0|by exists (S i), l].
    + intros ([|i] & l & Hi & Hy); simpl in Hi; [left; congruence|right; eauto].
Qed.

Lemma NoDup_concat_indexed {A} (R : nat → A → Prop) (ls : list (list A)) :
  (∀ i j y, R i y → R j y → i = j) →
  (∀ i (l : list A), ls !! i = Some l → NoDup l ∧ ∀ y, y ∈ l → R i y) →
  NoDup (concat ls).
Proof.
  intros Hinj. induction ls as [|l ls IH] using rev_ind; intros Hls.
  - constructor.
  - rewrite concat_app. simpl. rewrite app_nil_r. apply NoDup_app.
    split_and!.
    + apply IH. intros i l' Hi. apply (Hls i).
      rewrite lookup_app_l; [done|]. by eapply lookup_lt_Some.
    + intros y (i & l' & Hi & Hy)%elem_of_concat Hyl.
      assert (R i y) as Hiy.
      { eapply (Hls i l'); [|done]. rewrite lookup_app_l; [done|].
        by eapply lookup_lt_Some. }
      assert (R (length ls) y) as Hny.
      { eapply (Hls (length ls) l); [|done]. by rewrite list_lookup_middle. }
      pose proof (Hinj _ _ _ Hiy Hny) as ->.
      apply lookup_lt_Some in Hi. lia.
    + eapply (Hls (length ls)). by rewrite list_lookup_middle.
Qed.

Lemma buckets_lookup c (i : nat) l :
  Inv mh c → buckets c !! i = Some l →
  ∃ p, data c !! i = Some p ∧ chain (heap c) p l ∧ NoDup l
       ∧ ∀ a, a ∈ l ↔ in_bucket mh c i a.
Proof.
  intros HI Hl. unfold buckets in Hl. rewrite list_lookup_fmap in Hl.
  destruct (data c !! i) as [p|] eqn:Hp; [|done]. injection Hl as Hl.
  destruct (inv_bucket _ _ HI i p Hp) as (l0 & Hc & Hnd & Hmem).
  assert (l = l0) as ->; [|by exists p].
  rewrite <-Hl.
  refine (chain_walk (S (base.size (heap c))) (heap c) p l0 Hc _).
  pose proof (chain_length _ _ _ Hc Hnd). lia.
Qed.

(** C9.  In every reachable state, which is one after any number of
    [Get], [Set], [delete] and timer events: every pointer of [c.data]
    starts a chain that ends in nil, the records on these chains are the
    records of the recency list, and no record is on two chains or twice on
    one. *)
Theorem C9_chains_match_recency_list c :
  reachable zero mh c →
  Forall2 (chain (heap c)) (data c) (buckets c)
  ∧ NoDup (concat (buckets c))
  ∧ concat (buckets c) ≡ₚ live c.
Proof.
  intros [HI Hm]%reachable_Inv.
  assert (NoDup (concat (buckets c))) as Hnd.
  { apply (NoDup_concat_indexed (in_bucket mh c)).
    - intros i j a. apply in_bucket_inj.
    - intros i l (p & _ & _ & ? & Hmem)%buckets_lookup; [|done].
      split; [done|]. intros a. apply Hmem. }
  split_and!; [|done|].
  - apply Forall2_same_length_lookup. split.
    + unfold buckets. by rewrite length_fmap.
    + intros i p l Hp (p' & Hp' & Hc & _)%buckets_lookup; [|done]. congruence.
  - apply NoDup_Permutation; [done|apply HI|]. intros a.
    rewrite elem_of_concat. split.
    + intros (i & l & (p & _ & _ & _ & Hmem)%buckets_lookup & Ha); [|done].
      by destruct (proj1 (Hmem a) Ha) as (? & ? & _).
    + intros Ha. pose proof Ha as (x & -> & Hx)%list_elem_of_fmap.
      destruct (inv_e _ _ HI x Hx) as (r & Hr & _).
      destruct (Inv_bucket_hash c (key r) HI)
        as (i & p & l & Hh & Hi & Hc & _ & Hmem).
      exists i, l. split.
      * unfold buckets. rewrite list_lookup_fmap, Hi. simpl. f_equal.
        pose proof (bucket_eq c i p l HI Hi Hc) as Hb. unfold bucket in Hb.
        by rewrite Hi in Hb.
      * apply Hmem. by exists r.
Qed.

Lemma lookup_spec_eq c (i : nat) k p l :
  m c = true → data c !! i = Some p → chain (heap c) p l → NoDup l →
  (∃ l1 a l2 r, l = l1 ++ a :: l2 ∧ heap c !! a = Some r ∧ key r = k
      ∧ nokey (heap c) k l1
      ∧ lookup (Z.of_nat i) k c = Ok (Some a, last l1, p) c)
  ∨ (nokey (heap c) k l ∧ lookup (Z.of_nat i) k c = Ok (None, last l, p) c).
Proof.
  intros Hm Hi Hc Hnd.
  cut (wp (lookup (Z.of_nat i) k) c (λ res c',
    (∃ l1 a l2 r, l = l1 ++ a :: l2 ∧ heap c !! a = Some r ∧ key r = k
        ∧ nokey (heap c) k l1 ∧ res = (Some a, last l1, p) ∧ c' = c)
    ∨ (nokey (heap c) k l ∧ res = (None, last l, p) ∧ c' = c))).
  { intros (res & c' & Heq & [(l1 & a & l2 & r & ? & ? & ? & ? & -> & ->)
                             |(? & -> & ->)])%wp_ok.
    - left. by exists l1, a, l2, r.
    - by right. }
  eapply wp_lookup; try done.
  - intros l1 a l2 r ????. left. by exists l1, a, l2, r.
  - intros ?. by right.
Qed.

Lemma first_key_unique h k l1 a l2 l1' a' l2' r r' :
  l1 ++ a :: l2 = l1' ++ a' :: l2' →
  h !! a = Some r → key r = k → h !! a' = Some r' → key r' = k →
  nokey h k l1 → nokey h k l1' →
  l1 = l1' ∧ a = a' ∧ l2 = l2'.
Proof.
  intros Heq Hr Hk Hr' Hk' Hno Hno'.
  revert l1' Heq Hno'. induction l1 as [|b l1 IH]; intros [|b' l1'] Heq Hno'.
  - by injection Heq as -> ->.
  - injection Heq as <- _. by destruct (Hno' a r ltac:(left) Hr).
  - injection Heq as -> _. by destruct (Hno a' r' ltac:(left) Hr').
  - injection Heq as <- Heq.
    destruct (IH ltac:(intros ????; eapply Hno; [by right|done..]) l1' Heq
                ltac:(intros ????; eapply Hno'; [by right|done..]))
      as (-> & -> & ->).
    done.
Qed.

Lemma moved_touched c c1 (i : nat) p l1 a l2 r r1 h' x :
  Inv mh c → data c !! i = Some p → chain (heap c) p (l1 ++ a :: l2) →
  heap c !! a = Some r →
  (* [c1] is [c] or [c] with other fields of [a] written *)
  data c1 = data c → lru c1 = lru c →
  (∀ b, b ≠ a → heap c1 !! b = heap c !! b) →
  heap c1 !! a = Some r1 → below r1 = below r →
  relinked (heap c1) h' a l1 l2 p r1 →
  Inv mh (touched c1 i a x h') →
  moved c (touched c1 i a x h') i a (last l1) p.
Proof.
  intros HI Hi Hc Hr Hd Hlru Hother Hr1 Hb Hrel HI'.
  destruct (Inv_bucket_chain c i p _ HI Hi Hc) as [Hnd Hmem].
  pose proof Hrel as (Hc' & Hout & Hsp & Hbelow).
  assert (i < length (data c))%nat as Hlt by (by eapply lookup_lt_Some).
  assert (data (touched c1 i a x h') !! i = Some (Some a)) as Hi'.
  { simpl. rewrite Hd. by apply list_lookup_insert_eq. }
  split_and!.
  - done.
  - rewrite (bucket_eq c i p _ HI Hi Hc), filter_ne_middle by done.
    by apply (bucket_eq _ i (Some a)).
  - intros j Hji.
    apply (bucket_frame c _ i j p (l1 ++ a :: l2)); try done.
    + simpl. rewrite Hd. by apply list_lookup_insert_ne.
    + intros b Hb'. simpl. rewrite Hout by done. apply Hother.
      intros ->. apply Hb', elem_of_app. right. left.
  - intros Hne.
    destruct Hbelow as (Ha' & aa & rab & Hlast & Hrab & Haa).
    { intros ->. apply Hne. by eapply chain_head_nil. }
    exists aa. split; [done|]. simpl. rewrite Ha', Haa, Hr. simpl.
    by rewrite Hb.
Qed.

(** C10.  In every reachable state, when [lookup] finds the key at record
    [a], both [Get] and [Set] of that key leave [a] at the head of its
    bucket chain, with [c.data[i]] pointing to it, the old head below it
    and the record that was before it linked to what was below it. *)
Theorem C10_hit_moves_to_chain_head c k (i : nat) a above root :
  reachable zero mh c → hash_of mh (seed c) k = Z.of_nat i →
  lookup (Z.of_nat i) k (locked c) = Ok (Some a, above, root) (locked c) →
  (∃ v c', Get zero mh k c = Ok (v, true) c' ∧ moved c c' i a above root)
  ∧ (∀ v ttl, ∃ c', Set_ mh k v ttl c = Ok () c'
                    ∧ moved c c' i a above root).
Proof.
  intros [HI Hm]%reachable_Inv Hh Hlk.
  destruct (Inv_bucket_hash c k HI) as (i' & p & l & Hh' & Hi & Hc & Hnd & Hmem).
  assert (i' = i) as -> by lia.
  destruct (lookup_spec_eq (locked c) i k p l eq_refl Hi Hc Hnd)
    as [(l1 & a0 & l2 & r & -> & Hr & Hk & Hno & Heq)|[_ Heq]];
    rewrite Heq in Hlk; [|done].
  injection Hlk as -> <- <-. simpl in Hr, Hno.
  assert (∀ l1' a' l2' r', l1 ++ a :: l2 = l1' ++ a' :: l2' →
    heap c !! a' = Some r' → key r' = k → nokey (heap c) k l1' →
    l1' = l1 ∧ a' = a ∧ l2' = l2 ∧ r' = r) as Huniq.
  { intros l1' a' l2' r' Hl Hr' Hk' Hno'.
    destruct (first_key_unique _ _ _ _ _ _ _ _ _ _ Hl Hr Hk Hr' Hk' Hno Hno')
      as (-> & -> & ->).
    split_and!; try done. congruence. }
  assert (¬ nokey (heap c) k (l1 ++ a :: l2)) as Hnno.
  { intros Hno'. destruct (Hno' a r); try done. apply elem_of_app.
    right. left. }
  split.
  - destruct (Get_spec c k HI Hm)
      as (i' & p' & l' & Hh2 & Hi2 & Hc2 & Hcases).
    assert (i' = i) as -> by lia. rewrite Hi in Hi2. injection Hi2 as <-.
    rewrite <-(chain_det _ _ _ _ Hc Hc2) in Hcases.
    destruct Hcases as [[? _]|(l1' & a' & l2' & r' & x & h' & Hl & Hr' & Hk'
                               & Hno' & Hx & HVx & Hrel & Hget)]; [done|].
    destruct (Huniq _ _ _ _ Hl Hr' Hk' Hno') as (-> & -> & -> & ->).
    exists (val r), (touched c i a x h'). split; [done|].
    eapply (moved_touched c c i p l1 a l2 r r); try done.
    by eapply Inv_touched.
  - intros v ttl.
    destruct (Set_spec c k v ttl HI Hm)
      as (i' & p' & l' & Hh2 & Hi2 & Hc2 & c' & Hset & Hpost).
    assert (i' = i) as -> by lia.
    destruct (Set_post_Inv _ _ _ _ _ _ _ _ HI Hh2 Hi2 Hc2 Hpost)
      as (HI' & _).
    rewrite Hi in Hi2. injection Hi2 as <-.
    rewrite <-(chain_det _ _ _ _ Hc Hc2) in Hpost.
    destruct Hpost as [(l1' & a' & l2' & r' & x & h' & Hl & Hr' & Hk' & Hno'
                        & Hx & HVx & Hrel & ->)|[[? _]|[? _]]]; try done.
    destruct (Huniq _ _ _ _ Hl Hr' Hk' Hno') as (-> & -> & -> & ->).
    exists (touched (refreshed c a r v
              (mkTimer (now c + ttl) (Z.of_nat i) k Armed)) i a x h').
    split; [done|].
    eapply (moved_touched c _ i p l1 a l2 r
              (set_t (length (timers c)) (set_val v r))); try done.
    + intros b Hb. simpl. by rewrite lookup_insert_ne.
    + simpl. by rewrite lookup_insert_eq.
Qed.

(** C7 (as amended).  [NewCache] takes no capacity: every cache it makes
    has [MaxCacheSize] buckets, the package constant, which lies between 1
    and 10000, and the number of buckets never changes afterwards. *)
Theorem C7_capacity_is_the_constant sd evs c :
  exec zero mh evs (NewCache sd) = Ok () c →
  capacity (NewCache (V:=V) sd) = MaxCacheSize
  ∧ capacity c = MaxCacheSize
  ∧ 1 ≤ MaxCacheSize ≤ 10000.
Proof.
  intros Hex.
  destruct (exec_Inv evs _ c (Inv_NewCache sd) eq_refl Hex) as (HI & _).
  split_and!; try done. unfold capacity. by rewrite (inv_len _ _ HI).
Qed.

(** ** Recency *)

Lemma NoDup_lru c : Inv mh c → NoDup (lru c).
Proof. intros HI. eapply NoDup_fmap_1, (inv_eid _ _ HI). Qed.

Lemma NoDup_keys c : Inv mh c → NoDup (keys c).
Proof.
  intros HI. unfold keys, entries.
  pose proof (NoDup_lru c HI) as Hnd.
  assert (∀ x, x ∈ lru c → x ∈ lru c) as Hsub by done.
  revert Hnd Hsub. generalize (lru c) at 1 2 4. intros l.
  induction l as [|x l IH]; intros Hnd Hsub; [constructor|].
  apply NoDup_cons in Hnd as [Hx Hnd].
  assert (NoDup (omap (entry_of (heap c)) l).*1) as IH'.
  { apply IH; [done|]. intros y Hy. apply Hsub. by right. }
  destruct (inv_e _ _ HI x (Hsub x ltac:(left))) as (r & Hr & _).
  rewrite (omap_cons_Some _ _ _ (key r, val r))
    by (unfold entry_of; by rewrite Hr).
  rewrite fmap_cons. apply NoDup_cons. split; [|done]. simpl.
  intros ([k' v'] & Hk & (y & Hy & Hf)%list_elem_of_omap)%list_elem_of_fmap.
  simpl in Hk. subst k'. unfold entry_of in Hf.
  destruct (heap c !! Value y) as [ry|] eqn:Hry; [|done].
  injection Hf as Hk _.
  assert (y = x) as ->; [|done].
  apply (Value_inj _ _ _ (inv_live _ _ HI)); [apply Hsub; by right
                                             |apply Hsub; left|].
  apply (inv_keys _ _ HI _ _ ry r); try done.
  - apply list_elem_of_fmap_2, Hsub. by right.
  - apply list_elem_of_fmap_2, Hsub. left.
Qed.

Lemma fst_filter_sublist (es : list (string * V)) k :
  (filter (λ kv, kv.1 ≠ k) es).*1 `sublist_of` es.*1
  ∧ k ∉ (filter (λ kv, kv.1 ≠ k) es).*1.
Proof.
  split.
  - apply fmap_sublist, sublist_filter.
  - intros ([k' v'] & -> & [Hne _]%list_elem_of_filter)%list_elem_of_fmap.
    done.
Qed.

Lemma deleteWithLock_keys c idx k c' :
  Inv mh c → m c = false → deleteWithLock idx k c = Ok () c' →
  keys c' `sublist_of` keys c.
Proof.
  intros HI Hm Hdel.
  destruct (decide (0 ≤ idx < Z.of_nat (length (data c)))) as [Hidx|Hidx].
  - assert (∃ i : nat, idx = Z.of_nat i ∧ (i < length (data c))%nat)
      as (i & -> & Hi) by (exists (Z.to_nat idx); lia).
    destruct (deleteWithLock_spec c i k HI Hm Hi)
      as (p & l & Hp & Hc & [[Hno Heq]|(l1 & a & l2 & r & x & h' & p' & ->
          & Hr & Hk & Hno & Hx & HVx & Hun & Heq)]);
      rewrite Heq in Hdel; injection Hdel as <-; [done|].
    pose proof Hun as (_ & _ & Hsp & _). subst a.
    unfold keys. rewrite (entries_deleted c i x r h' p') by done.
    apply fst_filter_sublist.
  - exfalso. revert Hdel.
    unfold deleteWithLock, delete, lookup, mustBeLocked, TryLock, Lock,
      data_load, mbind, M_bind, mret, M_ret.
    rewrite Hm. simpl. case_bool_decide; [|done].
    destruct (data c !! Z.to_nat idx) eqn:Hl; [|done].
    apply lookup_lt_Some in Hl. lia.
Qed.

(** What a step does to the keys of the recency list. *)
Lemma step_keys ev c c' :
  Inv mh c → m c = false → step zero mh ev c = Ok () c' →
  match touched_key ev c with
  | Some k => ∃ ks, keys c' = k :: ks ∧ ks `sublist_of` keys c ∧ (k ∉ ks)
  | None => keys c' `sublist_of` keys c
  end.
Proof.
  intros HI Hm Hstep.
  destruct ev as [k|k v ttl|idx k|d|tid|tid]; simpl in Hstep; simpl.
  - unfold mbind, M_bind in Hstep.
    destruct (Get_abs c k HI Hm)
      as [(v & c1 & Hin & Heq & _ & _ & Hes & _)|[Hno Heq]];
      rewrite Heq in Hstep; injection Hstep as <-.
    + rewrite decide_True
        by (apply list_elem_of_fmap; by exists (k, v)).
      exists (filter (λ kv, kv.1 ≠ k) (entries c)).*1.
      unfold keys at 1. rewrite Hes. split; [done|].
      apply fst_filter_sublist.
    + by rewrite decide_False.
  - destruct (Set_abs c k v ttl HI Hm) as (c1 & Heq & _ & _ & Hcases).
    rewrite Heq in Hstep. injection Hstep as <-. unfold keys at 1.
    destruct Hcases as [(_ & -> & _)|[(Hk & _ & -> & _)
      |(Hk & _ & es & kv & Hes & -> & _)]].
    + exists (filter (λ kv, kv.1 ≠ k) (entries c)).*1. split; [done|].
      apply fst_filter_sublist.
    + by exists (keys c).
    + exists es.*1. unfold keys in *. rewrite Hes, fmap_app in *.
      split_and!; [done|by apply sublist_inserts_r|].
      intros Hin. apply Hk, elem_of_app. by left.
  - by eapply deleteWithLock_keys.
  - unfold tick in Hstep. case_decide; [|done]. by injection Hstep as <-.
  - unfold expire in Hstep. destruct (timers c !! tid); [|done].
    case_decide; [|done]. by injection Hstep as <-.
  - unfold run_func in Hstep. destruct (timers c !! tid) as [tm|]; [|done].
    case_decide; [|done]. unfold mbind, M_bind in Hstep.
    destruct (deleteWithLock (cb_idx tm) (cb_key tm) c) as [[] c1| | |] eqn:Hd;
      try done.
    injection Hstep as <-.
    by apply (deleteWithLock_keys c (cb_idx tm) (cb_key tm) c1).
Qed.

Lemma touched_after_app log0 log k1 k2 :
  touched_after log k1 k2 → touched_after (log0 ++ log) k1 k2.
Proof.
  intros (l1 & l2 & -> & Hk2). exists (log0 ++ l1), l2.
  by rewrite <-app_assoc.
Qed.

(** The recency list is ordered by last touch: of two keys on it, the one
    nearer the front was touched after the last touch of the other. *)
Lemma recency_order evs c0 c k1 k2 :
  Inv mh c0 → m c0 = false → exec zero mh evs c0 = Ok () c →
  [k1; k2] `sublist_of` keys c →
  touched_after (touch_log zero mh evs c0) k1 k2
  ∨ ((k2 ∉ touch_log zero mh evs c0) ∧ [k1; k2] `sublist_of` keys c0).
Proof.
  revert c0. induction evs as [|ev evs IH]; intros c0 HI Hm Hex Hsub;
    simpl in Hex.
  - injection Hex as <-. right. split; [apply not_elem_of_nil|done].
  - unfold mbind, M_bind in Hex.
    destruct (step zero mh ev c0) as [[] c1| | |] eqn:Hstep; try done.
    destruct (step_Inv ev c0 c1 HI Hm Hstep) as (HI1 & Hm1 & _).
    pose proof (step_keys ev c0 c1 HI Hm Hstep) as Hkeys.
    simpl. rewrite Hstep.
    destruct (IH c1 HI1 Hm1 Hex Hsub) as [Haft|[Hk2 Hsub1]].
    { left. by apply touched_after_app. }
    destruct (touched_key ev c0) as [k|]; simpl.
    + destruct Hkeys as (ks & Hks & Hsubks & Hk).
      rewrite Hks in Hsub1.
      apply sublist_cons_r in Hsub1 as [Hsub1|(l' & [= <- <-] & Hsub1)].
      * right. split.
        -- apply not_elem_of_cons. split; [|done]. intros <-.
           apply Hk. eapply elem_of_sublist; [|exact Hsub1]. right. left.
        -- by etrans.
      * left. by exists [], (touch_log zero mh evs c1).
    + right. split; [done|]. by etrans.
Qed.

Lemma last_entries c kv :
  Inv mh c → last (entries c) = Some kv →
  ∃ x, last (lru c) = Some x ∧ entry_of (heap c) x = Some kv.
Proof.
  intros HI. unfold entries.
  assert (∀ x, x ∈ lru c → is_Some (entry_of (heap c) x)) as Hs.
  { intros x Hx. destruct (inv_e _ _ HI x Hx) as (r & Hr & _).
    unfold entry_of. rewrite Hr. eauto. }
  destruct (lru c) as [|x l _] using rev_ind; [done|].
  destruct (Hs x) as [kv' Hkv']; [apply elem_of_app; right; left|].
  rewrite omap_app, (omap_cons_Some _ _ _ kv') by done. simpl.
  rewrite !last_snoc. intros [= <-]. eauto.
Qed.

Lemma sublist_pair_snoc (ks : list string) k' z :
  k' ∈ ks → [k'; z] `sublist_of` ks ++ [z].
Proof.
  intros (l1 & l2 & ->)%list_elem_of_split.
  rewrite <-app_assoc. apply sublist_inserts_l. simpl.
  apply sublist_skip. apply sublist_inserts_l. done.
Qed.

(** C1.  In every reachable state with [size = MaxCacheSize], a [Set] of a
    key that is not in the cache removes the record at the back of the
    recency list and no other: the entries after the [Set] are the new
    entry followed by the old ones without the last, which is the entry of
    the element at the back of [c.lru]; the key removed is then absent,
    the new key is present with its value and every other key is still
    present with the value it had.  The record at the back is the
    least recently touched one: every other key in the cache was touched,
    by a [Set] or a [Get] that found it, after the last touch of the key
    at the back. *)
Theorem C1_eviction_removes_least_recent sd evs c k v ttl :
  exec zero mh evs (NewCache sd) = Ok () c →
  size c = MaxCacheSize → k ∉ keys c →
  ∃ es kvic vvic c',
    entries c = es ++ [(kvic, vvic)]
    ∧ (∃ x, last (lru c) = Some x ∧ entry_of (heap c) x = Some (kvic, vvic))
    ∧ (∀ k', k' ∈ keys c → k' ≠ kvic →
         touched_after (touch_log zero mh evs (NewCache sd)) k' kvic)
    ∧ Set_ mh k v ttl c = Ok () c'
    ∧ entries c' = (k, v) :: es
    ∧ Get zero mh kvic c' = Ok (zero, false) c'
    ∧ (∃ c'', Get zero mh k c' = Ok (v, true) c'')
    ∧ (∀ k' v', (k', v') ∈ entries c → k' ≠ kvic →
         ∃ c'', Get zero mh k' c' = Ok (v', true) c'').
Proof.
  intros Hex Hfull Hk.
  destruct (exec_Inv evs _ c (Inv_NewCache sd) eq_refl Hex) as (HI & Hm & _).
  destruct (Set_abs c k v ttl HI Hm) as (c' & Hset & HI' & Hm' & Hcases).
  destruct Hcases as [(? & _)|[(_ & ? & _)|(_ & _ & es & [kvic vvic] & Hes
                                            & Hes' & _)]]; try done.
  pose proof (NoDup_keys c HI) as Hnd. unfold keys in Hnd, Hk.
  rewrite Hes, fmap_app in Hnd, Hk. simpl in Hnd, Hk.
  apply NoDup_app in Hnd as (_ & Hdisj & _).
  assert (∀ k' v', (k', v') ∈ entries c' →
            ∃ c'', Get zero mh k' c' = Ok (v', true) c'') as Hget.
  { intros k' v' Hin.
    destruct (Get_abs c' k' HI' Hm')
      as [(v'' & c'' & Hin' & Hget & _)|[Hno _]].
    - exists c''. by rewrite (entries_unique c' k' v' v'' HI' Hin Hin').
    - destruct Hno. apply list_elem_of_fmap. by exists (k', v'). }
  exists es, kvic, vvic, c'. split_and!; try done.
  - apply (last_entries c); [done|]. rewrite Hes. apply last_snoc.
  - intros k' Hk' Hne.
    destruct (recency_order evs _ c k' kvic (Inv_NewCache sd) eq_refl Hex)
      as [Haft|[_ Hnil]]; [|done|].
    + unfold keys in *. rewrite Hes, fmap_app in *. simpl in *.
      apply sublist_pair_snoc.
      apply elem_of_app in Hk' as [?|Hk']; [done|].
      by apply list_elem_of_singleton in Hk'.
    + by apply sublist_nil_r in Hnil.
  - destruct (Get_abs c' kvic HI' Hm') as [(v'' & c'' & Hin & _)|[_ Hget']];
      [|done].
    exfalso. rewrite Hes' in Hin.
    apply elem_of_cons in Hin as [[= -> ->]|Hin].
    + apply Hk, elem_of_app. right. left.
    + apply (Hdisj kvic); [|left].
      apply list_elem_of_fmap. by exists (kvic, v'').
  - apply Hget. rewrite Hes'. left.
  - intros k' v' Hin Hne. apply Hget. rewrite Hes'. right.
    rewrite Hes in Hin. apply elem_of_app in Hin as [?|Hin]; [done|].
    apply list_elem_of_singleton in Hin. congruence.
Qed.

(** ** Timers *)

Lemma stopped_alter_stop (ts : list Timer) tid tid' tm :
  ts !! tid = Some tm → status tm = Stopped →
  alter stop_timer tid' ts !! tid = Some tm.
Proof.
  intros Htm Hst. destruct (decide (tid' = tid)) as [->|Hne].
  - rewrite list_lookup_alter_eq, Htm. simpl. unfold stop_timer.
    rewrite decide_False; [done|]. by rewrite Hst.
  - by rewrite list_lookup_alter_ne.
Qed.

Lemma stopped_app (ts : list Timer) tid tm tm0 :
  ts !! tid = Some tm → (ts ++ [tm0]) !! tid = Some tm.
Proof. intros Htm. rewrite lookup_app_l; [done|by eapply lookup_lt_Some]. Qed.

Lemma deleteWithLock_stopped c idx k c' tid tm :
  Inv mh c → m c = false → deleteWithLock idx k c = Ok () c' →
  timers c !! tid = Some tm → status tm = Stopped →
  timers c' !! tid = Some tm.
Proof.
  intros HI Hm Hdel Htm Hst.
  destruct (decide (0 ≤ idx < Z.of_nat (length (data c)))) as [Hidx|Hidx].
  - assert (∃ i : nat, idx = Z.of_nat i ∧ (i < length (data c))%nat)
      as (i & -> & Hi) by (exists (Z.to_nat idx); lia).
    destruct (deleteWithLock_spec c i k HI Hm Hi)
      as (p & l & Hp & Hc & [[Hno Heq]|(l1 & a & l2 & r & x & h' & p' & ->
          & Hr & Hk & Hno & Hx & HVx & Hun & Heq)]);
      rewrite Heq in Hdel; injection Hdel as <-; [done|].
    by apply stopped_alter_stop.
  - exfalso. revert Hdel.
    unfold deleteWithLock, delete, lookup, mustBeLocked, TryLock, Lock,
      data_load, mbind, M_bind, mret, M_ret.
    rewrite Hm. simpl. case_bool_decide; [|done].
    destruct (data c !! Z.to_nat idx) eqn:Hl; [|done].
    apply lookup_lt_Some in Hl. lia.
Qed.

(** A stopped timer stays as it is, whatever happens next. *)
Lemma step_stopped ev c c' tid tm :
  Inv mh c → m c = false → step zero mh ev c = Ok () c' →
  timers c !! tid = Some tm → status tm = Stopped →
  timers c' !! tid = Some tm.
Proof.
  intros HI Hm Hstep Htm Hst.
  destruct ev as [k|k v ttl|idx k|d|tid'|tid']; simpl in Hstep.
  - unfold mbind, M_bind in Hstep.
    destruct (Get_abs c k HI Hm)
      as [(v & c1 & _ & Heq & _ & _ & _ & _ & Hts & _)|[_ Heq]];
      rewrite Heq in Hstep; injection Hstep as <-; [|done].
    by rewrite Hts.
  - destruct (Set_spec c k v ttl HI Hm)
      as (i & p & l & Hh & Hi & Hc & c1 & Heq & Hpost).
    rewrite Heq in Hstep. injection Hstep as <-.
    destruct Hpost as [(l1 & a & l2 & r & x & h' & -> & Hr & Hk & Hno & Hx & HVx
                        & Hrel & ->)
                      |[(Hno & Hsz & a & el & Ha & Hel & ->)
                       |(Hno & Hsz & xv & rv & j & pj & l1 & l2 & hv & pv' & p1
                         & a & el & Hlast & Hrv & Hhj & Hj & Hcj & Hun & Hp1
                         & Ha & Hel & ->)]]; simpl.
    + by apply stopped_app, stopped_alter_stop.
    + by apply stopped_app.
    + by apply stopped_app, stopped_alter_stop.
  - by eapply deleteWithLock_stopped.
  - unfold tick in Hstep. case_decide; [|done]. by injection Hstep as <-.
  - unfold expire in Hstep.
    destruct (timers c !! tid') as [tm'|] eqn:Htm'; [|done].
    case_decide as Harm; [|done]. injection Hstep as <-. simpl.
    rewrite list_lookup_insert_ne; [done|]. intros ->.
    destruct Harm as [Harm _]. congruence.
  - unfold run_func in Hstep.
    destruct (timers c !! tid') as [tm'|] eqn:Htm'; [|done].
    case_decide as Hrun; [|done]. unfold mbind, M_bind in Hstep.
    destruct (deleteWithLock (cb_idx tm') (cb_key tm') c) as [[] c1| | |] eqn:Hd;
      try done.
    injection Hstep as <-. simpl.
    rewrite list_lookup_alter_ne by (intros ->; congruence).
    by eapply deleteWithLock_stopped.
Qed.

Lemma exec_stopped evs c c' tid tm :
  Inv mh c → m c = false → exec zero mh evs c = Ok () c' →
  timers c !! tid = Some tm → status tm = Stopped →
  timers c' !! tid = Some tm.
Proof.
  revert c. induction evs as [|ev evs IH]; intros c HI Hm Hex Htm Hst;
    simpl in Hex.
  - by injection Hex as <-.
  - unfold mbind, M_bind in Hex.
    destruct (step zero mh ev c) as [[] c1| | |] eqn:Hstep; try done.
    destruct (step_Inv ev c c1 HI Hm Hstep) as (HI1 & Hm1 & _).
    apply (IH c1 HI1 Hm1 Hex); [|done].
    by apply (step_stopped ev c c1 tid tm).
Qed.

(** The reset case of [Set] when the old timer is still armed: the timer
    is stopped, and then it never expires and its function never runs,
    whatever happens next. *)
Lemma refresh_stops_armed_timer c k v ttl x r tm evs c'' :
  reachable zero mh c → x ∈ lru c → heap c !! Value x = Some r → key r = k →
  timers c !! t r = Some tm → status tm = Armed →
  ∃ c', Set_ mh k v ttl c = Ok () c'
    ∧ timers c' !! t r = Some (set_status Stopped tm)
    ∧ (exec zero mh evs c' = Ok () c'' →
       timers c'' !! t r = Some (set_status Stopped tm)
       ∧ expire (t r) c'' = Blocked ∧ run_func (t r) c'' = Blocked).
Proof.
  intros [HI Hm]%reachable_Inv Hx Hr Hk Htm Harm.
  destruct (Set_spec c k v ttl HI Hm)
    as (i & p & l & Hh & Hi & Hc & c' & Hset & Hpost).
  destruct (Set_post_Inv _ _ _ _ _ _ _ _ HI Hh Hi Hc Hpost)
    as (HI' & Hm' & _).
  assert (k ∈ keys c) as Hin by (apply elem_of_keys; eauto).
  pose proof (nokey_keys c k i p l HI Hh Hi Hc) as Hnk.
  destruct Hpost as [(l1 & a & l2 & r' & x' & h' & -> & Hr' & Hk' & Hno & Hx'
                      & HVx' & Hrel & ->)|[[Hno _]|[Hno _]]];
    try (by apply Hnk in Hno).
  assert (a = Value x) as ->.
  { apply (inv_keys _ _ HI _ _ r' r); try done; try congruence.
    - rewrite <-HVx'. by apply list_elem_of_fmap_2.
    - by apply list_elem_of_fmap_2. }
  rewrite Hr in Hr'. injection Hr' as <-.
  assert (timers (touched (refreshed c (Value x) r v
            (mkTimer (now c + ttl) (Z.of_nat i) k Armed)) i (Value x) x' h')
          !! t r = Some (set_status Stopped tm)) as Hstop.
  { simpl. rewrite lookup_app_l
      by (rewrite length_alter; by eapply lookup_lt_Some).
    rewrite list_lookup_alter_eq, Htm. simpl. unfold stop_timer.
    by rewrite decide_True. }
  eexists. split; [done|]. split; [done|]. intros Hex.
  assert (timers c'' !! t r = Some (set_status Stopped tm)) as Htm''.
  { by eapply (exec_stopped evs _ c''). }
  split_and!; [done|..].
  - unfold expire. rewrite Htm''. case_decide as Hd; [|done].
    by destruct Hd.
  - unfold run_func. rewrite Htm''. by case_decide.
Qed.

(** ** Reachable states, one step further *)

Lemma exec_snoc evs ev c c1 c2 :
  exec zero mh evs c = Ok () c1 → step zero mh ev c1 = Ok () c2 →
  exec zero mh (evs ++ [ev]) c = Ok () c2.
Proof.
  revert c. induction evs as [|ev' evs IH]; intros c Hex Hstep; simpl in *.
  - injection Hex as <-. unfold mbind, M_bind. by rewrite Hstep.
  - unfold mbind, M_bind in *.
    destruct (step zero mh ev' c) as [[] c'| | |]; try done. by apply IH.
Qed.

Lemma reachable_step ev c c' :
  reachable zero mh c → step zero mh ev c = Ok () c' → reachable zero mh c'.
Proof.
  intros (sd & evs & Hex) Hstep. exists sd, (evs ++ [ev]).
  by eapply exec_snoc.
Qed.

(** X1.  In every state the cache can reach, [Get] and [Set] return: the
    chain walk of [lookup] ends, no nil pointer is followed, no index is
    out of range, the mutex is free before and after, and the state they
    leave is again one the cache can reach. *)
Theorem X1_Get_Set_always_return c k v ttl :
  reachable zero mh c →
  m c = false
  ∧ (∃ res c', Get zero mh k c = Ok res c' ∧ m c' = false
               ∧ reachable zero mh c')
  ∧ (∃ c', Set_ mh k v ttl c = Ok () c' ∧ m c' = false
           ∧ reachable zero mh c').
Proof.
  intros Hreach. destruct (reachable_Inv c Hreach) as [HI Hm].
  split; [done|]. split.
  - destruct (Get_Inv c k HI Hm) as (res & c' & Heq & _ & Hm' & _).
    exists res, c'. split_and!; try done.
    apply (reachable_step (EvGet k) c c' Hreach). simpl.
    unfold mbind, M_bind. by rewrite Heq.
  - destruct (Set_Inv c k v ttl HI Hm) as (c' & Heq & _ & Hm' & _).
    exists c'. split_and!; try done.
    by apply (reachable_step (EvSet k v ttl) c c' Hreach).
Qed.

(** X2.  A key is held by at most one record of the recency list, so it
    has at most one value. *)
Theorem X2_keys_unique c :
  reachable zero mh c →
  NoDup (keys c)
  ∧ ∀ k v v', (k, v) ∈ entries c → (k, v') ∈ entries c → v = v'.
Proof.
  intros [HI _]%reachable_Inv. split; [by apply NoDup_keys|].
  intros k v v'. by apply entries_unique.
Qed.

(** X3.  [c.size] counts the elements of the recency list, each element
    holds a record, the record points back to its element ([r.e]), and
    no record is held by two elements. *)
Theorem X3_size_counts_list_elements c :
  reachable zero mh c →
  size c = Z.of_nat (length (lru c))
  ∧ length (entries c) = length (lru c)
  ∧ NoDup (live c)
  ∧ ∀ x, x ∈ lru c → ∃ r, heap c !! Value x = Some r ∧ e r = Some (eid x).
Proof.
  intros [HI _]%reachable_Inv. split_and!.
  - apply HI.
  - by apply length_entries.
  - apply HI.
  - intros x Hx. destruct (inv_e _ _ HI x Hx) as (r & ? & ? & _). eauto.
Qed.

(** X4.  Every record on the chain of bucket [i] is one of the recency
    list and its key hashes to [i]; two records on a chain have different
    keys. *)
Theorem X4_records_sit_in_their_hash_bucket c (i : nat) a :
  reachable zero mh c → a ∈ bucket c i →
  ∃ r, heap c !! a = Some r ∧ a ∈ live c
       ∧ hash_of mh (seed c) (key r) = Z.of_nat i
       ∧ ∀ b rb, b ∈ bucket c i → heap c !! b = Some rb →
                 key rb = key r → b = a.
Proof.
  intros [HI _]%reachable_Inv Ha.
  destruct (data c !! i) as [p|] eqn:Hp.
  - destruct (inv_bucket _ _ HI i p Hp) as (l & Hc & Hnd & Hmem).
    rewrite (bucket_eq c i p l HI Hp Hc) in *.
    destruct (proj1 (Hmem a) Ha) as (r & Hlive & Hr & Hh).
    exists r. split_and!; try done.
    intros b rb Hb Hrb Hk.
    destruct (proj1 (Hmem b) Hb) as (rb' & Hlb & _ & _).
    by apply (inv_keys _ _ HI b a rb r).
  - rewrite bucket_oob in Ha by done. by apply elem_of_nil in Ha.
Qed.

(** X5.  The seed of a cache never changes, so a key hashes to the same
    bucket, one of the [MaxCacheSize] buckets, all through the life of
    the cache. *)
Theorem X5_hash_is_stable sd evs c k :
  exec zero mh evs (NewCache sd) = Ok () c →
  seed c = sd
  ∧ hash mh k c = Ok (hash_of mh sd k) c
  ∧ 0 ≤ hash_of mh sd k < MaxCacheSize
  ∧ is_Some (data c !! Z.to_nat (hash_of mh sd k)).
Proof.
  intros Hex.
  destruct (exec_Inv evs _ c (Inv_NewCache sd) eq_refl Hex) as (HI & _ & Hs).
  pose proof (hash_of_range sd k) as Hr.
  split; [done|]. split; [unfold hash, gets; by rewrite Hs|].
  split; [done|].
  apply lookup_lt_is_Some. rewrite (inv_len _ _ HI). lia.
Qed.

(** X6.  The recency list is in the order of the last touches: of two
    keys of the cache, the one nearer the front has been touched (set, or
    found by [Get]) after the last touch of the other. *)
Theorem X6_recency_list_is_in_touch_order sd evs c k1 k2 :
  exec zero mh evs (NewCache sd) = Ok () c →
  [k1; k2] `sublist_of` keys c →
  touched_after (touch_log zero mh evs (NewCache sd)) k1 k2.
Proof.
  intros Hex Hsub.
  destruct (recency_order evs _ c k1 k2 (Inv_NewCache sd) eq_refl Hex Hsub)
    as [?|[_ Hnil]]; [done|].
  by apply sublist_nil_r in Hnil.
Qed.

(** ** Timers and the records that own them *)

Lemma stop_timer_cb tm :
  cb_idx (stop_timer tm) = cb_idx tm ∧ cb_key (stop_timer tm) = cb_key tm.
Proof. unfold stop_timer. by case_decide. Qed.

(** Two records of the recency list do not share a timer. *)
Lemma owner_unique c x y rx ry :
  Inv mh c → TInv mh c → x ∈ lru c → y ∈ lru c →
  heap c !! Value x = Some rx → heap c !! Value y = Some ry →
  t rx = t ry → x = y.
Proof.
  intros HI HT Hx Hy Hrx Hry Ht.
  destruct (tinv_own _ _ HT x rx Hx Hrx) as (tm & Htm & Hk & _).
  destruct (tinv_own _ _ HT y ry Hy Hry) as (tm' & Htm' & Hk' & _).
  rewrite Ht, Htm' in Htm. injection Htm as ->.
  apply (Value_inj (lru c)); [apply HI|done..|].
  apply (inv_keys _ _ HI _ _ rx ry); try done;
    try (by apply list_elem_of_fmap_2).
  congruence.
Qed.

Lemma TInv_NewCache sd : TInv mh (NewCache (V:=V) sd).
Proof. split; [by intros x r ?%elem_of_nil|by intros tm ?%elem_of_nil]. Qed.

Lemma TInv_payload c c' :
  TInv mh c → seed c' = seed c → timers c' = timers c →
  (∀ x, x ∈ lru c' → x ∈ lru c) → same_payload (heap c) (heap c') →
  TInv mh c'.
Proof.
  intros HT Hs Hts Hl Hsp. split.
  - intros x r' Hx Hr'.
    destruct (same_payload_lookup _ _ _ _ (same_payload_sym _ _ Hsp) Hr')
      as (r & Hr & Heq).
    destruct (tinv_own _ _ HT x r (Hl x Hx) Hr) as (tm & Htm & Hk & Hst).
    exists tm. unfold owns_timer. rewrite Hts.
    assert (t r' = t r) as -> by (symmetry; exact (f_equal t Heq)).
    assert (key r' = key r) as -> by (symmetry; exact (f_equal key Heq)).
    done.
  - intros tm. rewrite Hts, Hs. apply HT.
Qed.

Lemma TInv_refreshed c x r v tm :
  Inv mh c → TInv mh c → x ∈ lru c → heap c !! Value x = Some r →
  cb_key tm = key r → cb_idx tm = hash_of mh (seed c) (key r) →
  status tm = Armed →
  TInv mh (refreshed c (Value x) r v tm).
Proof.
  intros HI HT Hx Hr Hk Hi Hst. split.
  - intros y ry Hy Hry. simpl in Hy, Hry. unfold owns_timer. simpl.
    destruct (decide (Value y = Value x)) as [Heq|Hne].
    + rewrite Heq, lookup_insert_eq in Hry. injection Hry as <-. simpl.
      exists tm. split_and!; [|done|by left].
      rewrite lookup_app_r by (by rewrite length_alter).
      by rewrite length_alter, Nat.sub_diag.
    + rewrite lookup_insert_ne in Hry by done.
      destruct (tinv_own _ _ HT y ry Hy Hry) as (tm0 & Htm0 & Hk0 & Hst0).
      exists tm0. split_and!; try done.
      rewrite lookup_app_l
        by (rewrite length_alter; by eapply lookup_lt_Some).
      rewrite list_lookup_alter_ne; [done|].
      intros Ht. apply Hne. f_equal.
      by apply (owner_unique c y x ry r).
  - intros tm' Htm'. simpl in Htm'. simpl.
    apply elem_of_app in Htm' as [Htm'|Htm'].
    + apply elem_of_alter_timer in Htm' as (tm0 & Htm0 & [->| ->]).
      * by apply HT.
      * destruct (stop_timer_cb tm0) as [-> ->]. by apply HT.
    + apply list_elem_of_singleton in Htm' as ->. by rewrite Hk.
Qed.

Lemma TInv_deleted c (i : nat) x r h' p' :
  Inv mh c → TInv mh c → x ∈ lru c → heap c !! Value x = Some r →
  same_payload (heap c) h' → TInv mh (deleted c i x r h' p').
Proof.
  intros HI HT Hx Hr Hsp. split.
  - intros y ry' Hy Hry'. simpl in Hy, Hry'.
    apply list_elem_of_filter in Hy as [Hne Hy].
    destruct (same_payload_lookup _ _ _ _ (same_payload_sym _ _ Hsp) Hry')
      as (ry & Hry & Heq).
    destruct (tinv_own _ _ HT y ry Hy Hry) as (tm0 & Htm0 & Hk0 & Hst0).
    exists tm0. unfold owns_timer. simpl.
    assert (t ry' = t ry) as -> by (symmetry; exact (f_equal t Heq)).
    assert (key ry' = key ry) as -> by (symmetry; exact (f_equal key Heq)).
    split_and!; try done.
    rewrite list_lookup_alter_ne; [done|].
    intros Ht. apply Hne. f_equal.
    by apply (owner_unique c y x ry r).
  - intros tm' Htm'. simpl in Htm'. simpl.
    apply elem_of_alter_timer in Htm' as (tm0 & Htm0 & [->| ->]).
    + by apply HT.
    + destruct (stop_timer_cb tm0) as [-> ->]. by apply HT.
Qed.

Lemma TInv_inserted c (i : nat) a el k v p tm :
  Inv mh c → TInv mh c → heap c !! a = None →
  cb_key tm = k → cb_idx tm = hash_of mh (seed c) k → status tm = Armed →
  TInv mh (inserted c i a el
             (mkRecord k v p (length (timers c)) (Some el)) tm).
Proof.
  intros HI HT Ha Hk Hi Hst. split.
  - intros y ry Hy Hry. simpl in Hy, Hry. unfold owns_timer. simpl.
    apply elem_of_cons in Hy as [->|Hy].
    + simpl in Hry. rewrite lookup_insert_eq in Hry. injection Hry as <-.
      simpl. exists tm. split_and!; [|done|by left].
      rewrite lookup_app_r by done. by rewrite Nat.sub_diag.
    + destruct (inv_e _ _ HI y Hy) as (ry0 & Hry0 & _).
      rewrite lookup_insert_ne in Hry by congruence.
      destruct (tinv_own _ _ HT y ry Hy Hry) as (tm0 & Htm0 & Hk0 & Hst0).
      exists tm0. split_and!; try done.
      rewrite lookup_app_l by (by eapply lookup_lt_Some). done.
  - intros tm' Htm'. simpl in Htm'. simpl.
    apply elem_of_app in Htm' as [Htm'|Htm'].
    + by apply HT.
    + apply list_elem_of_singleton in Htm' as ->. by rewrite Hk.
Qed.

Lemma deleteWithLock_TInv c idx k c' :
  Inv mh c → m c = false → TInv mh c →
  deleteWithLock idx k c = Ok () c' → TInv mh c'.
Proof.
  intros HI Hm HT Hdel.
  destruct (decide (0 ≤ idx < Z.of_nat (length (data c)))) as [Hidx|Hidx].
  - assert (∃ i : nat, idx = Z.of_nat i ∧ (i < length (data c))%nat)
      as (i & -> & Hi) by (exists (Z.to_nat idx); lia).
    destruct (deleteWithLock_spec c i k HI Hm Hi)
      as (p & l & Hp & Hc & [[Hno Heq]|(l1 & a & l2 & r & x & h' & p' & ->
          & Hr & Hk & Hno & Hx & HVx & Hun & Heq)]);
      rewrite Heq in Hdel; injection Hdel as <-; [done|].
    subst a. apply TInv_deleted; try done. apply Hun.
  - exfalso. revert Hdel.
    unfold deleteWithLock, delete, lookup, mustBeLocked, TryLock, Lock,
      data_load, mbind, M_bind, mret, M_ret.
    rewrite Hm. simpl. case_bool_decide; [|done].
    destruct (data c !! Z.to_nat idx) eqn:Hl; [|done].
    apply lookup_lt_Some in Hl. lia.
Qed.

Lemma filter_without_id (es : list (string * V)) k :
  k ∉ es.*1 → filter (λ kv, kv.1 ≠ k) es = es.
Proof.
  intros Hk. induction es as [|[k' v'] es IH]; [done|].
  rewrite filter_cons. simpl in *.
  apply not_elem_of_cons in Hk as [Hne Hk].
  rewrite decide_True by done. by rewrite IH.
Qed.

(** Deleting a key from the bucket it hashes to, as the function of a
    timer does: the key is gone from the cache, the other keys stay as
    they are and in the same order. *)
Lemma deleteWithLock_abs c k :
  Inv mh c → m c = false →
  ∃ c', deleteWithLock (hash_of mh (seed c) k) k c = Ok () c'
    ∧ Inv mh c' ∧ m c' = false
    ∧ entries c' = filter (λ kv, kv.1 ≠ k) (entries c)
    ∧ size c' = size c - (if decide (k ∈ keys c) then 1 else 0)
    ∧ (∀ tid tm, timers c !! tid = Some tm → status tm ≠ Armed →
         timers c' !! tid = Some tm).
Proof.
  intros HI Hm.
  destruct (Inv_bucket_hash c k HI) as (i & p & l & Hh & Hi & Hc & Hnd & Hmem).
  rewrite Hh.
  destruct (deleteWithLock_spec c i k HI Hm (lookup_lt_Some _ _ _ Hi))
    as (p0 & l0 & Hp0 & Hc0 & Hcases).
  rewrite Hi in Hp0. injection Hp0 as <-.
  pose proof (nokey_keys c k i p l0 HI Hh Hi Hc0) as Hnk.
  destruct Hcases as [[Hno Heq]|(l1 & a & l2 & r & x & h' & p' & ->
          & Hr & Hk & Hno & Hx & HVx & Hun & Heq)]; rewrite Heq.
  - apply Hnk in Hno. exists c. split_and!; try done.
    + by rewrite filter_without_id.
    + rewrite decide_False by done. lia.
  - subst a.
    destruct (Inv_bucket_chain c i p _ HI Hi Hc0) as [Hnd0 Hmem0].
    assert (Inv mh (deleted c i x r h' p')) as HI'
      by (by eapply Inv_deleted).
    eexists. split; [done|]. split_and!; try done.
    + rewrite <-Hk. apply entries_deleted; try done. apply Hun.
    + assert (k ∈ keys c) as Hin by (apply elem_of_keys; eauto).
      rewrite decide_True by done. simpl. unfold uint64.
      pose proof (inv_size _ _ HI) as Hsz. pose proof (inv_cap _ _ HI) as Hcap.
      assert (0 < length (lru c))%nat.
      { destruct (lru c); [by apply elem_of_nil in Hx|simpl; lia]. }
      apply Z.mod_small. unfold MaxCacheSize in Hcap. lia.
    + intros tid tm Htm Hst. simpl.
      destruct (decide (t r = tid)) as [<-|Hne].
      * rewrite list_lookup_alter_eq, Htm. simpl. unfold stop_timer.
        by rewrite decide_False.
      * by rewrite list_lookup_alter_ne.
Qed.

Lemma step_TInv ev c c' :
  Inv mh c → m c = false → TInv mh c → step zero mh ev c = Ok () c' →
  TInv mh c'.
Proof.
  intros HI Hm HT Hstep.
  destruct ev as [k|k v ttl|idx k|d|tid|tid]; simpl in Hstep.
  - unfold mbind, M_bind in Hstep.
    destruct (Get_spec c k HI Hm)
      as (i & p & l & Hh & Hi & Hc & [[Hno Heq]|(l1 & a & l2 & r & x & h' & ->
          & Hr & Hk & Hno & Hx & HVx & Hrel & Heq)]);
      rewrite Heq in Hstep; injection Hstep as <-; [done|].
    apply (TInv_payload c); try done; [|apply Hrel].
    simpl. intros y [->|[_ Hy]%list_elem_of_filter]%elem_of_cons; done.
  - destruct (Set_spec c k v ttl HI Hm)
      as (i & p & l & Hh & Hi & Hc & c1 & Heq & Hpost).
    rewrite Heq in Hstep. injection Hstep as <-.
    destruct Hpost as [(l1 & a & l2 & r & x & h' & -> & Hr & Hk & Hno & Hx & HVx
                        & Hrel & ->)
                      |[(Hno & Hsz & a & el & Ha & Hel & ->)
                       |(Hno & Hsz & xv & rv & j & pj & l1 & l2 & hv & pv' & p1
                         & a & el & Hlast & Hrv & Hhj & Hj & Hcj & Hun & Hp1
                         & Ha & Hel & ->)]].
    + subst a.
      apply (TInv_payload (refreshed c (Value x) r v
               (mkTimer (now c + ttl) (Z.of_nat i) k Armed))); try done.
      * apply TInv_refreshed; try done; simpl; congruence.
      * simpl. intros y [->|[_ Hy]%list_elem_of_filter]%elem_of_cons; done.
      * apply Hrel.
    + apply TInv_inserted; try done; simpl; congruence.
    + assert (xv ∈ lru c) as Hxv.
      { apply list_elem_of_lookup. exists (pred (length (lru c))).
        by rewrite <-last_lookup. }
      destruct (Inv_bucket_chain c j pj _ HI Hj Hcj) as [Hnd Hmem].
      apply TInv_inserted; try done.
      * by eapply Inv_deleted.
      * apply TInv_deleted; try done. apply Hun.
  - by eapply deleteWithLock_TInv.
  - unfold tick in Hstep. case_decide; [|done]. injection Hstep as <-.
    split; [apply HT|]. intros tm. apply HT.
  - unfold expire in Hstep.
    destruct (timers c !! tid) as [tm|] eqn:Htm; [|done].
    case_decide as Harm; [|done]. injection Hstep as <-. split.
    + intros y ry Hy Hry. simpl in Hy, Hry.
      destruct (tinv_own _ _ HT y ry Hy Hry) as (tm0 & Htm0 & Hk0 & Hst0).
      unfold owns_timer. simpl.
      destruct (decide (tid = t ry)) as [->|Hne].
      * rewrite list_lookup_insert_eq by (by eapply lookup_lt_Some).
        rewrite Htm0 in Htm. injection Htm as ->.
        exists (set_status Running tm). split_and!; [done|done|by right].
      * rewrite list_lookup_insert_ne by done. by exists tm0.
    + intros tm' (j & Hj)%list_elem_of_lookup. simpl in Hj. simpl.
      destruct (decide (j = tid)) as [->|Hne].
      * rewrite list_lookup_insert_eq in Hj by (by eapply lookup_lt_Some).
        injection Hj as <-. simpl. apply HT. by eapply list_elem_of_lookup_2.
      * rewrite list_lookup_insert_ne in Hj by done.
        apply HT. by eapply list_elem_of_lookup_2.
  - unfold run_func in Hstep.
    destruct (timers c !! tid) as [tm|] eqn:Htm; [|done].
    case_decide as Hrun; [|done]. unfold mbind, M_bind in Hstep.
    destruct (deleteWithLock (cb_idx tm) (cb_key tm) c) as [[] c1| | |] eqn:Hd;
      try done.
    injection Hstep as <-.
    pose proof (deleteWithLock_TInv c _ _ c1 HI Hm HT Hd) as HT1.
    destruct (deleteWithLock_abs c (cb_key tm) HI Hm)
      as (c1' & Hd' & HI1 & Hm1 & Hent & _ & Hkeep).
    rewrite <-(tinv_cb _ _ HT tm) in Hd' by (by eapply list_elem_of_lookup_2).
    rewrite Hd in Hd'. injection Hd' as <-.
    split.
    + intros y ry Hy Hry. simpl in Hy, Hry.
      destruct (tinv_own _ _ HT1 y ry Hy Hry) as (tm1 & Htm1 & Hk1 & Hst1).
      exists tm1. unfold owns_timer. simpl. split_and!; try done.
      rewrite list_lookup_alter_ne; [done|]. intros ->.
      rewrite (Hkeep (t ry) tm Htm) in Htm1 by congruence.
      injection Htm1 as <-.
      assert (key ry ∈ keys c1) as Hin by (apply elem_of_keys; eauto).
      unfold keys in Hin. rewrite Hent, Hk1 in Hin.
      by apply (proj2 (fst_filter_sublist (entries c) (key ry))).
    + intros tm' Htm'. simpl in Htm'. simpl.
      apply elem_of_alter_timer in Htm' as (tm0 & Htm0 & [->| ->]); simpl;
        by apply HT1.
Qed.

Lemma exec_TInv evs c c' :
  Inv mh c → m c = false → TInv mh c → exec zero mh evs c = Ok () c' →
  TInv mh c'.
Proof.
  revert c. induction evs as [|ev evs IH]; intros c HI Hm HT Hex; simpl in Hex.
  - by injection Hex as <-.
  - unfold mbind, M_bind in Hex.
    destruct (step zero mh ev c) as [[] c1| | |] eqn:Hstep; try done.
    destruct (step_Inv ev c c1 HI Hm Hstep) as (HI1 & Hm1 & _).
    apply (IH c1 HI1 Hm1); [|done]. by apply (step_TInv ev c c1).
Qed.

Lemma reachable_TInv c : reachable zero mh c → TInv mh c.
Proof.
  intros (sd & evs & Hex).
  by apply (exec_TInv evs _ c (Inv_NewCache sd) eq_refl (TInv_NewCache sd)).
Qed.

(** X7.  Every record of the recency list owns a timer of its own: one
    that has not been stopped, whose function has not finished, and whose
    function deletes the key of the record from the bucket the key hashes
    to.  No key stays in the cache without a timer pending for it. *)
Theorem X7_every_record_owns_a_pending_timer c x r :
  reachable zero mh c → x ∈ lru c → heap c !! Value x = Some r →
  ∃ tm, timers c !! t r = Some tm
    ∧ cb_key tm = key r ∧ cb_idx tm = hash_of mh (seed c) (key r)
    ∧ (status tm = Armed ∨ status tm = Running)
    ∧ ∀ y ry, y ∈ lru c → heap c !! Value y = Some ry → t ry = t r → y = x.
Proof.
  intros Hreach Hx Hr. destruct (reachable_Inv c Hreach) as [HI Hm].
  pose proof (reachable_TInv c Hreach) as HT.
  destruct (tinv_own _ _ HT x r Hx Hr) as (tm & Htm & Hk & Hst).
  exists tm. split_and!; try done.
  - rewrite <-Hk. apply HT. by eapply list_elem_of_lookup_2.
  - intros y ry Hy Hry Ht. by apply (owner_unique c y x ry r).
Qed.

Lemma exec_cons_Ok ev evs c c1 :
  step zero mh ev c = Ok () c1 →
  exec zero mh (ev :: evs) c = exec zero mh evs c1.
Proof. intros Hstep. simpl. unfold mbind, M_bind. by rewrite Hstep. Qed.

Lemma exec_cons_Blocked ev evs c :
  step zero mh ev c = Blocked → exec zero mh (ev :: evs) c = Blocked.
Proof. intros Hstep. simpl. unfold mbind, M_bind. by rewrite Hstep. Qed.

(** The function of a timer, once started, deletes the key it was made
    for. *)
Lemma run_func_abs c tid tm :
  Inv mh c → m c = false → timers c !! tid = Some tm → status tm = Running →
  cb_idx tm = hash_of mh (seed c) (cb_key tm) →
  ∃ c', run_func tid c = Ok () c' ∧ Inv mh c' ∧ m c' = false
    ∧ entries c' = filter (λ kv, kv.1 ≠ cb_key tm) (entries c)
    ∧ size c' = size c - (if decide (cb_key tm ∈ keys c) then 1 else 0)
    ∧ timers c' !! tid = Some (set_status Finished tm).
Proof.
  intros HI Hm Htm Hrun Hcb.
  destruct (deleteWithLock_abs c (cb_key tm) HI Hm)
    as (c1 & Hd & HI1 & Hm1 & Hent & Hsz & Hkeep).
  rewrite <-Hcb in Hd.
  assert (step zero mh (EvRun tid) c
          = Ok () (set_timers (alter (set_status Finished) tid (timers c1)) c1))
    as Hstep.
  { simpl. unfold run_func. rewrite Htm. rewrite decide_True by done.
    unfold mbind, M_bind. by rewrite Hd. }
  destruct (step_Inv _ _ _ HI Hm Hstep) as (HI' & Hm' & _).
  eexists. split; [exact Hstep|]. split_and!; try done.
  simpl. rewrite list_lookup_alter_eq, (Hkeep tid tm Htm) by congruence.
  done.
Qed.

(** X8.  When the function of a timer runs, the key the timer was made
    for is deleted from the cache, whichever [Set] stored the value it
    holds now; the other keys stay as they are and in the same order; the
    function runs once. *)
Theorem X8_timer_function_deletes_its_key c tid tm :
  reachable zero mh c → timers c !! tid = Some tm → status tm = Running →
  ∃ c', run_func tid c = Ok () c' ∧ m c' = false
    ∧ entries c' = without (cb_key tm) (entries c)
    ∧ size c' = size c - (if decide (cb_key tm ∈ keys c) then 1 else 0)
    ∧ timers c' !! tid = Some (set_status Finished tm)
    ∧ run_func tid c' = Blocked.
Proof.
  intros Hreach Htm Hrun. destruct (reachable_Inv c Hreach) as [HI Hm].
  pose proof (reachable_TInv c Hreach) as HT.
  destruct (run_func_abs c tid tm HI Hm Htm Hrun)
    as (c' & Heq & _ & Hm' & Hent & Hsz & Htm');
    [apply HT; by eapply list_elem_of_lookup_2|].
  exists c'. split_and!; try done.
  unfold run_func. rewrite Htm'. by rewrite decide_False.
Qed.

Lemma alter_stop_lookup (ts : list Timer) tid0 tid tm0 :
  ts !! tid = Some tm0 →
  alter stop_timer tid0 ts !! tid = Some tm0
  ∨ (status tm0 = Armed
     ∧ alter stop_timer tid0 ts !! tid = Some (set_status Stopped tm0)).
Proof.
  intros Htm. destruct (decide (tid0 = tid)) as [->|Hne].
  - rewrite list_lookup_alter_eq, Htm. simpl. unfold stop_timer.
    case_decide; [by right|by left].
  - left. by rewrite list_lookup_alter_ne.
Qed.

(** What [Set] does to the timers, and the record it leaves at the front
    of the recency list. *)
Lemma Set_arms c k v ttl :
  Inv mh c → m c = false →
  ∃ c' x r, Set_ mh k v ttl c = Ok () c' ∧ Inv mh c' ∧ m c' = false
    ∧ now c' = now c ∧ seed c' = seed c
    ∧ length (timers c') = S (length (timers c))
    ∧ timers c' !! length (timers c)
      = Some (mkTimer (now c + ttl) (hash_of mh (seed c) k) k Armed)
    ∧ (∀ tid tm, timers c !! tid = Some tm →
         timers c' !! tid = Some tm
         ∨ (status tm = Armed
            ∧ timers c' !! tid = Some (set_status Stopped tm)))
    ∧ head (lru c') = Some x ∧ heap c' !! Value x = Some r
    ∧ key r = k ∧ val r = v ∧ t r = length (timers c).
Proof.
  intros HI Hm.
  destruct (Set_spec c k v ttl HI Hm)
    as (i & p & l & Hh & Hi & Hc & c' & Heq & Hpost).
  destruct (Set_post_Inv _ _ _ _ _ _ _ _ HI Hh Hi Hc Hpost)
    as (HI' & Hm' & Hsd & Hnow).
  rewrite Hh.
  destruct Hpost as [(l1 & a & l2 & r & x & h' & -> & Hr & Hk & Hno & Hx & HVx
                      & Hrel & ->)
                    |[(Hno & Hsz & a & el & Ha & Hel & ->)
                     |(Hno & Hsz & xv & rv & j & pj & l1 & l2 & hv & pv' & p1
                       & a & el & Hlast & Hrv & Hhj & Hj & Hcj & Hun & Hp1
                       & Ha & Hel & ->)]].
  - pose proof Hrel as (_ & _ & Hsp & _).
    destruct (same_payload_lookup _ _ a _ Hsp (lookup_insert_eq _ _ _))
      as (r' & Hr' & Hpay).
    eexists _, x, r'. split; [done|]. split_and!; try done; try congruence.
    + simpl. by rewrite length_app, length_alter, Nat.add_comm.
    + simpl. rewrite lookup_app_r by (by rewrite length_alter).
      by rewrite length_alter, Nat.sub_diag.
    + intros tid tm Htm. simpl.
      rewrite lookup_app_l
        by (rewrite length_alter; by eapply lookup_lt_Some).
      by apply alter_stop_lookup.
    + simpl. by rewrite HVx.
    + rewrite <-Hk. exact (f_equal key Hpay).
    + exact (f_equal val Hpay).
    + exact (f_equal t Hpay).
  - eexists _, (mkElement el a), _. split; [done|]. split_and!; try done.
    + simpl. by rewrite length_app, Nat.add_comm.
    + simpl. rewrite lookup_app_r by done. by rewrite Nat.sub_diag.
    + intros tid tm Htm. simpl. left.
      rewrite lookup_app_l by (by eapply lookup_lt_Some). done.
    + simpl. by rewrite lookup_insert_eq.
    + done.
    + done.
    + done.
  - eexists _, (mkElement el a), _. split; [done|]. split_and!; try done.
    + simpl. by rewrite length_app, length_alter, Nat.add_comm.
    + simpl. rewrite lookup_app_r by (by rewrite length_alter).
      by rewrite length_alter, Nat.sub_diag.
    + intros tid tm Htm. simpl.
      rewrite lookup_app_l
        by (rewrite length_alter; by eapply lookup_lt_Some).
      by apply alter_stop_lookup.
    + simpl. by rewrite lookup_insert_eq.
    + done.
    + done.
    + simpl. by rewrite length_alter.
Qed.

(** X9.  Every [Set] arms exactly one new timer: for the duration [ttl]
    from now, to delete the key from the bucket it hashes to.  The record
    of the key, now at the front of the recency list, holds this timer.
    Of the timers there were, [Set] changes none, except that it may stop
    armed ones. *)
Theorem X9_Set_arms_one_timer c k v ttl :
  reachable zero mh c →
  ∃ c' x r, Set_ mh k v ttl c = Ok () c'
    ∧ now c' = now c
    ∧ length (timers c') = S (length (timers c))
    ∧ timers c' !! length (timers c)
      = Some (mkTimer (now c + ttl) (hash_of mh (seed c) k) k Armed)
    ∧ (∀ tid tm, timers c !! tid = Some tm →
         timers c' !! tid = Some tm
         ∨ (status tm = Armed
            ∧ timers c' !! tid = Some (set_status Stopped tm)))
    ∧ head (lru c') = Some x ∧ heap c' !! Value x = Some r
    ∧ key r = k ∧ val r = v ∧ t r = length (timers c).
Proof.
  intros [HI Hm]%reachable_Inv.
  destruct (Set_arms c k v ttl HI Hm)
    as (c' & x & r & ? & _ & _ & ? & _ & ? & ? & ? & ? & ? & ? & ? & ?).
  exists c', x, r. done.
Qed.

(** X10.  Expiry.  After [Set] with the duration [ttl], the timer of the
    key cannot go off before [ttl] has passed.  Once [ttl] has passed it
    can, and when its function has run the key is gone from the cache:
    [Get] does not find it; the other keys are as they were. *)
Theorem X10_key_expires_after_ttl c k v ttl d :
  reachable zero mh c → 0 ≤ d → ttl ≤ d →
  let tid := length (timers c) in
  ∃ c1 c4,
    Set_ mh k v ttl c = Ok () c1
    ∧ run_func tid c1 = Blocked
    ∧ (∀ d', 0 ≤ d' < ttl →
         exec zero mh [EvTick d'; EvExpire tid] c1 = Blocked)
    ∧ exec zero mh [EvTick d; EvExpire tid; EvRun tid] c1 = Ok () c4
    ∧ entries c4 = without k (entries c1)
    ∧ Get zero mh k c4 = Ok (zero, false) c4.
Proof.
  intros [HI Hm]%reachable_Inv Hd Httl tid.
  destruct (Set_arms c k v ttl HI Hm)
    as (c1 & x & r & Hset & HI1 & Hm1 & Hnow & Hsd & Hlen & Htm & _).
  fold tid in Htm.
  set (tm := mkTimer (now c + ttl) (hash_of mh (seed c) k) k Armed) in *.
  assert (∀ d', 0 ≤ d' →
            step zero mh (EvTick d') c1 = Ok () (set_now (now c1 + d') c1))
    as Htick.
  { intros d' Hd'. simpl. unfold tick. by rewrite decide_True. }
  set (c2 := set_now (now c1 + d) c1).
  set (c3 := set_timers (<[tid:=set_status Running tm]> (timers c2)) c2).
  assert (step zero mh (EvExpire tid) c2 = Ok () c3) as Hexp.
  { simpl. unfold expire. change (timers c2) with (timers c1). rewrite Htm.
    rewrite decide_True; [done|]. simpl. split; [done|lia]. }
  destruct (step_Inv _ _ _ HI1 Hm1 (Htick d Hd)) as (HI2 & Hm2 & _).
  destruct (step_Inv _ _ _ HI2 Hm2 Hexp) as (HI3 & Hm3 & _).
  destruct (run_func_abs c3 tid (set_status Running tm) HI3 Hm3)
    as (c4 & Hrun & HI4 & Hm4 & Hent & _);
    [|done|simpl; by rewrite Hsd|].
  { unfold c3. simpl.
    apply list_lookup_insert_eq. by eapply lookup_lt_Some. }
  exists c1, c4. split; [done|]. split_and!.
  - unfold run_func. rewrite Htm. by rewrite decide_False.
  - intros d' [Hd0 Hd']. rewrite (exec_cons_Ok _ _ _ _ (Htick d' Hd0)).
    apply exec_cons_Blocked. simpl. unfold expire. simpl. rewrite Htm.
    rewrite decide_False; [done|]. simpl. intros [_ ?]. lia.
  - rewrite (exec_cons_Ok _ _ _ _ (Htick d Hd)).
    rewrite (exec_cons_Ok _ _ _ _ Hexp).
    by rewrite (exec_cons_Ok (EvRun tid) [] c3 c4 Hrun).
  - exact Hent.
  - destruct (Get_abs c4 k HI4 Hm4)
      as [(v' & c5 & Hin & _)|[_ Heq]]; [|done].
    exfalso. apply (proj2 (fst_filter_sublist (entries c3) k)).
    change (cb_key (set_status Running tm)) with k in Hent.
    rewrite <-Hent. by apply (list_elem_of_fmap_2 fst) in Hin.
Qed.

(** X11.  The reset case of [Set] calls [Stop] on the timer the record of
    the key held.  When that timer was still armed it is stopped, and then
    it never goes off, whatever happens next. *)
Theorem X11_refresh_stops_the_old_timer c x r v ttl :
  reachable zero mh c → x ∈ lru c → heap c !! Value x = Some r →
  ∃ tm c', timers c !! t r = Some tm
    ∧ Set_ mh (key r) v ttl c = Ok () c'
    ∧ timers c' !! t r = Some (stop_timer tm)
    ∧ (status tm = Armed →
       ∀ evs c'', exec zero mh evs c' = Ok () c'' →
         timers c'' !! t r = Some (set_status Stopped tm)
         ∧ expire (t r) c'' = Blocked ∧ run_func (t r) c'' = Blocked).
Proof.
  intros Hreach Hx Hr. destruct (reachable_Inv c Hreach) as [HI Hm].
  destruct (tinv_own _ _ (reachable_TInv c Hreach) x r Hx Hr)
    as (tm & Htm & _).
  destruct (Set_spec c (key r) v ttl HI Hm)
    as (i & p & l & Hh & Hi & Hc & c' & Hset & Hpost).
  destruct (Set_post_Inv _ _ _ _ _ _ _ _ HI Hh Hi Hc Hpost)
    as (HI' & Hm' & _). rewrite Hm in Hm'.
  assert (key r ∈ keys c) as Hin by (apply elem_of_keys; eauto).
  pose proof (nokey_keys c (key r) i p l HI Hh Hi Hc) as Hnk.
  destruct Hpost as [(l1 & a & l2 & r' & x' & h' & -> & Hr' & Hk' & Hno & Hx'
                      & HVx' & Hrel & ->)|[[Hno _]|[Hno _]]];
    try (by apply Hnk in Hno).
  assert (a = Value x) as ->.
  { apply (inv_keys _ _ HI _ _ r' r); try done.
    - rewrite <-HVx'. by apply list_elem_of_fmap_2.
    - by apply list_elem_of_fmap_2. }
  rewrite Hr in Hr'. injection Hr' as <-.
  assert (timers (touched (refreshed c (Value x) r v
            (mkTimer (now c + ttl) (Z.of_nat i) (key r) Armed))
            i (Value x) x' h')
          !! t r = Some (stop_timer tm)) as Hstop.
  { simpl. rewrite lookup_app_l
      by (rewrite length_alter; by eapply lookup_lt_Some).
    by rewrite list_lookup_alter_eq, Htm. }
  exists tm. eexists. split; [done|]. split; [done|]. split; [done|].
  intros Harm evs c'' Hex.
  unfold stop_timer in Hstop. rewrite decide_True in Hstop by done.
  assert (timers c'' !! t r = Some (set_status Stopped tm)) as Htm''.
  { by eapply (exec_stopped evs _ c''). }
  split_and!; [done|..].
  - unfold expire. rewrite Htm''. case_decide as Hd; [|done].
    by destruct Hd.
  - unfold run_func. rewrite Htm''. by case_decide.
Qed.

(** ** What [lookup], [Get] and [delete] leave alone *)

(** X12.  The contract of [lookup], called inside a transaction on a
    bucket of the cache: it changes nothing; [root] is the head of the
    chain; [rec] is the first record of the chain with the key, and
    [above] the record just before it, the one whose [below] is [rec]
    (nil when [rec] is the head); when no record of the chain has the
    key, [rec] is nil and [above] is the last record of the chain. *)
Theorem X12_lookup_contract c (i : nat) k :
  reachable zero mh c → Z.of_nat i < MaxCacheSize →
  ∃ rec above root,
    lookup (Z.of_nat i) k (locked c) = Ok (rec, above, root) (locked c)
    ∧ data c !! i = Some root
    ∧ match rec with
      | Some a =>
          ∃ l1 l2 r, bucket c i = l1 ++ a :: l2
            ∧ heap c !! a = Some r ∧ key r = k ∧ nokey (heap c) k l1
            ∧ above = last l1
            ∧ (l1 = [] → root = Some a)
            ∧ (∀ b rb, above = Some b → heap c !! b = Some rb →
                 below rb = Some a)
      | None => nokey (heap c) k (bucket c i) ∧ above = last (bucket c i)
      end.
Proof.
  intros [HI Hm]%reachable_Inv Hi.
  assert (i < length (data c))%nat as Hlt
    by (rewrite (inv_len _ _ HI); lia).
  destruct (lookup_lt_is_Some_2 _ _ Hlt) as [p Hp].
  destruct (inv_bucket _ _ HI i p Hp) as (l & Hc & Hnd & Hmem).
  rewrite (bucket_eq c i p l HI Hp Hc).
  destruct (lookup_spec_eq (locked c) i k p l eq_refl Hp Hc Hnd)
    as [(l1 & a & l2 & r & -> & Hr & Hk & Hno & Heq)|[Hno Heq]].
  - exists (Some a), (last l1), p. split; [done|]. split; [done|].
    exists l1, l2, r. split_and!; try done.
    + intros ->. symmetry. by eapply chain_head_nil.
    + intros b rb Hb Hrb. by eapply chain_below_last.
  - by exists None, (last l), p.
Qed.

(** X13.  [Get] changes the order of the recency list and of one chain,
    and nothing else: the keys and their values, the size, the seed and
    the timers are as before, so a hit does not give the key more time.
    It answers [true] exactly for the keys of the cache, with the value
    the key has; on a miss it answers the zero value and leaves the state
    as it is. *)
Theorem X13_Get_changes_the_order_only c k res c' :
  reachable zero mh c → Get zero mh k c = Ok res c' →
  timers c' = timers c ∧ now c' = now c ∧ size c' = size c
  ∧ seed c' = seed c
  ∧ (∀ k' v', (k', v') ∈ entries c' ↔ (k', v') ∈ entries c)
  ∧ (res.2 = true ↔ k ∈ keys c)
  ∧ (res.2 = true → (k, res.1) ∈ entries c
                    ∧ head (entries c') = Some (k, res.1))
  ∧ (res.2 = false → res.1 = zero ∧ c' = c).
Proof.
  intros [HI Hm]%reachable_Inv Hget.
  destruct (Get_Inv c k HI Hm) as (res0 & c0 & Heq0 & _ & _ & Hsd & _).
  rewrite Hget in Heq0. injection Heq0 as <- <-.
  destruct (Get_abs c k HI Hm)
    as [(v & c1 & Hin & Heq & _ & _ & Hent & Hsz & Hts & Hnow)|[Hnin Heq]];
    rewrite Hget in Heq; injection Heq as -> ->.
  - split_and!; try done.
    + intros k' v'. rewrite Hent, elem_of_cons, list_elem_of_filter. simpl.
      split.
      * intros [[= -> ->]|[_ ?]]; done.
      * intros Hin'. destruct (decide (k' = k)) as [->|Hne]; [left|by right].
        f_equal. by apply (entries_unique c k).
    + split; [|done]. intros _. by apply (list_elem_of_fmap_2 fst) in Hin.
    + intros _. split; [done|]. by rewrite Hent.
  - split_and!; done.
Qed.

(** X14.  [delete] looks for the key in the bucket it is given, and
    nowhere else: given a bucket other than the one the key hashes to, it
    deletes nothing, also when the key is in the cache. *)
Theorem X14_delete_wants_the_bucket_of_the_key c (i : nat) k :
  reachable zero mh c → Z.of_nat i < MaxCacheSize →
  hash_of mh (seed c) k ≠ Z.of_nat i →
  delete (Z.of_nat i) k (locked c) = Ok () (locked c)
  ∧ deleteWithLock (Z.of_nat i) k c = Ok () c.
Proof.
  intros [HI Hm]%reachable_Inv Hi Hne.
  assert (i < length (data c))%nat as Hlt
    by (rewrite (inv_len _ _ HI); lia).
  destruct (lookup_lt_is_Some_2 _ _ Hlt) as [p Hp].
  destruct (inv_bucket _ _ HI i p Hp) as (l & Hc & Hnd & Hmem).
  assert (nokey (heap c) k l) as Hno.
  { intros b rb Hb Hrb Hk. apply Hne. rewrite <-Hk.
    destruct (proj1 (Hmem b) Hb) as (rb' & _ & Hrb' & Hh). congruence. }
  split.
  - destruct (delete_spec (locked c) i k p l (Inv_set_m true c HI) eq_refl
                Hp Hc Hnd Hmem)
      as [[_ Heq]|(l1 & a & l2 & r & x & h' & p' & -> & Hr & Hk & _)];
      [done|].
    exfalso. apply (Hno a r); [|done..]. apply elem_of_app. right. left.
  - destruct (deleteWithLock_spec c i k HI Hm Hlt)
      as (p0 & l0 & Hp0 & Hc0 & Hcases).
    rewrite Hp in Hp0. injection Hp0 as <-.
    rewrite (chain_det _ _ _ _ Hc0 Hc) in Hcases.
    destruct Hcases
      as [[_ Heq]|(l1 & a & l2 & r & x & h' & p' & -> & Hr & Hk & _)];
      [done|].
    exfalso. apply (Hno a r); [|done..]. apply elem_of_app. right. left.
Qed.

(** ** The cache as a bounded association list *)

Lemma assoc_Some (es : list (string * V)) k v :
  NoDup es.*1 → (k, v) ∈ es → assoc k es = Some v.
Proof.
  induction es as [|[k' v'] es IH]; intros Hnd Hin;
    [by apply elem_of_nil in Hin|].
  simpl in *. apply NoDup_cons in Hnd as [Hk' Hnd].
  apply elem_of_cons in Hin as [[= -> ->]|Hin].
  - by rewrite decide_True.
  - rewrite decide_False; [by apply IH|]. intros ->. apply Hk'.
    by apply (list_elem_of_fmap_2 fst) in Hin.
Qed.

Lemma assoc_None (es : list (string * V)) k : k ∉ es.*1 → assoc k es = None.
Proof.
  induction es as [|[k' v'] es IH]; intros Hk; [done|].
  simpl in *. apply not_elem_of_cons in Hk as [? ?].
  rewrite decide_False by done. by apply IH.
Qed.

Lemma Set_model c k v ttl :
  Inv mh c → m c = false →
  ∃ c', Set_ mh k v ttl c = Ok () c' ∧ Inv mh c' ∧ m c' = false
        ∧ entries c' = model_set k v (entries c).
Proof.
  intros HI Hm.
  destruct (Set_abs c k v ttl HI Hm) as (c' & Heq & HI' & Hm' & Hcases).
  exists c'. split_and!; try done. unfold model_set.
  pose proof (NoDup_keys c HI) as Hnd.
  pose proof (size_entries c HI) as Hsize.
  destruct Hcases as [(Hin & -> & _)
                     |[(Hnin & Hsz & -> & _)
                      |(Hnin & Hsz & es & kv & Hes & -> & _)]].
  - apply list_elem_of_fmap in Hin as ([k0 v0] & -> & Hin). simpl.
    by rewrite (assoc_Some _ _ v0).
  - rewrite assoc_None by done. rewrite decide_False; [done|]. congruence.
  - rewrite assoc_None by done. rewrite decide_True by congruence.
    rewrite Hes. by rewrite removelast_last.
Qed.

Lemma Get_model c k :
  Inv mh c → m c = false →
  ∃ c', Get zero mh k c = Ok (model_get zero k (entries c)).1 c'
        ∧ Inv mh c' ∧ m c' = false
        ∧ entries c' = (model_get zero k (entries c)).2.
Proof.
  intros HI Hm. unfold model_get.
  destruct (Get_abs c k HI Hm)
    as [(v & c1 & Hin & Heq & HI1 & Hm1 & Hent & _)|[Hnin Heq]].
  - rewrite (assoc_Some _ _ v); [|by apply NoDup_keys|done]. by exists c1.
  - rewrite assoc_None by done. by exists c.
Qed.

(** [delete] inside a transaction, given the bucket of the key. *)
Lemma delete_abs c k :
  Inv mh c → m c = true →
  ∃ c', delete (hash_of mh (seed c) k) k c = Ok () c'
    ∧ Inv mh c' ∧ m c' = true ∧ seed c' = seed c
    ∧ entries c' = without k (entries c).
Proof.
  intros HI Hm.
  destruct (Inv_bucket_hash c k HI) as (i & p & l & Hh & Hi & Hc & Hnd & Hmem).
  rewrite Hh.
  pose proof (nokey_keys c k i p l HI Hh Hi Hc) as Hnk.
  destruct (delete_spec c i k p l HI Hm Hi Hc Hnd Hmem)
    as [[Hno Heq]|(l1 & a & l2 & r & x & h' & p' & ->
          & Hr & Hk & Hno & Hx & HVx & Hun & Heq)]; rewrite Heq.
  - apply Hnk in Hno. exists c. split_and!; try done.
    unfold without. by rewrite filter_without_id.
  - subst a. eexists. split; [done|]. split_and!; try done.
    + by eapply Inv_deleted.
    + rewrite <-Hk. apply entries_deleted; try done. apply Hun.
Qed.

(** [lookup] inside a transaction, given the bucket of the key: it finds
    the record of the key when the key is in the cache. *)
Lemma lookup_abs c k :
  Inv mh c → m c = true →
  ∃ rec above root,
    lookup (hash_of mh (seed c) k) k c = Ok (rec, above, root) c
    ∧ match rec with
      | Some a => ∃ r, heap c !! a = Some r ∧ key r = k
                       ∧ (k, val r) ∈ entries c
      | None => k ∉ keys c
      end.
Proof.
  intros HI Hm.
  destruct (Inv_bucket_hash c k HI) as (i & p & l & Hh & Hi & Hc & Hnd & Hmem).
  rewrite Hh.
  pose proof (nokey_keys c k i p l HI Hh Hi Hc) as Hnk.
  destruct (lookup_spec_eq c i k p l Hm Hi Hc Hnd)
    as [(l1 & a & l2 & r & -> & Hr & Hk & Hno & Heq)|[Hno Heq]].
  - exists (Some a), (last l1), p. split; [done|]. exists r.
    split_and!; try done.
    destruct (bucket_elem_lru c i p _ a HI Hi Hc) as (x & Hx & HVx).
    { apply elem_of_app. right. left. }
    apply elem_of_entries. exists x, r. by rewrite HVx.
  - exists None, (last l), p. split; [done|]. by apply Hnk.
Qed.

Lemma wp_Set_model c k v ttl (Q : unit → state → Prop) :
  Inv mh c → m c = false →
  (∀ c', Inv mh c' → m c' = false →
     entries c' = model_set k v (entries c) → Q () c') →
  wp (Set_ mh k v ttl) c Q.
Proof.
  intros HI Hm HQ. apply wp_ok.
  destruct (Set_model c k v ttl HI Hm) as (c' & Heq & ? & ? & ?).
  exists (), c'. split; [done|]. by apply HQ.
Qed.

Lemma wp_Get_model c k (Q : V * bool → state → Prop) :
  Inv mh c → m c = false →
  (∀ c', Inv mh c' → m c' = false →
     entries c' = (model_get zero k (entries c)).2 →
     Q (model_get zero k (entries c)).1 c') →
  wp (Get zero mh k) c Q.
Proof.
  intros HI Hm HQ. apply wp_ok.
  destruct (Get_model c k HI Hm) as (c' & Heq & ? & ? & ?).
  eexists _, c'. split; [done|]. by apply HQ.
Qed.

Lemma wp_delete_model c k (Q : unit → state → Prop) :
  Inv mh c → m c = true →
  (∀ c', Inv mh c' → m c' = true →
     entries c' = without k (entries c) → Q () c') →
  wp (delete (hash_of mh (seed c) k) k) c Q.
Proof.
  intros HI Hm HQ. apply wp_ok.
  destruct (delete_abs c k HI Hm) as (c' & Heq & ? & ? & _ & ?).
  exists (), c'. split; [done|]. by apply HQ.
Qed.

Lemma wp_lookup_model c k
    (Q : option loc * option loc * option loc → state → Prop) :
  Inv mh c → m c = true →
  (∀ rec above root,
     match rec with
     | Some a => ∃ r, heap c !! a = Some r ∧ key r = k
                      ∧ (k, val r) ∈ entries c
     | None => k ∉ keys c
     end → Q (rec, above, root) c) →
  wp (lookup (hash_of mh (seed c) k) k) c Q.
Proof.
  intros HI Hm HQ. apply wp_ok.
  destruct (lookup_abs c k HI Hm) as (rec & above & root & Heq & Hrec).
  exists (rec, above, root), c. split; [done|]. by apply HQ.
Qed.

Lemma run_call_model c cl :
  Inv mh c → m c = false →
  wp (run_call zero mh cl) c
    (λ res c', res = (model_call zero cl (entries c)).1
               ∧ Inv mh c' ∧ m c' = false
               ∧ entries c' = (model_call zero cl (entries c)).2).
Proof.
  intros HI Hm. destruct cl as [k|k v ttl|k]; simpl.
  - apply wp_bind, wp_Get_model; [done..|]. intros c' HI' Hm' Hent.
    by apply wp_ret.
  - apply wp_bind, wp_Set_model; [done..|]. intros c' HI' Hm' Hent.
    by apply wp_ret.
  - apply wp_bind, wp_Lock; [done|].
    apply (wp_bind (hash mh k)). unfold hash. apply wp_gets.
    apply wp_bind, wp_delete_model; [by apply Inv_set_m|done|].
    intros c' HI' Hm' Hent.
    apply wp_bind, wp_Unlock; [done|]. apply wp_ret.
    split_and!; try done. by apply Inv_set_m.
Qed.

(** X15.  Refinement.  Whatever the hash function and the seed, a run of
    [Get], [Set] and deletions by key behaves as the same run on a list of
    (key, value) pairs kept in the order of use: [Get] answers what the
    list holds and moves the pair to the front; [Set] puts the pair at
    the front, in place of the pair of the key if there is one, and else
    drops the last pair when the list is [MaxCacheSize] long; deleting
    removes the pair of the key. *)
Theorem X15_calls_refine_the_association_list c cls :
  reachable zero mh c →
  ∃ c', run_calls zero mh cls c = Ok (model_calls zero cls (entries c)).1 c'
    ∧ entries c' = (model_calls zero cls (entries c)).2
    ∧ size c' = Z.of_nat (length (entries c'))
    ∧ m c' = false.
Proof.
  intros [HI Hm]%reachable_Inv.
  cut (wp (run_calls zero mh cls) c
         (λ res c', res = (model_calls zero cls (entries c)).1
                    ∧ entries c' = (model_calls zero cls (entries c)).2
                    ∧ Inv mh c' ∧ m c' = false)).
  { intros (res & c' & Heq & -> & Hent & HI' & Hm')%wp_ok.
    exists c'. split_and!; try done. by apply size_entries. }
  revert c HI Hm. induction cls as [|cl cls IH]; intros c HI Hm.
  - by apply wp_ret.
  - change (run_calls zero mh (cl :: cls))
      with (res ← run_call zero mh cl;
            rest ← run_calls zero mh cls; mret (res :: rest)).
    apply wp_bind. apply (wp_mono _ _ _ _ (run_call_model c cl HI Hm)).
    intros res c1 (-> & HI1 & Hm1 & Hent1).
    apply wp_bind. apply (wp_mono _ _ _ _ (IH c1 HI1 Hm1)).
    intros rest c2 (-> & Hent2 & HI2 & Hm2). apply wp_ret.
    simpl. rewrite <-Hent1. done.
Qed.

(** X18.  The buckets are an array of [MaxCacheSize] pointers: given an
    index beyond it, [lookup], and so [delete] and [deleteWithLock],
    panic with an index out of range. *)
Theorem X18_bucket_index_out_of_range c (idx : Z) k :
  reachable zero mh c → MaxCacheSize ≤ idx →
  lookup idx k (locked c) = Panic "index out of range"
  ∧ delete idx k (locked c) = Panic "index out of range"
  ∧ deleteWithLock idx k c = Panic "index out of range".
Proof.
  intros [HI Hm]%reachable_Inv Hidx.
  assert (0 ≤ idx) as H0 by (unfold MaxCacheSize in Hidx; lia).
  assert (data c !! Z.to_nat idx = None) as Hnone.
  { apply lookup_ge_None. rewrite (inv_len _ _ HI). lia. }
  split_and!.
  - unfold lookup, mustBeLocked, TryLock, data_load, mbind, M_bind, mret,
      M_ret. simpl. rewrite bool_decide_true by done. by rewrite Hnone.
  - unfold delete, lookup, mustBeLocked, TryLock, data_load, mbind, M_bind,
      mret, M_ret. simpl. rewrite bool_decide_true by done. by rewrite Hnone.
  - unfold deleteWithLock, delete, lookup, mustBeLocked, TryLock, Lock,
      data_load, mbind, M_bind, mret, M_ret. rewrite Hm. simpl.
    rewrite bool_decide_true by done. by rewrite Hnone.
Qed.

(** X19.  When [Set] evicts, the timer of the evicted record is given to
    [Stop]: if it was still armed it is stopped, and it never goes off,
    whatever happens next. *)
Theorem X19_eviction_stops_the_timer_of_the_victim c k v ttl x r tm :
  reachable zero mh c → size c = MaxCacheSize → k ∉ keys c →
  last (lru c) = Some x → heap c !! Value x = Some r →
  timers c !! t r = Some tm →
  ∃ c', Set_ mh k v ttl c = Ok () c'
    ∧ timers c' !! t r = Some (stop_timer tm)
    ∧ (status tm = Armed →
       ∀ evs c'', exec zero mh evs c' = Ok () c'' →
         expire (t r) c'' = Blocked ∧ run_func (t r) c'' = Blocked).
Proof.
  intros [HI Hm]%reachable_Inv Hfull Hnin Hlast Hr Htm.
  destruct (Set_spec c k v ttl HI Hm)
    as (i & p & l & Hh & Hi & Hc & c' & Hset & Hpost).
  destruct (Set_post_Inv _ _ _ _ _ _ _ _ HI Hh Hi Hc Hpost)
    as (HI' & Hm' & _). rewrite Hm in Hm'.
  pose proof (nokey_keys c k i p l HI Hh Hi Hc) as Hnk.
  destruct Hpost as [(l1 & a & l2 & r' & x' & h' & -> & Hr' & Hk' & Hno & Hx'
                      & HVx' & Hrel & ->)
                    |[(Hno & Hsz & _)
                     |(Hno & Hsz & xv & rv & j & pj & l1 & l2 & hv & pv' & p1
                       & a & el & Hlast' & Hrv & Hhj & Hj & Hcj & Hun & Hp1
                       & Ha & Hel & ->)]]; [| done |].
  { exfalso. apply Hnin. apply elem_of_keys. exists x', r'.
    by rewrite HVx'. }
  rewrite Hlast in Hlast'. injection Hlast' as <-.
  rewrite Hr in Hrv. injection Hrv as <-.
  assert (timers (inserted (deleted c j x r hv pv') i a el
            (mkRecord k v p1 (length (timers (deleted c j x r hv pv')))
               (Some el))
            (mkTimer (now c + ttl) (Z.of_nat i) k Armed))
          !! t r = Some (stop_timer tm)) as Hstop.
  { simpl. rewrite lookup_app_l
      by (rewrite length_alter; by eapply lookup_lt_Some).
    by rewrite list_lookup_alter_eq, Htm. }
  eexists. split; [done|]. split; [done|].
  intros Harm evs c'' Hex.
  unfold stop_timer in Hstop. rewrite decide_True in Hstop by done.
  assert (timers c'' !! t r = Some (set_status Stopped tm)) as Htm''.
  { by eapply (exec_stopped evs _ c''). }
  split.
  - unfold expire. rewrite Htm''. case_decide as Hd; [|done].
    by destruct Hd.
  - unfold run_func. rewrite Htm''. by case_decide.
Qed.

End Proofs.

(** * Examples

    The theorems above at concrete states, with values of type [nat] and
    [example_hash] for the hash function. *)

Lemma reachable_after evs :
  (if exec 0%nat example_hash evs (NewCache 0) is Ok _ _ then True else False) →
  reachable 0%nat example_hash (after evs).
Proof.
  intros Hok. exists 0, evs. unfold after.
  by destruct (exec 0%nat example_hash evs (NewCache 0)) as [[] c| | |].
Qed.

Lemma C4_set_then_get_witness :
  0 < 10 ∧
  ∃ c' c'',
    Set_ example_hash "a" 7%nat 10 (after pair_trace)
    = Ok () c'
    ∧ Get 0%nat example_hash "a" c' = Ok (7%nat, true) c''.
Proof.
  split; [lia|].
  apply (C4_set_then_get 0%nat example_hash); [|lia].
  apply reachable_after. by vm_compute.
Defined.

Lemma C5_get_miss_no_effect_witness :
  Get 0%nat example_hash "zz" (after pair_trace)
  = Ok (0%nat, false) (after pair_trace).
Proof.
  apply (C5_get_miss_no_effect 0%nat example_hash).
  - apply reachable_after. by vm_compute.
  - assert (keys (after pair_trace) = ["b"; "a"])
      as -> by (by vm_compute).
    intros Hin. repeat (apply elem_of_cons in Hin as [[=]|Hin]).
    by apply elem_of_nil in Hin.
Defined.

Lemma C1_eviction_removes_least_recent_witness :
  ∃ es kvic vvic c',
    entries (after full_trace) = es ++ [(kvic, vvic)]
    ∧ (∃ x, last (lru (after full_trace)) = Some x
            ∧ entry_of (heap (after full_trace)) x = Some (kvic, vvic))
    ∧ (∀ k', k' ∈ keys (after full_trace) → k' ≠ kvic →
         touched_after (touch_log 0%nat example_hash full_trace (NewCache 0))
           k' kvic)
    ∧ Set_ example_hash "ffffff" 6%nat 5 (after full_trace) = Ok () c'
    ∧ entries c' = ("ffffff", 6%nat) :: es
    ∧ Get 0%nat example_hash kvic c' = Ok (0%nat, false) c'
    ∧ (∃ c'', Get 0%nat example_hash "ffffff" c' = Ok (6%nat, true) c'')
    ∧ (∀ k' v', (k', v') ∈ entries (after full_trace) → k' ≠ kvic →
         ∃ c'', Get 0%nat example_hash k' c' = Ok (v', true) c'').
Proof.
  apply (C1_eviction_removes_least_recent 0%nat example_hash 0 full_trace).
  - by vm_compute.
  - by vm_compute.
  - assert (keys (after full_trace) = ["a"; "eeeee"; "dddd"; "ccc"; "bb"])
      as -> by (by vm_compute).
    intros Hin. repeat (apply elem_of_cons in Hin as [[=]|Hin]).
    by apply elem_of_nil in Hin.
Defined.

Lemma C6_delete_witness :
  (nokey (heap (after pair_trace)) "a" (bucket (after pair_trace) 1) →
     delete 1 "a" (locked (after pair_trace)) = Ok () (locked (after pair_trace))
     ∧ deleteWithLock 1 "a" (after pair_trace) = Ok () (after pair_trace))
  ∧ ∃ c' x,
      delete 1 "a" (locked (after pair_trace)) = Ok () c'
      ∧ x ∈ lru (after pair_trace) ∧ Value x = 1%positive
      ∧ bucket c' 1 = [2%positive]
      ∧ size c' = 1
      ∧ delete 1 "a" c' = Ok () c'.
Proof.
  destruct (C6_delete 0%nat example_hash (after pair_trace) 1 "a")
    as [Habsent Hpresent].
  - apply reachable_after. by vm_compute.
  - by vm_compute.
  - split; [exact Habsent|].
    destruct (Hpresent 1%positive
                (mkRecord "a" 1%nat None 0%nat (Some 1%positive)))
      as (c' & x & Hdel & Hx & HVx & _ & _ & Hb & _ & _ & _ & _ & Hsz & Hagain).
    + assert (bucket (after pair_trace) 1 = [2%positive; 1%positive]) as ->
        by (by vm_compute).
      apply elem_of_cons. right. apply elem_of_cons. by left.
    + by vm_compute.
    + done.
    + exists c', x. split_and!; done.
Defined.

Lemma C7_capacity_is_the_constant_witness :
  capacity (NewCache (V:=nat) 0) = MaxCacheSize
  ∧ capacity (after pair_trace) = MaxCacheSize
  ∧ 1 ≤ MaxCacheSize ≤ 10000.
Proof.
  apply (C7_capacity_is_the_constant 0%nat example_hash 0 pair_trace).
  by vm_compute.
Defined.

(** No seed makes [NewCache] return a cache of capacity 7. *)
Lemma C7_no_capacity_argument :
  ¬ ∃ sd : Z, capacity (NewCache (V:=nat) sd) = 7.
Proof. intros [sd Hcap]. vm_compute in Hcap. discriminate. Qed.

Lemma C8_helpers_require_lock_witness :
  (mustBeLocked (after pair_trace) = Panic lock_panic
   ∧ lookup 1 "a" (after pair_trace) = Panic lock_panic
   ∧ delete 1 "a" (after pair_trace) = Panic lock_panic)
  ∧ (mustBeLocked (locked (after pair_trace)) = Ok () (locked (after pair_trace))
     ∧ lookup 1 "a" (locked (after pair_trace)) ≠ Panic lock_panic
     ∧ delete 1 "a" (locked (after pair_trace)) ≠ Panic lock_panic).
Proof.
  split.
  - apply (C8_helpers_require_lock (after pair_trace) 1 "a"). by vm_compute.
  - apply (C8_helpers_require_lock (locked (after pair_trace)) 1 "a").
    by vm_compute.
Defined.

Lemma C9_chains_match_recency_list_witness :
  Forall2 (chain (heap (after same_bucket_trace)))
    (data (after same_bucket_trace)) (buckets (after same_bucket_trace))
  ∧ NoDup (concat (buckets (after same_bucket_trace)))
  ∧ concat (buckets (after same_bucket_trace)) ≡ₚ live (after same_bucket_trace).
Proof.
  apply (C9_chains_match_recency_list 0%nat example_hash).
  apply reachable_after. by vm_compute.
Defined.

(** The package's own tests, run on the embedding.  With [example_hash]
    the keys of [TestCache_LRU] all fall into one bucket. *)
Example TestCache_SetAndGet_example_hash :
  let c := after [EvSet "key1" 1%nat 5; EvSet "key2" 2%nat 5] in
  value_of (Get 0%nat example_hash "key1" c) = Some (1%nat, true)
  ∧ value_of (Get 0%nat example_hash "key2" c) = Some (2%nat, true)
  ∧ value_of (Get 0%nat example_hash "key3" c) = Some (0%nat, false).
Proof. by vm_compute. Qed.

Example TestCache_Expiration_example_hash :
  let c := after [EvSet "key1" 1%nat 2; EvTick 3; EvExpire 0; EvRun 0] in
  exec 0%nat example_hash [EvSet "key1" 1%nat 2; EvTick 3; EvExpire 0; EvRun 0]
    (NewCache 0) = Ok () c
  ∧ value_of (Get 0%nat example_hash "key1" c) = Some (0%nat, false).
Proof. by vm_compute. Qed.

Example TestCache_LRU_example_hash :
  let c1 := after lru_test_trace in
  let c2 := after (lru_test_trace ++ [EvGet "key1"; EvGet "key2";
                                      EvSet "key7" 7%nat 5]) in
  value_of (Get 0%nat example_hash "key1" c1) = Some (0%nat, false)
  ∧ value_of (Get 0%nat example_hash "key2" c1) = Some (2%nat, true)
  ∧ value_of (Get 0%nat example_hash "key3" c2) = Some (0%nat, false)
  ∧ keys c2 = ["key7"; "key2"; "key6"; "key5"; "key4"].
Proof. by vm_compute. Qed.

(** The scenario "refresh resets TTL and timer": [Set(k, v1, 2s)], then
    [Set(k, v2, 5s)] at time 1.  The first timer is stopped and cannot
    expire; at time 3 the key holds [v2]; the second timer expires at time
    6 and its function removes the key. *)
Example refresh_resets_ttl :
  let c3 := after [EvSet "k" 1%nat 2; EvTick 1; EvSet "k" 2%nat 5; EvTick 2] in
  let c7 := after [EvSet "k" 1%nat 2; EvTick 1; EvSet "k" 2%nat 5; EvTick 2;
                   EvTick 4; EvExpire 1; EvRun 1] in
  now c3 = 3
  ∧ expire 0 c3 = Blocked ∧ run_func 0 c3 = Blocked
  ∧ value_of (Get 0%nat example_hash "k" c3) = Some (2%nat, true)
  ∧ now c7 = 7
  ∧ value_of (Get 0%nat example_hash "k" c7) = Some (0%nat, false).
Proof. by vm_compute. Qed.

(** Before the last [Set] of [same_bucket_trace], the record at the back
    of the recency list is the head of bucket 1, to which the new key
    "abcdef" hashes: that [Set] takes the [er == root] branch. *)
Example same_bucket_victim_is_root :
  let c := after (take 6 same_bucket_trace) in
  ∃ x, last (lru c) = Some x
       ∧ hash_of example_hash (seed c) "abcdef" = 1
       ∧ data c !! 1%nat = Some (Some (Value x))
       ∧ size c = MaxCacheSize.
Proof. eexists. by vm_compute. Qed.

Lemma C10_hit_moves_to_chain_head_witness :
  (∃ v c', Get 0%nat example_hash "a" (after pair_trace) = Ok (v, true) c'
           ∧ moved (after pair_trace) c' 1 1%positive
               (Some 2%positive) (Some 2%positive))
  ∧ (∀ v ttl, ∃ c', Set_ example_hash "a" v ttl (after pair_trace) = Ok () c'
                    ∧ moved (after pair_trace) c' 1 1%positive
                        (Some 2%positive) (Some 2%positive)).
Proof.
  apply (C10_hit_moves_to_chain_head 0%nat example_hash).
  - apply reachable_after. by vm_compute.
  - by vm_compute.
  - by vm_compute.
Defined.

(** C3.  The reset case of [Set] stops the old timer, but [Stop] does
    nothing to a timer whose function has already been started.  Here the
    first timer of "k" expires at time 2 and, before its function takes the
    mutex, "k" is set again with value 2 and a TTL of 5: the function then
    runs, finds the refreshed record under the key and deletes it, so that
    at time 2, long before time 7, [Get] does not find "k". *)
Theorem C3_stale_timer_erases_refreshed_value :
  let c1 := after stale_timer_trace in
  let c2 := after (stale_timer_trace ++ [EvRun 0]) in
  exec 0%nat example_hash (stale_timer_trace ++ [EvRun 0]) (NewCache 0)
  = Ok () c2
  ∧ entries c1 = [("k", 2%nat)]
  ∧ status <$> timers c1 !! 0%nat = Some Running
  ∧ (status <$> timers c1 !! 1%nat = Some Armed
     ∧ deadline <$> timers c1 !! 1%nat = Some 7)
  ∧ run_func 0 c1 = Ok () c2
  ∧ now c2 = 2
  ∧ entries c2 = []
  ∧ Get 0%nat example_hash "k" c2 = Ok (0%nat, false) c2.
Proof. by vm_compute. Qed.

(** ** The timers, the bounded list and the other properties on the
    example states *)

Lemma X1_Get_Set_always_return_witness :
  m (after pair_trace) = false
  ∧ (∃ res c', Get 0%nat example_hash "a" (after pair_trace) = Ok res c'
               ∧ m c' = false ∧ reachable 0%nat example_hash c')
  ∧ (∃ c', Set_ example_hash "a" 7%nat 10 (after pair_trace) = Ok () c'
           ∧ m c' = false ∧ reachable 0%nat example_hash c').
Proof.
  apply (X1_Get_Set_always_return 0%nat example_hash).
  apply reachable_after. by vm_compute.
Defined.

Lemma X2_keys_unique_witness :
  NoDup (keys (after pair_trace))
  ∧ ∀ k v v', (k, v) ∈ entries (after pair_trace) →
              (k, v') ∈ entries (after pair_trace) → v = v'.
Proof.
  apply (X2_keys_unique 0%nat example_hash).
  apply reachable_after. by vm_compute.
Defined.

Lemma X3_size_counts_list_elements_witness :
  size (after pair_trace) = Z.of_nat (length (lru (after pair_trace)))
  ∧ length (entries (after pair_trace)) = length (lru (after pair_trace))
  ∧ NoDup (live (after pair_trace))
  ∧ ∀ x, x ∈ lru (after pair_trace) →
      ∃ r, heap (after pair_trace) !! Value x = Some r ∧ e r = Some (eid x).
Proof.
  apply (X3_size_counts_list_elements 0%nat example_hash).
  apply reachable_after. by vm_compute.
Defined.

Lemma X4_records_sit_in_their_hash_bucket_witness :
  ∃ r, heap (after pair_trace) !! 1%positive = Some r
       ∧ 1%positive ∈ live (after pair_trace)
       ∧ hash_of example_hash (seed (after pair_trace)) (key r) = 1
       ∧ ∀ b rb, b ∈ bucket (after pair_trace) 1 →
                 heap (after pair_trace) !! b = Some rb →
                 key rb = key r → b = 1%positive.
Proof.
  apply (X4_records_sit_in_their_hash_bucket 0%nat example_hash
           (after pair_trace) 1 1%positive).
  - apply reachable_after. by vm_compute.
  - assert (bucket (after pair_trace) 1 = [2%positive; 1%positive]) as ->
      by (by vm_compute).
    apply elem_of_cons. right. apply elem_of_cons. by left.
Defined.

Lemma X5_hash_is_stable_witness :
  seed (after pair_trace) = 0
  ∧ hash example_hash "a" (after pair_trace)
    = Ok (hash_of example_hash 0 "a") (after pair_trace)
  ∧ 0 ≤ hash_of example_hash 0 "a" < MaxCacheSize
  ∧ is_Some (data (after pair_trace)
               !! Z.to_nat (hash_of example_hash 0 "a")).
Proof.
  apply (X5_hash_is_stable 0%nat example_hash 0 pair_trace).
  by vm_compute.
Defined.

Lemma X6_recency_list_is_in_touch_order_witness :
  touched_after (touch_log 0%nat example_hash full_trace (NewCache 0))
    "a" "bb".
Proof.
  apply (X6_recency_list_is_in_touch_order 0%nat example_hash 0 full_trace
           (after full_trace)).
  - by vm_compute.
  - assert (keys (after full_trace) = ["a"; "eeeee"; "dddd"; "ccc"; "bb"])
      as -> by (by vm_compute).
    repeat first [apply sublist_skip | apply sublist_cons | apply sublist_nil].
Defined.

Lemma X7_every_record_owns_a_pending_timer_witness :
  ∃ tm, timers (after pair_trace) !! 0%nat = Some tm
    ∧ cb_key tm = "a"
    ∧ cb_idx tm = hash_of example_hash (seed (after pair_trace)) "a"
    ∧ (status tm = Armed ∨ status tm = Running)
    ∧ ∀ y ry, y ∈ lru (after pair_trace) →
        heap (after pair_trace) !! Value y = Some ry → t ry = 0%nat →
        y = mkElement 1 1.
Proof.
  apply (X7_every_record_owns_a_pending_timer 0%nat example_hash
           (after pair_trace) (mkElement 1 1)
           (mkRecord "a" 1%nat None 0%nat (Some 1%positive))).
  - apply reachable_after. by vm_compute.
  - assert (lru (after pair_trace) = [mkElement 2 2; mkElement 1 1]) as ->
      by (by vm_compute).
    apply elem_of_cons. right. apply elem_of_cons. by left.
  - by vm_compute.
Defined.

Lemma X8_timer_function_deletes_its_key_witness :
  ∃ c', run_func 0 (after stale_timer_trace) = Ok () c' ∧ m c' = false
    ∧ entries c' = without "k" (entries (after stale_timer_trace))
    ∧ size c'
      = size (after stale_timer_trace)
        - (if decide ("k" ∈ keys (after stale_timer_trace)) then 1 else 0)
    ∧ timers c' !! 0%nat
      = Some (set_status Finished (mkTimer 2 1 "k" Running))
    ∧ run_func 0 c' = Blocked.
Proof.
  apply (X8_timer_function_deletes_its_key 0%nat example_hash
           (after stale_timer_trace) 0 (mkTimer 2 1 "k" Running)).
  - apply reachable_after. by vm_compute.
  - by vm_compute.
  - done.
Defined.

Lemma X9_Set_arms_one_timer_witness :
  ∃ c' x r, Set_ example_hash "a" 7%nat 10 (after pair_trace) = Ok () c'
    ∧ now c' = now (after pair_trace)
    ∧ length (timers c') = S (length (timers (after pair_trace)))
    ∧ timers c' !! length (timers (after pair_trace))
      = Some (mkTimer (now (after pair_trace) + 10)
                (hash_of example_hash (seed (after pair_trace)) "a") "a" Armed)
    ∧ (∀ tid tm, timers (after pair_trace) !! tid = Some tm →
         timers c' !! tid = Some tm
         ∨ (status tm = Armed
            ∧ timers c' !! tid = Some (set_status Stopped tm)))
    ∧ head (lru c') = Some x ∧ heap c' !! Value x = Some r
    ∧ key r = "a" ∧ val r = 7%nat
    ∧ t r = length (timers (after pair_trace)).
Proof.
  apply (X9_Set_arms_one_timer 0%nat example_hash).
  apply reachable_after. by vm_compute.
Defined.

Lemma X10_key_expires_after_ttl_witness :
  let tid := length (timers (after pair_trace)) in
  ∃ c1 c4,
    Set_ example_hash "a" 7%nat 10 (after pair_trace) = Ok () c1
    ∧ run_func tid c1 = Blocked
    ∧ (∀ d', 0 ≤ d' < 10 →
         exec 0%nat example_hash [EvTick d'; EvExpire tid] c1 = Blocked)
    ∧ exec 0%nat example_hash [EvTick 12; EvExpire tid; EvRun tid] c1
      = Ok () c4
    ∧ entries c4 = without "a" (entries c1)
    ∧ Get 0%nat example_hash "a" c4 = Ok (0%nat, false) c4.
Proof.
  apply (X10_key_expires_after_ttl 0%nat example_hash (after pair_trace)
           "a" 7%nat 10 12).
  - apply reachable_after. by vm_compute.
  - lia.
  - lia.
Defined.

Lemma X11_refresh_stops_the_old_timer_witness :
  ∃ tm c', timers (after pair_trace) !! 0%nat = Some tm
    ∧ Set_ example_hash "a" 7%nat 10 (after pair_trace) = Ok () c'
    ∧ timers c' !! 0%nat = Some (stop_timer tm)
    ∧ (status tm = Armed →
       ∀ evs c'', exec 0%nat example_hash evs c' = Ok () c'' →
         timers c'' !! 0%nat = Some (set_status Stopped tm)
         ∧ expire 0 c'' = Blocked ∧ run_func 0 c'' = Blocked).
Proof.
  apply (X11_refresh_stops_the_old_timer 0%nat example_hash
           (after pair_trace) (mkElement 1 1)
           (mkRecord "a" 1%nat None 0%nat (Some 1%positive))).
  - apply reachable_after. by vm_compute.
  - assert (lru (after pair_trace) = [mkElement 2 2; mkElement 1 1]) as ->
      by (by vm_compute).
    apply elem_of_cons. right. apply elem_of_cons. by left.
  - by vm_compute.
Defined.

Lemma X12_lookup_contract_witness :
  ∃ rec above root,
    lookup 1 "a" (locked (after pair_trace))
    = Ok (rec, above, root) (locked (after pair_trace))
    ∧ data (after pair_trace) !! 1%nat = Some root
    ∧ match rec with
      | Some a =>
          ∃ l1 l2 r, bucket (after pair_trace) 1 = l1 ++ a :: l2
            ∧ heap (after pair_trace) !! a = Some r ∧ key r = "a"
            ∧ nokey (heap (after pair_trace)) "a" l1
            ∧ above = last l1
            ∧ (l1 = [] → root = Some a)
            ∧ (∀ b rb, above = Some b →
                 heap (after pair_trace) !! b = Some rb → below rb = Some a)
      | None => nokey (heap (after pair_trace)) "a" (bucket (after pair_trace) 1)
                ∧ above = last (bucket (after pair_trace) 1)
      end.
Proof.
  apply (X12_lookup_contract 0%nat example_hash (after pair_trace) 1 "a").
  - apply reachable_after. by vm_compute.
  - by vm_compute.
Defined.

Lemma X13_Get_changes_the_order_only_witness :
  let c := after pair_trace in
  let c' := after (pair_trace ++ [EvGet "a"]) in
  timers c' = timers c ∧ now c' = now c ∧ size c' = size c
  ∧ seed c' = seed c
  ∧ (∀ k' v', (k', v') ∈ entries c' ↔ (k', v') ∈ entries c)
  ∧ ((1%nat, true).2 = true ↔ "a" ∈ keys c)
  ∧ ((1%nat, true).2 = true →
     ("a", (1%nat, true).1) ∈ entries c
     ∧ head (entries c') = Some ("a", (1%nat, true).1))
  ∧ ((1%nat, true).2 = false → (1%nat, true).1 = 0%nat ∧ c' = c).
Proof.
  apply (X13_Get_changes_the_order_only 0%nat example_hash
           (after pair_trace) "a" (1%nat, true)
           (after (pair_trace ++ [EvGet "a"]))).
  - apply reachable_after. by vm_compute.
  - by vm_compute.
Defined.

Lemma X14_delete_wants_the_bucket_of_the_key_witness :
  delete 2 "a" (locked (after pair_trace)) = Ok () (locked (after pair_trace))
  ∧ deleteWithLock 2 "a" (after pair_trace) = Ok () (after pair_trace).
Proof.
  apply (X14_delete_wants_the_bucket_of_the_key 0%nat example_hash
           (after pair_trace) 2 "a").
  - apply reachable_after. by vm_compute.
  - by vm_compute.
  - by vm_compute.
Defined.

Lemma X15_calls_refine_the_association_list_witness :
  let cls := [CallGet "a"; CallSet "c" 3%nat 5; CallDelete "b"; CallGet "b"] in
  ∃ c', run_calls 0%nat example_hash cls (after pair_trace)
        = Ok (model_calls 0%nat cls (entries (after pair_trace))).1 c'
    ∧ entries c' = (model_calls 0%nat cls (entries (after pair_trace))).2
    ∧ size c' = Z.of_nat (length (entries c'))
    ∧ m c' = false.
Proof.
  apply (X15_calls_refine_the_association_list 0%nat example_hash).
  apply reachable_after. by vm_compute.
Defined.

Lemma X18_bucket_index_out_of_range_witness :
  lookup 5 "a" (locked (after pair_trace)) = Panic "index out of range"
  ∧ delete 5 "a" (locked (after pair_trace)) = Panic "index out of range"
  ∧ deleteWithLock 5 "a" (after pair_trace) = Panic "index out of range".
Proof.
  apply (X18_bucket_index_out_of_range 0%nat example_hash).
  - apply reachable_after. by vm_compute.
  - by vm_compute.
Defined.

Lemma X19_eviction_stops_the_timer_of_the_victim_witness :
  ∃ c', Set_ example_hash "ffffff" 6%nat 5 (after full_trace) = Ok () c'
    ∧ timers c' !! 1%nat = Some (stop_timer (mkTimer 5 2 "bb" Armed))
    ∧ (status (mkTimer 5 2 "bb" Armed) = Armed →
       ∀ evs c'', exec 0%nat example_hash evs c' = Ok () c'' →
         expire 1 c'' = Blocked ∧ run_func 1 c'' = Blocked).
Proof.
  apply (X19_eviction_stops_the_timer_of_the_victim 0%nat example_hash
           (after full_trace) "ffffff" 6%nat 5 (mkElement 2 2)
           (mkRecord "bb" 2%nat None 1%nat (Some 2%positive))
           (mkTimer 5 2 "bb" Armed)).
  - apply reachable_after. by vm_compute.
  - by vm_compute.
  - assert (keys (after full_trace) = ["a"; "eeeee"; "dddd"; "ccc"; "bb"])
      as -> by (by vm_compute).
    intros Hin. repeat (apply elem_of_cons in Hin as [[=]|Hin]).
    by apply elem_of_nil in Hin.
  - by vm_compute.
  - by vm_compute.
  - by vm_compute.
Defined.

(** ** The tests of the package, for every hash function and seed *)

Ltac norm_model H :=
  match type of H with
  | _ = ?rhs => let r := eval vm_compute in rhs in change rhs with r in H
  end.

Ltac norm_get :=
  repeat match goal with
  | |- context [model_get ?z ?k ?es] =>
      let r := eval vm_compute in (model_get z k es) in
      change (model_get z k es) with r
  end;
  cbv beta iota delta [fst snd].

(** A call of [Set], then of [Get], on the state [c0] whose pairs are
    known: the pairs of the state [c1] it leaves are computed. *)
Ltac call_Set c0 c1 He :=
  apply wp_bind; eapply wp_Set_model; [done|done|];
  intros c1 ? ? He;
  match goal with H0 : entries c0 = _ |- _ => rewrite H0 in He end;
  norm_model He.

Ltac call_Get c0 c1 He :=
  apply wp_bind; eapply wp_Get_model; [done|done|];
  intros c1 ? ? He;
  match goal with H0 : entries c0 = _ |- _ => rewrite H0 in He |- * end;
  norm_model He; norm_get.

Lemma fresh_cache (mh : Z → string → Z) (sd : Z) :
  Inv mh (NewCache (V:=string) sd) ∧ m (NewCache (V:=string) sd) = false
  ∧ entries (NewCache (V:=string) sd) = [].
Proof. split; [apply Inv_NewCache|done]. Qed.

Lemma wp_returns_true {V} (x : M (V:=V) bool) c :
  wp x c (λ b _, b = true) → ∃ c', x c = Ok true c'.
Proof. intros (b & c' & Heq & ->)%wp_ok. by exists c'. Qed.

Ltac start_test mh sd c0 :=
  destruct (fresh_cache mh sd) as (? & ? & ?);
  apply wp_returns_true; set (c0 := NewCache sd) in *.

(** X16.  The black-box tests [TestCache_SetAndGet] and [TestCache_LRU]
    pass, whatever the hash function and the seed: two keys set are found
    with their values and a third is not; of [MaxCacheSize] + 1 keys set
    the first is evicted, and after a [Get] of the second it is the third
    that the next new key evicts. *)
Theorem X16_blackbox_tests_pass (mh : Z → string → Z) (sd : Z) :
  (∃ c, TestCache_SetAndGet mh sd = Ok true c)
  ∧ (∃ c, TestCache_LRU mh sd = Ok true c).
Proof.
  split.
  - unfold TestCache_SetAndGet. start_test mh sd c0.
    call_Set c0 c1 He1. call_Set c1 c2 He2.
    call_Get c2 c3 He3. call_Get c3 c4 He4. call_Get c4 c5 He5.
    by apply wp_ret.
  - unfold TestCache_LRU. start_test mh sd c0.
    change (seqZ 1 (MaxCacheSize + 1)) with [1; 2; 3; 4; 5; 6].
    cbn [for_each]. cbv beta zeta.
    apply wp_bind.
    call_Set c0 c1 He1. call_Set c1 c2 He2. call_Set c2 c3 He3.
    call_Set c3 c4 He4. call_Set c4 c5 He5. call_Set c5 c6 He6.
    apply wp_ret.
    call_Get c6 c7 He7. call_Get c7 c8 He8. call_Set c8 c9 He9.
    call_Get c9 c10 He10.
    by apply wp_ret.
Qed.

(** X17.  The white-box tests [TestLookup] and [TestDelete] pass,
    whatever the hash function and the seed: after two keys are set the
    size is 2, [lookup] finds the record of a key in the bucket of the
    key, with its value, and finds nothing for a key never set; after
    [delete] of one of three keys the size is 2 and neither [Get] nor
    [lookup] finds the key. *)
Theorem X17_whitebox_tests_pass (mh : Z → string → Z) (sd : Z) :
  (∃ c, TestLookup mh sd = Ok true c)
  ∧ (∃ c, TestDelete mh sd = Ok true c).
Proof.
  split.
  - unfold TestLookup. start_test mh sd c0.
    call_Set c0 c1 He1. call_Set c1 c2 He2.
    assert (size c2 = 2) as Hsz by (by rewrite (size_entries mh c2), He2).
    apply wp_bind, wp_Lock; [done|].
    apply wp_bind, wp_gets.
    apply wp_bind. unfold hash at 1. apply wp_gets.
    apply wp_bind, wp_lookup_model; [by apply Inv_set_m|done|].
    intros r above root Hr.
    change (entries (set_m true c2)) with (entries c2) in Hr.
    change (keys (set_m true c2)) with (keys c2) in Hr.
    destruct r as [a|]; cycle 1.
    { exfalso. apply Hr. unfold keys. rewrite He2. set_solver. }
    destruct Hr as (rr & Hrr & _ & Hin). rewrite He2 in Hin.
    assert (val rr = "value1") as Hval.
    { apply elem_of_cons in Hin as [[=]|Hin].
      apply elem_of_cons in Hin as [[=]|Hin]; [done|].
      by apply elem_of_nil in Hin. }
    apply wp_bind. eapply wp_bind, wp_load; [done|]. apply wp_ret.
    apply wp_bind. unfold hash at 1. apply wp_gets.
    apply wp_bind, wp_lookup_model; [by apply Inv_set_m|done|].
    intros r' above' root' Hr'.
    change (entries (set_m true c2)) with (entries c2) in Hr'.
    change (keys (set_m true c2)) with (keys c2) in Hr'.
    destruct r' as [a'|].
    { exfalso. destruct Hr' as (rr' & _ & _ & Hin'). rewrite He2 in Hin'.
      apply elem_of_cons in Hin' as [[=]|Hin'].
      apply elem_of_cons in Hin' as [[=]|Hin'].
      by apply elem_of_nil in Hin'. }
    apply wp_bind, wp_Unlock; [done|]. apply wp_ret.
    simpl. rewrite Hsz, Hval. done.
  - unfold TestDelete. start_test mh sd c0.
    call_Set c0 c1 He1. call_Set c1 c2 He2. call_Set c2 c3 He3.
    apply wp_bind, wp_Lock; [done|].
    apply wp_bind. unfold hash at 1. apply wp_gets.
    apply wp_bind, wp_delete_model; [by apply Inv_set_m|done|].
    intros c4 HI4 Hm4 He4.
    change (entries (set_m true c3)) with (entries c3) in He4.
    rewrite He3 in He4. norm_model He4.
    assert (size c4 = 2) as Hsz by (by rewrite (size_entries mh c4), He4).
    apply wp_bind, wp_gets.
    apply wp_bind, wp_Unlock; [done|].
    pose proof (Inv_set_m mh false c4 HI4) as HI5.
    set (c5 := set_m false c4) in *.
    assert (entries c5 = entries c4) as He5 by done. rewrite He4 in He5.
    call_Get c5 c6 He6.
    apply wp_bind, wp_Lock; [done|].
    apply wp_bind. unfold hash at 1. apply wp_gets.
    apply wp_bind, wp_lookup_model; [by apply Inv_set_m|done|].
    intros r above root Hr.
    change (entries (set_m true c6)) with (entries c6) in Hr.
    change (keys (set_m true c6)) with (keys c6) in Hr.
    destruct r as [a|].
    { exfalso. destruct Hr as (rr & _ & _ & Hin). rewrite He6 in Hin.
      apply elem_of_cons in Hin as [[=]|Hin].
      apply elem_of_cons in Hin as [[=]|Hin].
      by apply elem_of_nil in Hin. }
    apply wp_bind, wp_Unlock; [done|]. apply wp_ret.
    simpl. rewrite Hsz. done.
Qed.
